(** * Telegram ingestion: the extraction engines, the retry controller, the
    token bucket and the checkpoint manager, embedded from the TypeScript
    sources and verified against the specification.

    Text is a list of code units.  The embedding is exact on ASCII text: the
    character classes and case folding below are the ASCII restrictions of
    the JavaScript ones, and the non-ASCII literals of the source patterns
    are kept as the UTF-8 bytes the source file holds. *)

From Stdlib Require Import ZArith QArith Qminmax Qround Bool List Ascii String DecimalString.
From Stdlib Require Import Lia Lqa.
From stdpp Require Import gmap strings.
Import ListNotations.
Set Warnings "-register-all".
Open Scope string_scope.
Open Scope list_scope.

Abbreviation str := (list ascii).
Coercion list_ascii_of_string : string >-> list.

(* ===================================================================== *)
(** * Part I: definitions                                                  *)
(* ===================================================================== *)

(** ** Characters *)

Definition code (c : ascii) : nat := nat_of_ascii c.

Definition in_range (lo hi : nat) (c : ascii) : bool :=
  Nat.leb lo (code c) && Nat.leb (code c) hi.

Definition is_digit (c : ascii) : bool := in_range 48 57 c.
Definition is_upper (c : ascii) : bool := in_range 65 90 c.
Definition is_lower (c : ascii) : bool := in_range 97 122 c.

(** [\w]: letters, digits and the underscore. *)
Definition is_word (c : ascii) : bool :=
  is_digit c || is_upper c || is_lower c || Nat.eqb (code c) 95.

(** [\s] and the characters [trim] strips: tab, line feed, vertical tab,
    form feed, carriage return, space. *)
Definition is_space (c : ascii) : bool :=
  in_range 9 13 c || Nat.eqb (code c) 32.

(** Line terminators, which the dot does not match. *)
Definition is_newline (c : ascii) : bool :=
  Nat.eqb (code c) 10 || Nat.eqb (code c) 13.

Definition to_upper (c : ascii) : ascii :=
  if is_lower c then ascii_of_nat (code c - 32) else c.
Definition to_lower (c : ascii) : ascii :=
  if is_upper c then ascii_of_nat (code c + 32) else c.

(** [s.toUpperCase()] and [s.toLowerCase()] on ASCII text.  The host also
    folds letters outside ASCII, which is not modelled: a property that
    rests on the folding of arbitrary text is stated for ASCII text. *)
Definition toUpperCase (s : str) : str := map to_upper s.
Definition toLowerCase (s : str) : str := map to_lower s.

Definition dollar : ascii := "$"%char.
Definition newline : ascii := ascii_of_nat 10.

(** ** String primitives of the host language *)

Fixpoint str_eqb (a b : str) : bool :=
  match a, b with
  | [], [] => true
  | x :: a', y :: b' => Ascii.eqb x y && str_eqb a' b'
  | _, _ => false
  end.

Fixpoint startsWith (s p : str) : bool :=
  match p, s with
  | [], _ => true
  | x :: p', y :: s' => Ascii.eqb x y && startsWith s' p'
  | _ :: _, [] => false
  end.

(** [s.includes(p)] *)
Fixpoint includes (s p : str) : bool :=
  startsWith s p ||
  match s with
  | [] => false
  | _ :: s' => includes s' p
  end.

(** [s.indexOf(p)], [None] standing for -1. *)
Fixpoint indexOf_from (i : nat) (s p : str) : option nat :=
  if startsWith s p then Some i
  else match s with
       | [] => None
       | _ :: s' => indexOf_from (S i) s' p
       end.
Definition indexOf (s p : str) : option nat := indexOf_from 0 s p.

(** [s.lastIndexOf(c)] for a one-character needle. *)
Fixpoint lastIndexOf_from (i : nat) (s : str) (c : ascii) : option nat :=
  match s with
  | [] => None
  | x :: s' =>
      match lastIndexOf_from (S i) s' c with
      | Some j => Some j
      | None => if Ascii.eqb x c then Some i else None
      end
  end.
Definition lastIndexOf (s : str) (c : ascii) : option nat := lastIndexOf_from 0 s c.

(** [s.substring(a, b)] for [a <= b]. *)
Definition substring (a b : nat) (s : str) : str := firstn (b - a) (skipn a s).

Fixpoint trimStart (s : str) : str :=
  match s with
  | x :: s' => if is_space x then trimStart s' else s
  | [] => []
  end.
Definition trimEnd (s : str) : str := rev (trimStart (rev s)).
Definition trim (s : str) : str := trimEnd (trimStart s).

(** [s.split(sep)] for a one-character separator. *)
Fixpoint split_char (sep : ascii) (s : str) : list str :=
  match s with
  | [] => [[]]
  | x :: s' =>
      if Ascii.eqb x sep then [] :: split_char sep s'
      else match split_char sep s' with
           | [] => [[x]]
           | l :: ls => (x :: l) :: ls
           end
  end.

(** [s.replace(p, "")] with a string pattern: only the first occurrence. *)
Definition replace_first (s p : str) : str :=
  match indexOf s p with
  | Some i => firstn i s ++ skipn (i + length p) s
  | None => s
  end.

(** [words.join(" ")] *)
Fixpoint join_space (ws : list str) : str :=
  match ws with
  | [] => []
  | [w] => w
  | w :: ws' => w ++ " "%char :: join_space ws'
  end.

(** [arr.includes(x)] on an array of strings. *)
Definition arr_includes (l : list str) (x : str) : bool := existsb (str_eqb x) l.

(** ** Regular expressions *)

Inductive citem : Type :=
| CChar (c : ascii)
| CRange (lo hi : ascii)
| CDigit
| CSpace
| CWord.

Inductive regex : Type :=
| REps
| RChar (c : ascii)
| RAny
| RSet (neg : bool) (items : list citem)
| RSeq (r1 r2 : regex)
| RAlt (r1 r2 : regex)
| RStar (r : regex)
| RGroup (g : nat) (r : regex)
| RBol
| REol.

Definition citem_has (it : citem) (c : ascii) : bool :=
  match it with
  | CChar a => Ascii.eqb a c
  | CRange lo hi => in_range (code lo) (code hi) c
  | CDigit => is_digit c
  | CSpace => is_space c
  | CWord => is_word c
  end.

(** Membership in a bracket class; under the [i] flag a character belongs
    when one of its case variants does. *)
Definition class_has (ci : bool) (items : list citem) (c : ascii) : bool :=
  let base := fun x => existsb (fun it => citem_has it x) items in
  if ci then base c || base (to_upper c) || base (to_lower c) else base c.

Definition char_eq (ci : bool) (a b : ascii) : bool :=
  if ci then Ascii.eqb (to_upper a) (to_upper b) else Ascii.eqb a b.

Definition caps : Type := list (nat * str).

(** The greedy star: up to [n] further iterations of [body], each of which
    must consume something, then the continuation. *)
Fixpoint star_loop {R : Type}
    (body : nat -> str -> caps -> (nat -> str -> caps -> option R) -> option R)
    (k : nat -> str -> caps -> option R) (n : nat) (i : nat) (s : str) (c : caps)
    : option R :=
  match n with
  | O => k i s c
  | S n' =>
      match body i s c (fun i' s' c' => if Nat.ltb i i' then star_loop body k n' i' s' c'
                                        else None) with
      | Some res => Some res
      | None => k i s c
      end
  end.

(** The backtracking matcher, in continuation-passing style: alternatives
    are tried left to right, the star is greedy and refuses an iteration
    that consumes nothing.  [i] is the index of the current position and
    [s] the text from there on. *)
Fixpoint rmatch {R : Type} (ci : bool) (r : regex) (i : nat) (s : str) (c : caps)
    (k : nat -> str -> caps -> option R) : option R :=
  match r with
  | REps => k i s c
  | RChar a =>
      match s with
      | x :: s' => if char_eq ci a x then k (S i) s' c else None
      | [] => None
      end
  | RAny =>
      match s with
      | x :: s' => if is_newline x then None else k (S i) s' c
      | [] => None
      end
  | RSet neg items =>
      match s with
      | x :: s' => if xorb neg (class_has ci items x) then k (S i) s' c else None
      | [] => None
      end
  | RSeq r1 r2 => rmatch ci r1 i s c (fun i' s' c' => rmatch ci r2 i' s' c' k)
  | RAlt r1 r2 =>
      match rmatch ci r1 i s c k with
      | Some res => Some res
      | None => rmatch ci r2 i s c k
      end
  | RStar r1 => star_loop (rmatch ci r1) k (S (length s)) i s c
  | RGroup g r1 =>
      rmatch ci r1 i s c (fun i' s' c' => k i' s' ((g, firstn (i' - i) s) :: c'))
  | RBol => if Nat.eqb i 0 then k i s c else None
  | REol => match s with [] => k i s c | _ :: _ => None end
  end.

Record rmatch_result : Type := MatchResult {
  m_index : nat;   (* where the match starts *)
  m_end : nat;     (* the index just after it *)
  m_text : str;    (* the matched text, group 0 *)
  m_caps : caps    (* the groups that took part, newest first *)
}.

(** The leftmost match at or after the current position. *)
Fixpoint search (ci : bool) (r : regex) (i : nat) (s : str) : option rmatch_result :=
  match rmatch ci r i s [] (fun i' _ c => Some (i', c)) with
  | Some (e, c) =>
      Some {| m_index := i; m_end := e; m_text := firstn (e - i) s; m_caps := c |}
  | None =>
      match s with
      | [] => None
      | _ :: s' => search ci r (S i) s'
      end
  end.

(** [s.match(re)] for a pattern without the [g] flag. *)
Definition exec (ci : bool) (r : regex) (s : str) : option rmatch_result := search ci r 0 s.

(** [re.test(s)] *)
Definition test (ci : bool) (r : regex) (s : str) : bool :=
  match exec ci r s with Some _ => true | None => false end.

Fixpoint cap_lookup (g : nat) (c : caps) : option str :=
  match c with
  | [] => None
  | (g', w) :: c' => if Nat.eqb g g' then Some w else cap_lookup g c'
  end.

(** [m[g]]: the text of group [g], or undefined. *)
Definition group (g : nat) (m : rmatch_result) : option str := cap_lookup g (m_caps m).

(** [s.replace(re, "")] for a pattern without the [g] flag. *)
Definition replace_re (ci : bool) (r : regex) (s : str) : str :=
  match exec ci r s with
  | Some m => firstn (m_index m) s ++ skipn (m_end m) s
  | None => s
  end.

(** Pattern combinators: [r+] and the greedy [r?].  The patterns of the
    sources put no capturing group under a star and no atom that can match
    the empty text under a question mark, so the groups of an abandoned
    iteration need no resetting. *)
Definition rplus (r : regex) : regex := RSeq r (RStar r).
Definition ropt (r : regex) : regex := RAlt r REps.
Fixpoint rlit (s : str) : regex :=
  match s with
  | [] => REps
  | [c] => RChar c
  | c :: s' => RSeq (RChar c) (rlit s')
  end.
Fixpoint rseq (rs : list regex) : regex :=
  match rs with
  | [] => REps
  | [r] => r
  | r :: rs' => RSeq r (rseq rs')
  end.

Definition rdigit : regex := RSet false [CDigit].
Definition rspace : regex := RSet false [CSpace].
Definition rspaces : regex := RStar rspace.
Definition rspaces1 : regex := rplus rspace.
(** [[\d\.]+] *)
Definition rnumber : regex := rplus (RSet false [CDigit; CChar "."]).

(** *** What a match means

    [lang ci r w]: the text [w] has the shape of the pattern [r] (anchors
    taken as empty). *)
Inductive lang (ci : bool) : regex -> str -> Prop :=
| L_eps : lang ci REps []
| L_char (a x : ascii) : char_eq ci a x = true -> lang ci (RChar a) [x]
| L_any (x : ascii) : is_newline x = false -> lang ci RAny [x]
| L_set (neg : bool) (items : list citem) (x : ascii) :
    xorb neg (class_has ci items x) = true -> lang ci (RSet neg items) [x]
| L_seq (r1 r2 : regex) (u v : str) :
    lang ci r1 u -> lang ci r2 v -> lang ci (RSeq r1 r2) (u ++ v)
| L_alt_l (r1 r2 : regex) (u : str) : lang ci r1 u -> lang ci (RAlt r1 r2) u
| L_alt_r (r1 r2 : regex) (u : str) : lang ci r2 u -> lang ci (RAlt r1 r2) u
| L_star_nil (r : regex) : lang ci (RStar r) []
| L_star_cons (r : regex) (u v : str) :
    lang ci r u -> lang ci (RStar r) v -> lang ci (RStar r) (u ++ v)
| L_group (g : nat) (r : regex) (u : str) : lang ci r u -> lang ci (RGroup g r) u
| L_bol : lang ci RBol []
| L_eol : lang ci REol [].

(** The capturing groups of a pattern, with their bodies. *)
Fixpoint groups (r : regex) : list (nat * regex) :=
  match r with
  | RSeq r1 r2 | RAlt r1 r2 => groups r1 ++ groups r2
  | RStar r1 => groups r1
  | RGroup g r1 => (g, r1) :: groups r1
  | _ => []
  end.

(** [binds r g]: every match of [r] goes through group [g]. *)
Fixpoint binds (r : regex) (g : nat) : bool :=
  match r with
  | RSeq r1 r2 => binds r1 g || binds r2 g
  | RAlt r1 r2 => binds r1 g && binds r2 g
  | RGroup g' r1 => Nat.eqb g g' || binds r1 g
  | _ => false
  end.

(** A capture is sound for [r] when its text has the shape of the body of
    a group of [r] with that number. *)
Definition cap_from (ci : bool) (r : regex) (gw : nat * str) : Prop :=
  exists r', In (fst gw, r') (groups r) /\ lang ci r' (snd gw).

(** [s.split(re)] for a pattern without capturing groups: the text is cut at
    every non-empty match, scanning left to right; a match that ends where
    the current piece starts is skipped.  [acc] holds the current piece,
    reversed, [p] the index where it starts and [q] the scan position. *)
Fixpoint split_loop (fuel : nat) (ci : bool) (r : regex) (p q : nat) (s : str)
    (acc : str) : list str :=
  match fuel with
  | O => [rev acc]
  | S fuel' =>
      match s with
      | [] => [rev acc]
      | x :: s' =>
          match rmatch ci r q s [] (fun e _ _ => Some e) with
          | Some e =>
              if Nat.eqb e p then split_loop fuel' ci r p (S q) s' (x :: acc)
              else rev acc :: split_loop fuel' ci r e e (skipn (e - q) s) []
          | None => split_loop fuel' ci r p (S q) s' (x :: acc)
          end
      end
  end.

Definition split_re (ci : bool) (r : regex) (s : str) : list str :=
  match s with
  | [] =>
      match rmatch ci r 0 [] [] (fun e _ _ => Some e) with
      | Some _ => []
      | None => [[]]
      end
  | _ :: _ => split_loop (2 * length s + 2) ci r 0 0 s []
  end.

(** Every match of a pattern with the [g] flag, as the loop
    [while ((m = re.exec(text)) !== null)] sees them: each search resumes
    where the previous match ended. *)
Fixpoint exec_all (fuel : nat) (ci : bool) (r : regex) (i : nat) (s : str)
    : list rmatch_result :=
  match fuel with
  | O => []
  | S fuel' =>
      match search ci r i s with
      | None => []
      | Some m => m :: exec_all fuel' ci r (m_end m) (skipn (m_end m - i) s)
      end
  end.

(** ** Exceptions

    A method call on an undefined value raises a TypeError; the callers
    catch it at the per-message boundary. *)
Inductive js (A : Type) : Type :=
| Ret (a : A)
| Throw.
Arguments Ret {A} a.
Arguments Throw {A}.

Definition js_bind {A B : Type} (m : js A) (f : A -> js B) : js B :=
  match m with
  | Ret a => f a
  | Throw => Throw
  end.

Notation "'do' x <- m ; k" := (js_bind m (fun x => k))
  (at level 20, x name, m at level 100, k at level 200, only parsing).

(** [m[g].method(...)]: the group must be defined. *)
Definition grp (g : nat) (m : rmatch_result) : js str :=
  match group g m with
  | Some w => Ret w
  | None => Throw
  end.

(** [m[g] + rest]: string concatenation prints an undefined group. *)
Definition grp_text (g : nat) (m : rmatch_result) : str :=
  match group g m with
  | Some w => w
  | None => "undefined"
  end.

(** ** The deterministic extraction engine (investmentParser.ts) *)

Record TelegramMessage : Type := {
  msg_id : str;
  msg_date : str;
  senderId : str;
  senderName : str;
  msg_text : str
}.

Module Parser.

Inductive record_type : Type := investment | acquisition | roundup.

(** [string | string[]] *)
Inductive one_or_many : Type :=
| One (s : str)
| Many (l : list str).

Record acquisition_item : Type := {
  acq_company : str;
  acq_acquirer : str;
  acq_amount : option str
}.

(** The fields of [InvestmentData] the properties below speak of.  [round],
    [investors], [investorDetails] and [links] are left out: they are
    computed from the text by string operations on defined values, and
    decide neither whether a record is produced nor any field kept here. *)
Record InvestmentData : Type := {
  company : one_or_many;
  amount : option one_or_many;
  type : record_type;
  date : str;
  valuation : option str;
  rawText : str;
  isPartOfRoundup : option bool;
  acquisitions : option (list acquisition_item)
}.

(** The bytes the source file holds for its two non-ASCII literals. *)
Definition mojibake_dash : str := map ascii_of_nat [195; 162; 226; 130; 172; 226; 128; 156].
Definition mojibake_zwsp : str := map ascii_of_nat [195; 162; 226; 130; 172; 226; 128; 185].

Definition rM : regex := ropt (RChar "M").
Definition rB : regex := ropt (RChar "B").
Definition rdollar : regex := ropt (RChar dollar).
Definition not_space : regex := RSet true [CSpace].
Definition letters : list citem := [CRange "A" "Z"; CRange "a" "z"].

(** *** isWeeklyRoundup *)

Definition dot_star : regex := RStar RAny.

Definition roundupIndicators : list regex :=
  [ (* /Top\s+\d+\s+.*Rounds\s+of\s+This\s+Week/i *)
    rseq [rlit "Top"; rspaces1; rplus rdigit; rspaces1; dot_star; rlit "Rounds"; rspaces1;
          rlit "of"; rspaces1; rlit "This"; rspaces1; rlit "Week"];
    (* /Best\s+Rounds\s+Of\s+This\s+Week/i *)
    rseq [rlit "Best"; rspaces1; rlit "Rounds"; rspaces1; rlit "Of"; rspaces1; rlit "This";
          rspaces1; rlit "Week"];
    (* /Notable\s+Rounds\s+of\s+This\s+Week/i *)
    rseq [rlit "Notable"; rspaces1; rlit "Rounds"; rspaces1; rlit "of"; rspaces1; rlit "This";
          rspaces1; rlit "Week"];
    (* /Funding\s+Rounds\s+Of\s+.*Week/i *)
    rseq [rlit "Funding"; rspaces1; rlit "Rounds"; rspaces1; rlit "Of"; rspaces1; dot_star;
          rlit "Week"];
    (* /Rounds\s+Of\s+.*Week/i *)
    rseq [rlit "Rounds"; rspaces1; rlit "Of"; rspaces1; dot_star; rlit "Week"];
    (* /Best\s+Funding\s+Rounds\s+Of/i *)
    rseq [rlit "Best"; rspaces1; rlit "Funding"; rspaces1; rlit "Rounds"; rspaces1; rlit "Of"] ].

Definition isWeeklyRoundup (text : str) : bool :=
  existsb (fun pattern => test true pattern text) roundupIndicators.

(** *** parseWeeklyRoundup

    The [specialInvestments] list the function fills first is never read
    again and is left out. *)

Definition dash_items : list citem := CChar "-" :: map CChar mojibake_dash ++ [CChar ":"].

(** /([^-<dash>:$\n]+)\s*[-<dash>:]\s*\$?([\d\.]+)M?B?/i, where <dash> is the
    source's non-ASCII dash literal. *)
Definition dashPattern : regex :=
  rseq [RGroup 1 (rplus (RSet true (dash_items ++ [CChar dollar; CChar newline])));
        rspaces; RSet false dash_items; rspaces; rdollar; RGroup 2 rnumber; rM; rB].

(** /([^\s]+)\s+\$?([\d\.]+)M?B?/i *)
Definition spacePattern : regex :=
  rseq [RGroup 1 (rplus not_space); rspaces1; rdollar; RGroup 2 rnumber; rM; rB].

Definition patterns : list regex := [dashPattern; dashPattern; dashPattern; spacePattern].

(** /(\w+)\s+acquired\s+(\w+)(?:\s+for\s+\$?([\d\.]+)B?M?)?/gi *)
Definition acquisitionRegex : regex :=
  rseq [RGroup 1 (rplus (RSet false [CWord])); rspaces1; rlit "acquired"; rspaces1;
        RGroup 2 (rplus (RSet false [CWord]));
        ropt (rseq [rspaces1; rlit "for"; rspaces1; rdollar; RGroup 3 rnumber; rB; rM])].

(** /^[^\w]+/ *)
Definition leadingNonWord : regex := rseq [RBol; rplus (RSet true [CWord])].
(** /^[A-Z][a-z]*$/ *)
Definition capitalizedWord : regex :=
  rseq [RBol; RSet false [CRange "A" "Z"]; RStar (RSet false [CRange "a" "z"]); REol].
(** /\$\s?([\d\.]+)M?B?/i *)
Definition looseAmount : regex := rseq [RChar dollar; ropt rspace; RGroup 1 rnumber; rM; rB].

Definition unit_suffix (line : str) : str :=
  if includes (toLowerCase line) "b" then "B" else "M".

(** One element of the acquisition scan. *)
Definition acquisition_of_match (m : rmatch_result) : js acquisition_item :=
  do a1 <- grp 1 m;
  do a2 <- grp 2 m;
  let acquirer := trim a1 in
  let acquired := trim a2 in
  let amount :=
    match group 3 m with
    | Some ((_ :: _) as v) => Some (v ++ unit_suffix (m_text m))
    | _ => None
    end in
  Ret {| acq_company := acquired; acq_acquirer := acquirer; acq_amount := amount |}.

Fixpoint collect_acquisitions (ms : list rmatch_result) : js (list acquisition_item) :=
  match ms with
  | [] => Ret []
  | m :: ms' =>
      do a <- acquisition_of_match m;
      do rest <- collect_acquisitions ms';
      Ret (a :: rest)
  end.

(** [if (!companies.includes(company)) { companies.push(company); amounts.push(amount) }] *)
Definition push_pair (companies amounts : list str) (company amount : str)
    : list str * list str :=
  if arr_includes companies company then (companies, amounts)
  else (companies ++ [company], amounts ++ [amount]).

(** The inner loop over [patterns]: the first pattern that matches the line
    decides; [None] when none matches. *)
Fixpoint tryPatterns (ps : list regex) (cleanLine : str) (companies amounts : list str)
    : js (option (list str * list str)) :=
  match ps with
  | [] => Ret None
  | pattern :: ps' =>
      match exec true pattern cleanLine with
      | Some m =>
          let dollarIndex := indexOf cleanLine "$" in
          do c1 <- grp 1 m;
          let company := trim c1 in
          let company : str :=
            if str_eqb company "T" && includes cleanLine "T-Rex" then "T-Rex" else company in
          let company : str :=
            match dollarIndex with
            | Some d =>
                if Nat.ltb 0 d then
                  let possibleFullName := trim (substring 0 d cleanLine) in
                  if Nat.ltb (length company) (length possibleFullName)
                     && startsWith possibleFullName company
                  then possibleFullName else company
                else company
            | None => company
            end in
          let amount := grp_text 2 m ++ unit_suffix cleanLine in
          Ret (Some (push_pair companies amounts company amount))
      | None => tryPatterns ps' cleanLine companies amounts
      end
  end.

(** The branch taken when no pattern matched the line. *)
Definition generalExtraction (cleanLine : str) (companies amounts : list str)
    : list str * list str :=
  if includes cleanLine "$" && test false (rplus rdigit) cleanLine then
    match indexOf cleanLine "$" with
    | Some dollarIndex =>
        if Nat.ltb 2 dollarIndex then
          let possibleCompany := trim (substring 0 dollarIndex cleanLine) in
          let companyWords := split_re false rspaces1 possibleCompany in
          let company : str :=
            match companyWords with
            | [] => []
            | w0 :: _ =>
                if Nat.leb 2 (length companyWords)
                   && (str_eqb w0 "Alt" || str_eqb w0 "T" || test false capitalizedWord w0)
                then join_space (firstn 2 companyWords)
                else w0
            end in
          if Nat.ltb 1 (length company) then
            match exec true looseAmount cleanLine with
            | Some amountMatch =>
                let amount := grp_text 1 amountMatch ++ unit_suffix cleanLine in
                push_pair companies amounts company amount
            | None => (companies, amounts)
            end
          else (companies, amounts)
        else (companies, amounts)
    | None => (companies, amounts)
    end
  else (companies, amounts).

(** The body of the loop over the lines of the message. *)
Definition processLine (acc : list str * list str) (line : str) : js (list str * list str) :=
  let '(companies, amounts) := acc in
  if Nat.ltb (length line) 5 || includes line "Round" || includes line "Week"
     || includes line "Total"
  then Ret acc
  else
    let cleanLine := trim (replace_re false leadingNonWord line) in
    do matched <- tryPatterns patterns cleanLine companies amounts;
    match matched with
    | Some acc' => Ret acc'
    | None => Ret (generalExtraction cleanLine companies amounts)
    end.

Fixpoint processLines (acc : list str * list str) (lines : list str)
    : js (list str * list str) :=
  match lines with
  | [] => Ret acc
  | line :: lines' =>
      do acc' <- processLine acc line;
      processLines acc' lines'
  end.

Definition parseWeeklyRoundup (message : TelegramMessage) : js InvestmentData :=
  let text := msg_text message in
  let lines := split_char newline text in
  do acquisitions <-
    collect_acquisitions (exec_all (S (length text)) true acquisitionRegex 0 text);
  do acc <- processLines ([], []) lines;
  let '(companies, amounts) := acc in
  Ret {| company := Many companies;
         amount := Some (Many amounts);
         type := roundup;
         date := msg_date message;
         valuation := None;
         rawText := text;
         isPartOfRoundup := Some true;
         acquisitions := match acquisitions with [] => None | _ :: _ => Some acquisitions end |}.

(** *** extractCompanyName *)

(** [[^$\s]+(?:\.[^\s]+)?] *)
Definition companyToken : regex :=
  RSeq (rplus (RSet true [CChar dollar; CSpace])) (ropt (RSeq (RChar ".") (rplus not_space))).

(** [[A-Za-z\-]+(?:\s+[A-Za-z]+)?] *)
Definition roundWords : regex :=
  RSeq (rplus (RSet false (letters ++ [CChar "-"])))
       (ropt (RSeq rspaces1 (rplus (RSet false letters)))).

(** /<zz>([^$\s]+(?:\.[^\s]+)?)\s+\$?([\d\.]+)M?\s+([A-Za-z\-]+(?:\s+[A-Za-z]+)?)\s+Round/i,
    where <zz> is the source's non-ASCII prefix literal, written twice. *)
Definition titleWithAmount : regex :=
  rseq [rlit (mojibake_zwsp ++ mojibake_zwsp); RGroup 1 companyToken; rspaces1; rdollar;
        RGroup 2 rnumber; rM; rspaces1; RGroup 3 roundWords; rspaces1; rlit "Round"].

(** /<zz>([^$\s]+(?:\.[^\s]+)?)\s+([A-Za-z\-]+(?:\s+[A-Za-z]+)?)\s+Round/i *)
Definition titleWithRound : regex :=
  rseq [rlit (mojibake_zwsp ++ mojibake_zwsp); RGroup 1 companyToken; rspaces1;
        RGroup 2 roundWords; rspaces1; rlit "Round"].

(** /About:\s*\n([^\n]+)/ *)
Definition aboutSection : regex :=
  rseq [rlit "About:"; rspaces; RChar newline; RGroup 1 (rplus (RSet true [CChar newline]))].

(** /^([^\.]+\.[^\s]+|[^\s]+)\s+is\s+/i *)
Definition companyPattern : regex :=
  rseq [RBol;
        RGroup 1 (RAlt (rseq [rplus (RSet true [CChar "."]); RChar "."; rplus not_space])
                       (rplus not_space));
        rspaces1; rlit "is"; rspaces1].

(** /has acquired\s+([^\s\n]+)/i *)
Definition hasAcquired : regex :=
  rseq [rlit "has acquired"; rspaces1; RGroup 1 (rplus (RSet true [CSpace; CChar newline]))].

(** /([^\n]+)\s+acquired by:/i *)
Definition acquiredBy : regex :=
  rseq [RGroup 1 (rplus (RSet true [CChar newline])); rspaces1; rlit "acquired by:"].

(** /([^\s\n]+)\s+has acquired/i *)
Definition beforeHasAcquired : regex :=
  rseq [RGroup 1 (rplus (RSet true [CSpace; CChar newline])); rspaces1; rlit "has acquired"].

(** /^<zz>/ with the prefix literal written twice. *)
Definition leadingPrefix : regex := rseq [RBol; rlit (mojibake_zwsp ++ mojibake_zwsp)].

(** /^([^$\s]+(?:\.[^\s]+)?)/ *)
Definition firstWord : regex := rseq [RBol; RGroup 1 companyToken].

(** [text.split("\n")[0].trim()] *)
Definition firstLineOf (text : str) : str := trim (hd [] (split_char newline text)).

Definition trimmed_group (m : rmatch_result) : js str :=
  do w <- grp 1 m; Ret (trim w).

(** The last resort: the first word of the first line. *)
Definition companyFromFirstLine (firstLine : str) : js str :=
  match firstLine with
  | [] => Ret []
  | _ :: _ =>
      let cleanedFirstLine := trim (replace_re false leadingPrefix firstLine) in
      match exec false firstWord cleanedFirstLine with
      | Some firstWordMatch =>
          do w <- grp 1 firstWordMatch;
          if Nat.ltb 1 (length w) then Ret w else Ret []
      | None => Ret []
      end
  end.

(** The acquisition-specific patterns, then the last resort. *)
Definition companyFromAcquisition (text firstLine : str) (isAcquisition : bool) : js str :=
  if isAcquisition then
    match exec true hasAcquired text with
    | Some acquisitionMatch => trimmed_group acquisitionMatch
    | None =>
        match exec true acquiredBy text with
        | Some altMatch => trimmed_group altMatch
        | None =>
            match exec true beforeHasAcquired text with
            | Some generalMatch => trimmed_group generalMatch
            | None => companyFromFirstLine firstLine
            end
        end
    end
  else companyFromFirstLine firstLine.

(** The [About:] section, then the later strategies. *)
Definition companyFromAbout (text firstLine : str) (isAcquisition : bool) : js str :=
  match exec false aboutSection text with
  | Some aboutMatch =>
      do aboutText <- grp 1 aboutMatch;
      match exec true companyPattern aboutText with
      | Some companyMatch => trimmed_group companyMatch
      | None =>
          match split_re false rspaces1 aboutText with
          | ((_ :: _ :: _) as firstTerm) :: _ => Ret (trim firstTerm)
          | _ => companyFromAcquisition text firstLine isAcquisition
          end
      end
  | None => companyFromAcquisition text firstLine isAcquisition
  end.

Definition extractCompanyName (text : str) (isAcquisition : bool) : js str :=
  let firstLine := firstLineOf text in
  match exec true titleWithAmount firstLine with
  | Some titleMatchWithAmount => trimmed_group titleMatchWithAmount
  | None =>
      match exec true titleWithRound firstLine with
      | Some titleMatchWithRound => trimmed_group titleMatchWithRound
      | None => companyFromAbout text firstLine isAcquisition
      end
  end.

(** *** extractFundingAmount and parseInvestmentData *)

(** /\$\s*([\d\.]+)\s*(M|B)/i *)
Definition dollarAmount : regex :=
  rseq [RChar dollar; rspaces; RGroup 1 rnumber; rspaces; RGroup 2 (RAlt (RChar "M") (RChar "B"))].

(** /\$\s*([\d\.]+)\s*K/i *)
Definition thousandsAmount : regex :=
  rseq [RChar dollar; rspaces; RGroup 1 rnumber; rspaces; RChar "K"].

(** /Valuation:\s+\$?([\d\.]+)M/i *)
Definition valuationPattern : regex :=
  rseq [rlit "Valuation:"; rspaces1; rdollar; RGroup 1 rnumber; RChar "M"].

Section WithNumberFormat.

(** [(parseFloat(d) / 1000).toFixed(2)]: binary floating-point arithmetic and
    number printing of the host, taken as given. *)
Variable thousandth_toFixed2 : str -> str.

Definition amount_of_match (m : rmatch_result) : js str :=
  do unit <- grp 2 m; Ret (grp_text 1 m ++ toUpperCase unit).

Definition extractFundingAmount (text : str) : js str :=
  let firstLine := firstLineOf text in
  match exec true dollarAmount firstLine with
  | Some firstLineDollarMatch => amount_of_match firstLineDollarMatch
  | None =>
      match exec true thousandsAmount firstLine with
      | Some kMatch => Ret (thousandth_toFixed2 (grp_text 1 kMatch) ++ "M")
      | None =>
          match exec true dollarAmount text with
          | Some dollarMatch => amount_of_match dollarMatch
          | None =>
              if includes (toLowerCase text) "undisclosed" then Ret ("Undisclosed" : str)
              else Ret ("Undisclosed" : str)
          end
      end
  end.

(** The pre-filter: does the text look like a funding announcement? *)
Definition looksLikeFunding (text : str) : bool :=
  includes text "Round" || includes text "acquired" || includes text "Funding"
  || includes text "$".

Definition isMonthlyRoundup (text : str) : bool :=
  includes text "Funding Rounds Of"
  && (includes text "April" || includes text "May" || includes text "June").

Definition extractValuation (text : str) : option str :=
  match exec true valuationPattern text with
  | Some valuationMatch => Some ("$" ++ grp_text 1 valuationMatch ++ "M")
  | None => None
  end.

Definition parseInvestmentData (message : TelegramMessage) : js (option InvestmentData) :=
  let text := msg_text message in
  if negb (looksLikeFunding text) then Ret None
  else if isWeeklyRoundup text then
    do r <- parseWeeklyRoundup message; Ret (Some r)
  else if isMonthlyRoundup text then
    do r <- parseWeeklyRoundup message; Ret (Some r)
  else
    let isAcquisition := includes text "acquired" || includes text "acquisition" in
    let type := if isAcquisition then acquisition else investment in
    do company <- extractCompanyName text isAcquisition;
    match company with
    | [] => Ret None
    | _ :: _ =>
        let company : str :=
          if str_eqb company "Alt" && includes text "Alt DRX" then "Alt DRX" else company in
        do amount <- extractFundingAmount text;
        Ret (Some {| company := One company;
                     amount := Some (One amount);
                     type := type;
                     date := msg_date message;
                     valuation := extractValuation text;
                     rawText := text;
                     isPartOfRoundup := None;
                     acquisitions := None |})
    end.

(** [typeof result.company === "string" ? result.company : result.company.length > 0] *)
Definition hasCompany (r : InvestmentData) : bool :=
  match company r with
  | One s => negb (Nat.eqb (length s) 0)
  | Many l => Nat.ltb 0 (length l)
  end.

(** The loop of [extractInvestmentData]: a message whose parse raises is
    logged and skipped. *)
Fixpoint extractInvestmentData (messages : list TelegramMessage) : list InvestmentData :=
  match messages with
  | [] => []
  | message :: rest =>
      match parseInvestmentData message with
      | Ret (Some result) =>
          if hasCompany result then result :: extractInvestmentData rest
          else extractInvestmentData rest
      | Ret None => extractInvestmentData rest
      | Throw => extractInvestmentData rest
      end
  end.

End WithNumberFormat.

End Parser.

(** ** The retry controller (genAI: retry) *)

Module Retry.

(** A thrown value, read through [error?.message]. *)
Record error : Type := { message : option str }.

Inductive outcome (A : Type) : Type :=
| Resolved (a : A)
| Rejected (e : error).
Arguments Resolved {A} a.
Arguments Rejected {A} e.

Definition isRetryable (e : error) : bool :=
  match message e with
  | Some m => includes m "503" || includes m "overloaded" || includes m "UNAVAILABLE"
  | None => false
  end.

(** What the loop consumed of its environment: how many times the operation
    has been called and how many random numbers have been drawn. *)
Record world : Type := { calls : nat; draws : nat }.

Record run (A : Type) : Type := {
  result : outcome A;   (* the value returned, or the error re-raised *)
  after : world;
  waits : list Q        (* the delays slept, in milliseconds, oldest first *)
}.
Arguments result {A} r.
Arguments after {A} r.
Arguments waits {A} r.

Section Loop.

Context {A : Type}.
(** The operation: the outcome of its n-th call. *)
Variable fn : nat -> outcome A.
(** [Math.random()]: the n-th number drawn. *)
Variable random : nat -> Q.
Variable maxRetries : Z.
Variable maxDelay : Q.

(** [Math.random() * 0.3 + 0.85] *)
Definition jitter_of (x : Q) : Q := (x * 0.3 + 0.85)%Q.

(** [Math.min(delay * 1.5 * jitter, maxDelay)] *)
Definition next_delay (delay jitter : Q) : Q := Qmin (delay * 1.5 * jitter)%Q maxDelay.

(** The [while (true)] loop, one iteration per unit of fuel. *)
Fixpoint retry_loop (fuel : nat) (w : world) (retries : Z) (delay : Q) (slept : list Q)
    : option (run A) :=
  match fuel with
  | O => None
  | S fuel' =>
      let w1 := {| calls := S (calls w); draws := draws w |} in
      match fn (calls w) with
      | Resolved v => Some {| result := Resolved v; after := w1; waits := slept |}
      | Rejected e =>
          let retries := (retries + 1)%Z in
          if (maxRetries <? retries)%Z || negb (isRetryable e) then
            Some {| result := Rejected e; after := w1; waits := slept |}
          else
            let jitter := jitter_of (random (draws w1)) in
            let delay := next_delay delay jitter in
            retry_loop fuel' {| calls := calls w1; draws := S (draws w1) |} retries delay
              (slept ++ [delay])
      end
  end.

(** The first [n] delays of a run that starts from [delay] and draws its
    random numbers from the [j]-th on. *)
Fixpoint delays (delay : Q) (j n : nat) : list Q :=
  match n with
  | O => []
  | S n' =>
      let d := next_delay delay (jitter_of (random j)) in
      d :: delays d (S j) n'
  end.

(** [retry(fn, maxRetries, initialDelay, maxDelay)].  The loop needs at most
    [maxRetries + 1] iterations ([retry_loop_returns] below), so the second
    branch is never taken. *)
Definition retry (initialDelay : Q) (w : world) : run A :=
  match retry_loop (S (Z.to_nat maxRetries)) w 0 initialDelay [] with
  | Some r => r
  | None => {| result := Rejected {| message := None |}; after := w; waits := [] |}
  end.

End Loop.

Definition default_maxRetries : Z := 5.
Definition default_initialDelay : Q := 2000.
Definition default_maxDelay : Q := 60000.

End Retry.

(** ** The AI extraction engine (genAI.ts) *)

Module GenAI.

(** Values as [JSON.parse] builds them, and [undefined]. *)
Inductive JValue : Type :=
| JUndefined
| JNull
| JBool (b : bool)
| JNum (q : Q)
| JStr (s : str)
| JArr (l : list JValue)
| JObj (fields : list (str * JValue)).

Inductive record_type : Type := investment | acquisition | roundup.

Record AcquisitionInRoundup : Type := {
  air_company : JValue;
  air_acquirer : JValue;
  air_amount : JValue
}.

(** [InvestmentData] of src/types; the fields hold whatever the model sent,
    [JUndefined] standing for a property that was never set. *)
Record InvestmentData : Type := {
  company : JValue;
  type : record_type;
  date : str;
  rawText : str;
  amount : JValue;
  round : JValue;
  investors : JValue;
  acquirer : JValue;
  about : JValue;
  valuation : JValue;
  links : option (list str);
  isPartOfRoundup : bool;
  acquisitionsInRoundup : option (list AcquisitionInRoundup)
}.

Fixpoint assoc (key : str) (fields : list (str * JValue)) : JValue :=
  match fields with
  | [] => JUndefined
  | (k, v) :: fields' => if str_eqb k key then v else assoc key fields'
  end.

(** [v.key] for the property names this module reads: a TypeError on
    [null] and [undefined], the own property on an object, [undefined] on
    every other value. *)
Definition get (v : JValue) (key : str) : js JValue :=
  match v with
  | JUndefined | JNull => Throw
  | JObj fields => Ret (assoc key fields)
  | _ => Ret JUndefined
  end.

Definition truthy (v : JValue) : bool :=
  match v with
  | JUndefined | JNull => false
  | JBool b => b
  | JNum q => negb (Qnum q =? 0)%Z
  | JStr s => negb (Nat.eqb (length s) 0)
  | JArr _ | JObj _ => true
  end.

(** [Array.isArray(v) && v.length > 0] *)
Definition nonEmptyArray (v : JValue) : option (list JValue) :=
  match v with
  | JArr ((_ :: _) as l) => Some l
  | _ => None
  end.

(** [v.replace("$", "")] on a value already known to be truthy: anything
    but a string has no such method. *)
Definition stripDollar (v : JValue) : js JValue :=
  match v with
  | JStr s => Ret (JStr (replace_first s "$"))
  | _ => Throw
  end.

(** [typeof v === "string" ? v.replace("$", "") : v] *)
Definition stripDollarIfString (v : JValue) : JValue :=
  match v with
  | JStr s => JStr (replace_first s "$")
  | _ => v
  end.

(** The callback of [data.amount.map] in the roundup branch. *)
Definition standardizeAmount (amount : JValue) : JValue :=
  match amount with
  | JStr s => JStr (replace_first (trim s) "$")
  | _ => amount
  end.

(** [acq.amount ? acq.amount.replace("$", "") : undefined] *)
Definition optionalStripped (v : JValue) : js JValue :=
  if truthy v then stripDollar v else Ret JUndefined.

(** The callback of [data.acquisitions.map] in the roundup branch. *)
Definition acquisitionInRoundup (acq : JValue) : js AcquisitionInRoundup :=
  do c <- get acq "company";
  do a <- get acq "acquirer";
  do m <- get acq "amount";
  do m' <- optionalStripped m;
  Ret {| air_company := c; air_acquirer := a; air_amount := m' |}.

Fixpoint mapAcquisitions (l : list JValue) : js (list AcquisitionInRoundup) :=
  match l with
  | [] => Ret []
  | acq :: l' =>
      do a <- acquisitionInRoundup acq;
      do rest <- mapAcquisitions l';
      Ret (a :: rest)
  end.

(** /^[\d\.]+M?B?$/ *)
Definition bareAmount : regex :=
  rseq [RBol; rnumber; ropt (RChar "M"); ropt (RChar "B"); REol].
(** /^[A-Za-z0-9\.-]+$/ *)
Definition bareName : regex :=
  rseq [RBol; rplus (RSet false [CRange "A" "Z"; CRange "a" "z"; CRange "0" "9"; CChar "."; CChar "-"]);
        REol].

Definition keepLink (link : JValue) : option str :=
  match link with
  | JStr ((_ :: _) as l) =>
      if negb (startsWith l "http") && negb (includes l ".com") && negb (includes l ".io")
         && negb (includes l ".org") && negb (includes l ".net") then None
      else if test false bareAmount l then None
      else if test false bareName l && negb (includes l ".") then None
      else Some l
  | _ => None
  end.

Definition withScheme (link : str) : str :=
  if negb (startsWith link "http") then "https://" ++ link else link.

Fixpoint cleanLinks (links : list JValue) : list str :=
  match links with
  | [] => []
  | link :: links' =>
      match keepLink link with
      | Some l => withScheme l :: cleanLinks links'
      | None => cleanLinks links'
      end
  end.

Definition ifTruthy (v : JValue) : JValue := if truthy v then v else JUndefined.

(** The transaction type. *)
Definition typeOf (data : JValue) (rawText : str) (isRoundup : bool) : js record_type :=
  if isRoundup then Ret roundup
  else
    do acquisitions <- get data "acquisitions";
    do acquirer <- get data "acquirer";
    if truthy acquisitions || truthy acquirer
       || includes (toLowerCase rawText) "acquired"
       || includes (toLowerCase rawText) "acquisition"
    then Ret acquisition else Ret investment.

(** [data.company || ""] *)
Definition companyOrEmpty (v : JValue) : JValue := if truthy v then v else JStr [].

(** The acquirer and amount of an acquisition record. *)
Definition acquisitionFields (data : JValue) : js (JValue * JValue) :=
  do acquisitions <- get data "acquisitions";
  match acquisitions with
  | JArr [] => Ret (JUndefined, JUndefined)
  | JArr (first :: _) =>
      do acquirer <- get first "acquirer";
      do amount <- get first "amount";
      do amount' <- optionalStripped amount;
      Ret (acquirer, amount')
  | JObj _ =>
      do acquirer <- get acquisitions "acquirer";
      do amount <- get acquisitions "amount";
      do amount' <- optionalStripped amount;
      Ret (acquirer, amount')
  | _ =>
      do acquirer <- get data "acquirer";
      do amount <- get data "amount";
      Ret (acquirer, if truthy amount then stripDollarIfString amount else JUndefined)
  end.

Definition standardizeInvestmentData (data : JValue) (rawText date : str) (isRoundup : bool)
    : js InvestmentData :=
  do type <- typeOf data rawText isRoundup;
  do dcompany <- get data "company";
  do damount <- get data "amount";
  do dacquisitions <- get data "acquisitions";
  do dround <- get data "round";
  do dinvestors <- get data "investors";
  do dabout <- get data "about";
  do dvaluation <- get data "valuation";
  do dlinks <- get data "links";
  let about := ifTruthy dabout in
  let valuation := if truthy dvaluation then stripDollarIfString dvaluation else JUndefined in
  let links :=
    match nonEmptyArray dlinks with
    | Some l => Some (cleanLinks l)
    | None => None
    end in
  match type with
  | roundup =>
      let company :=
        match nonEmptyArray dcompany with
        | Some _ => dcompany
        | None => JStr "Weekly Investment Roundup"
        end in
      let amount :=
        match nonEmptyArray dcompany, nonEmptyArray damount with
        | Some _, Some amounts => JArr (map standardizeAmount amounts)
        | _, _ => JUndefined
        end in
      do inRoundup <-
        match nonEmptyArray dacquisitions with
        | Some l => do l' <- mapAcquisitions l; Ret (Some l')
        | None => Ret None
        end;
      Ret {| company := company; type := type; date := date; rawText := rawText;
             amount := amount; round := JUndefined; investors := JUndefined;
             acquirer := JUndefined; about := about; valuation := valuation;
             links := links; isPartOfRoundup := true; acquisitionsInRoundup := inRoundup |}
  | acquisition =>
      do fields <- acquisitionFields data;
      Ret {| company := companyOrEmpty dcompany; type := type; date := date;
             rawText := rawText; amount := snd fields; round := JUndefined;
             investors := JUndefined; acquirer := fst fields; about := about;
             valuation := valuation; links := links; isPartOfRoundup := false;
             acquisitionsInRoundup := None |}
  | investment =>
      Ret {| company := companyOrEmpty dcompany; type := type; date := date;
             rawText := rawText;
             amount := if truthy damount then stripDollarIfString damount else JUndefined;
             round := ifTruthy dround;
             investors := match dinvestors with JArr _ => dinvestors | _ => JUndefined end;
             acquirer := JUndefined; about := about; valuation := valuation;
             links := links; isPartOfRoundup := false; acquisitionsInRoundup := None |}
  end.

(** The prompt sent to the generation service: one of two fixed templates
    around the message text. *)
Inductive prompt : Type :=
| buildRoundupPrompt (text : str)
| buildInvestmentPrompt (text : str).

(** The pre-filter of the AI engine. *)
Definition looksLikeFunding (text : str) : bool :=
  includes text "Round" || includes text "raised" || includes text "acquired"
  || includes text "Funding" || includes text "$" || includes text "investment".

(** /Top\s+\d+|Best\s+Rounds|Notable\s+Rounds|This\s+Week/i *)
Definition roundupHint : regex :=
  RAlt (rseq [rlit "Top"; rspaces1; rplus rdigit])
    (RAlt (rseq [rlit "Best"; rspaces1; rlit "Rounds"])
       (RAlt (rseq [rlit "Notable"; rspaces1; rlit "Rounds"])
             (rseq [rlit "This"; rspaces1; rlit "Week"]))).

(** [s.indexOf(..)] and [s.lastIndexOf(..)] as numbers. *)
Definition index_number (o : option nat) : Z :=
  match o with
  | Some i => Z.of_nat i
  | None => (-1)%Z
  end.

Section Engine.

(** [JSON.parse]: [None] when it raises a SyntaxError. *)
Variable JSON_parse : str -> option JValue.
(** The generation service: the outcome of the n-th call, given its prompt. *)
Variable callGeminiAPI : nat -> prompt -> Retry.outcome str.
(** [Math.random()] *)
Variable random : nat -> Q.

(** The inner [try] block of [extractInvestmentWithGemini]: from the raw
    response to a record, [None] for a dropped message. *)
Definition processResponse (response text date : str) (isRoundup : bool)
    : option InvestmentData :=
  let jsonStart := index_number (indexOf response "{") in
  let jsonEnd := (index_number (lastIndexOf response "}") + 1)%Z in
  if (jsonStart <? 0)%Z || (jsonEnd <=? jsonStart)%Z then None
  else
    let jsonString := substring (Z.to_nat jsonStart) (Z.to_nat jsonEnd) response in
    match JSON_parse jsonString with
    | None => None
    | Some extractedData =>
        match standardizeInvestmentData extractedData text date isRoundup with
        | Ret r => Some r
        | Throw => None
        end
    end.

Definition extractInvestmentWithGemini (message : TelegramMessage) (w : Retry.world)
    : option InvestmentData * Retry.world :=
  let text := msg_text message in
  if negb (looksLikeFunding text) then (None, w)
  else
    let isRoundup := test true roundupHint text in
    let prompt := if isRoundup then buildRoundupPrompt text else buildInvestmentPrompt text in
    let r := Retry.retry (fun n => callGeminiAPI n prompt) random Retry.default_maxRetries
               Retry.default_maxDelay Retry.default_initialDelay w in
    match Retry.result r with
    | Retry.Resolved response =>
        (processResponse response text (msg_date message) isRoundup, Retry.after r)
    | Retry.Rejected _ => (None, Retry.after r)
    end.

(** The acceptance test of the batch loop. *)
Definition accepted (r : InvestmentData) : bool :=
  match company r with
  | JStr s => Nat.ltb 0 (length s)
  | JArr l => Nat.ltb 0 (length l)
  | _ => false
  end.

(** The loop over the messages of one batch. *)
Fixpoint processBatch (batch : list TelegramMessage) (w : Retry.world)
    (investments : list InvestmentData) : list InvestmentData * Retry.world :=
  match batch with
  | [] => (investments, w)
  | message :: rest =>
      let '(result, w') := extractInvestmentWithGemini message w in
      processBatch rest w'
        match result with
        | Some r => if accepted r then investments ++ [r] else investments
        | None => investments
        end
  end.

Definition batchSize : nat := 5.

(** [messages.slice(a, b)] *)
Definition slice (a b : nat) (messages : list TelegramMessage) : list TelegramMessage :=
  firstn (b - a) (skipn a messages).

(** [for (let i = 0; i < messages.length; i += batchSize)] *)
Fixpoint batchLoop (fuel i : nat) (messages : list TelegramMessage) (w : Retry.world)
    (investments : list InvestmentData) : list InvestmentData * Retry.world :=
  match fuel with
  | O => (investments, w)
  | S fuel' =>
      if Nat.ltb i (length messages) then
        let batch := slice i (i + batchSize) messages in
        let '(investments', w') := processBatch batch w investments in
        batchLoop fuel' (i + batchSize) messages w' investments'
      else (investments, w)
  end.

Definition extractInvestmentsWithAI (messages : list TelegramMessage) (w : Retry.world)
    : list InvestmentData :=
  fst (batchLoop (S (length messages)) 0 messages w []).

End Engine.

End GenAI.

(** ** The token bucket (tokenManager.ts)

    Token counts are numbers, taken as exact rationals; clock readings are
    whole milliseconds. *)

Module TokenManager.

Record TokenRateLimiter : Type := {
  tokensPerMinute : Q;
  tokenBudget : Q;
  lastRefillTime : Z
}.

(** [new TokenRateLimiter(tokensPerMinute)] at clock reading [now]. *)
Definition create (perMinute : Q) (now : Z) : TokenRateLimiter :=
  {| tokensPerMinute := perMinute; tokenBudget := perMinute; lastRefillTime := now |}.

(** [refillTokens()] at clock reading [now]. *)
Definition refillTokens (now : Z) (l : TokenRateLimiter) : TokenRateLimiter :=
  let elapsedMs := (now - lastRefillTime l)%Z in
  let tokensToAdd := Qfloor (inject_Z elapsedMs * tokensPerMinute l / 60000) in
  if (0 <? tokensToAdd)%Z then
    {| tokensPerMinute := tokensPerMinute l;
       tokenBudget := Qmin (tokenBudget l + inject_Z tokensToAdd) (tokensPerMinute l);
       lastRefillTime := now |}
  else l.

(** [Math.ceil((tokens - tokenBudget) * 60000 / tokensPerMinute)] *)
Definition timeToWait (tokens : Q) (l : TokenRateLimiter) : Z :=
  Qceiling ((tokens - tokenBudget l) * 60000 / tokensPerMinute l).

(** [consumeTokens(tokens)]: [now1] is the clock at the first refill and
    [now2] the clock when the wait, if there is one, is over. *)
Definition consumeTokens (tokens : Q) (now1 now2 : Z) (l : TokenRateLimiter)
    : TokenRateLimiter :=
  let l1 := refillTokens now1 l in
  let l2 := if Qle_bool tokens (tokenBudget l1) then l1 else refillTokens now2 l1 in
  {| tokensPerMinute := tokensPerMinute l2;
     tokenBudget := tokenBudget l2 - tokens;
     lastRefillTime := lastRefillTime l2 |}.



End TokenManager.

(** ** The checkpoint manager (checkpointSystem.ts)

    Durable storage maps a path to the checkpoint written there; writing
    the JSON text of a checkpoint and parsing it back yields the same
    checkpoint. *)

Module Checkpoint.

Record error_entry : Type := {
  batch : Z;
  message : str;
  time : str
}.

Record CheckpointData : Type := {
  channel : str;
  totalProcessed : Z;
  lastBatchIndex : Z;
  lastProcessedTime : str;
  batchSize : Z;
  errors : list error_entry
}.

Record CheckpointManager : Type := {
  checkpointPath : str;
  data : CheckpointData
}.

Abbreviation disk := (gmap str CheckpointData).

(** [channel.replace(/[^a-z0-9]/gi, "_").toLowerCase()] *)
Definition safeChannel (channel : str) : str :=
  toLowerCase
    (map (fun c => if is_lower c || is_upper c || is_digit c then c else "_"%char) channel).

(** [path.join("./checkpoints", safeChannel + "_checkpoint.json")] *)
Definition pathOf (channel : str) : str :=
  "checkpoints/" ++ safeChannel channel ++ "_checkpoint.json".

Definition saveCheckpoint (m : CheckpointManager) (d : disk) : disk :=
  <[checkpointPath m := data m]> d.

(** [new CheckpointManager(channel, batchSize)]; [now] is the current time
    as [toISOString] prints it. *)
Definition create (channel : str) (size : Z) (now : str) (d : disk)
    : CheckpointManager * disk :=
  let path := pathOf channel in
  match d !! path with
  | Some stored => ({| checkpointPath := path; data := stored |}, d)
  | None =>
      let m := {| checkpointPath := path;
                  data := {| channel := channel;
                             totalProcessed := 0;
                             lastBatchIndex := -1;
                             lastProcessedTime := now;
                             batchSize := size;
                             errors := [] |} |} in
      (m, saveCheckpoint m d)
  end.

Definition getNextBatchIndex (m : CheckpointManager) : Z := (lastBatchIndex (data m) + 1)%Z.

Definition getTotalProcessed (m : CheckpointManager) : Z := totalProcessed (data m).

Definition updateCheckpoint (batchIndex messagesProcessed : Z) (now : str)
    (m : CheckpointManager) (d : disk) : CheckpointManager * disk :=
  let m' := {| checkpointPath := checkpointPath m;
               data := {| channel := channel (data m);
                          totalProcessed := (totalProcessed (data m) + messagesProcessed)%Z;
                          lastBatchIndex := batchIndex;
                          lastProcessedTime := now;
                          batchSize := batchSize (data m);
                          errors := errors (data m) |} |} in
  (m', saveCheckpoint m' d).

(** An error value ([error: any]), through what [error.toString()] does:
    it yields a text, or it raises, as on [null] and [undefined], which
    have no properties, and on an object without a callable [toString]. *)
Record thrown : Type := { toString : js str }.

(** [recordError(batchIndex, error)]: the entry is built before it is
    pushed, so when [error.toString()] raises nothing is pushed or saved
    and the exception leaves the method. *)
Definition recordError (batchIndex : Z) (error : thrown) (now : str)
    (m : CheckpointManager) (d : disk) : js (CheckpointManager * disk) :=
  do message <- toString error;
  let m' := {| checkpointPath := checkpointPath m;
               data := {| channel := channel (data m);
                          totalProcessed := totalProcessed (data m);
                          lastBatchIndex := lastBatchIndex (data m);
                          lastProcessedTime := lastProcessedTime (data m);
                          batchSize := batchSize (data m);
                          errors := errors (data m)
                                    ++ [{| batch := batchIndex;
                                           message := message;
                                           time := now |}] |} |} in
  Ret (m', saveCheckpoint m' d).

Definition reset (now : str) (m : CheckpointManager) (d : disk) : CheckpointManager * disk :=
  let m' := {| checkpointPath := checkpointPath m;
               data := {| channel := channel (data m);
                          totalProcessed := 0;
                          lastBatchIndex := -1;
                          lastProcessedTime := now;
                          batchSize := batchSize (data m);
                          errors := [] |} |} in
  (m', saveCheckpoint m' d).

End Checkpoint.

(** ** Channel names, directories and summaries (dataService.ts) *)

Module DataService.

(** [s.split(sep)] for a separator of one character or more: the text is
    cut at every occurrence of the separator, found left to right without
    overlap.  [skip] counts the characters of the separator still to pass
    and [acc] holds the current piece, reversed. *)
Fixpoint split_on (sep : str) (skip : nat) (s acc : str) : list str :=
  match s with
  | [] => [rev acc]
  | x :: s' =>
      match skip with
      | S skip' => split_on sep skip' s' acc
      | O =>
          if startsWith s sep then rev acc :: split_on sep (length sep - 1) s' []
          else split_on sep 0 s' (x :: acc)
      end
  end.

Definition split_str (s sep : str) : list str := split_on sep 0 s [].

(** [channel.split(marker)[1].split("/")[0]]; reading index 1 of a list
    with a single piece yields [undefined], whose [split] raises. *)
Definition afterMarker (channel marker : str) : js str :=
  match nth_error (split_str channel marker) 1 with
  | Some rest => Ret (hd [] (split_char "/" rest))
  | None => Throw
  end.

Definition extractChannelId (channel : str) : js str :=
  do channelId <-
    (if includes channel "t.me/" then afterMarker channel "t.me/"
     else if includes channel "telegram.me/" then afterMarker channel "telegram.me/"
     else Ret channel);
  Ret (if startsWith channelId "@" then skipn 1 channelId else channelId).

(** The characters [sanitizeFilename] keeps: [[a-zA-Z0-9_-]]. *)
Definition filenameClass : list citem :=
  [CRange "a" "z"; CRange "A" "Z"; CRange "0" "9"; CChar "_"; CChar "-"].

Definition is_filename_char (c : ascii) : bool := class_has false filenameClass c.

(** [filename.replace(/[^a-zA-Z0-9_-]/g, "_")]: every match is a single
    character. *)
Definition sanitizeFilename (filename : str) : str :=
  map (fun c => if is_filename_char c then c else "_"%char) filename.

(** [path.join("./data", name)] for a name without separator or dot: the
    leading [./] is normalized away and an empty name adds nothing. *)
Definition joinData (name : str) : str :=
  match name with
  | [] => "data"
  | _ :: _ => "data/" ++ name
  end.

Definition getChannelDirectory (channelId : str) : js str :=
  do id <- extractChannelId channelId;
  Ret (joinData (sanitizeFilename id)).

(** *** saveInvestmentData: the records grouped by company

    [investmentsByCompany] starts as the empty object literal, so a read
    under a name of [Object.prototype] finds the inherited value: it is
    truthy, the list is not created, and the call of its [push] raises. *)
Definition inheritedNames : list str :=
  [ "constructor" : str; "__defineGetter__" : str; "__defineSetter__" : str;
    "hasOwnProperty" : str; "__lookupGetter__" : str; "__lookupSetter__" : str;
    "isPrototypeOf" : str; "propertyIsEnumerable" : str; "toString" : str;
    "valueOf" : str; "__proto__" : str; "toLocaleString" : str ].

Abbreviation byCompany := (gmap str (list Parser.InvestmentData)).

(** The body of [companyNames.forEach]. *)
Definition addUnder (investment : Parser.InvestmentData) (acc : byCompany) (company : str)
    : js byCompany :=
  match company with
  | [] => Ret acc
  | _ :: _ =>
      match acc !! company with
      | Some listed => Ret (<[company := listed ++ [investment]]> acc)
      | None =>
          if arr_includes inheritedNames company then Throw
          else Ret (<[company := [investment]]> acc)
      end
  end.

Fixpoint addUnderEach (investment : Parser.InvestmentData) (acc : byCompany)
    (companyNames : list str) : js byCompany :=
  match companyNames with
  | [] => Ret acc
  | company :: rest =>
      do acc' <- addUnder investment acc company;
      addUnderEach investment acc' rest
  end.

(** [Array.isArray(investment.company) ? investment.company : [investment.company]],
    after the guard [if (!investment.company) return], which an empty
    string trips and a list never does. *)
Definition companyNames (investment : Parser.InvestmentData) : list str :=
  match Parser.company investment with
  | Parser.One [] => []
  | Parser.One c => [c]
  | Parser.Many l => l
  end.

Fixpoint groupByCompany (investments : list Parser.InvestmentData) (acc : byCompany)
    : js byCompany :=
  match investments with
  | [] => Ret acc
  | investment :: rest =>
      do acc' <- addUnderEach investment acc (companyNames investment);
      groupByCompany rest acc'
  end.

Definition investmentsByCompany (investments : list Parser.InvestmentData) : js byCompany :=
  groupByCompany investments ∅.

End DataService.

(** ** Bulk processing in batches (processBulkMessages.ts)

    Delays are milliseconds, taken as exact rationals. *)

Module Bulk.

Definition BATCH_SIZE : nat := 25.
Definition DELAY_BETWEEN_BATCHES : Q := 5000.
Definition MAX_RETRIES_PER_BATCH : nat := 3.
Definition PROGRESSIVE_BACKOFF : Q := 1.5.

(** [for (let i = 0; i < messages.length; i += BATCH_SIZE)
       batches.push(messages.slice(i, i + BATCH_SIZE))] *)
Fixpoint splitBatches (fuel i : nat) (messages : list TelegramMessage)
    : list (list TelegramMessage) :=
  match fuel with
  | O => []
  | S fuel' =>
      if Nat.ltb i (length messages) then
        GenAI.slice i (i + BATCH_SIZE) messages :: splitBatches fuel' (i + BATCH_SIZE) messages
      else []
  end.

Definition batchesOf (messages : list TelegramMessage) : list (list TelegramMessage) :=
  splitBatches (S (length messages)) 0 messages.

(** The state of the run: the delay in force, the messages counted as
    processed, the attempts made so far, each by the index of its batch,
    and the waits slept, both oldest first. *)
Record progress : Type := {
  currentDelay : Q;
  processedCount : nat;
  attempted : list nat;
  sleeps : list Q
}.

Definition attempts (p : progress) : nat := length (attempted p).

Definition start : progress :=
  {| currentDelay := DELAY_BETWEEN_BATCHES; processedCount := 0; attempted := []; sleeps := [] |}.

Section Run.

(** The outcome of the n-th attempt on a batch: whether the extraction and
    the write of its result went through. *)
Variable attempt : nat -> list TelegramMessage -> bool.

(** The [while (!success && retryCount < MAX_RETRIES_PER_BATCH)] loop on
    batch [i], one iteration per unit of fuel. *)
Fixpoint tryBatch (fuel retryCount i : nat) (batch : list TelegramMessage) (p : progress)
    : progress :=
  match fuel with
  | O => p
  | S fuel' =>
      if Nat.ltb retryCount MAX_RETRIES_PER_BATCH then
        if attempt (attempts p) batch then
          {| currentDelay :=
               Qmax DELAY_BETWEEN_BATCHES (currentDelay p / PROGRESSIVE_BACKOFF);
             processedCount := processedCount p + length batch;
             attempted := attempted p ++ [i];
             sleeps := sleeps p |}
        else
          let retryCount := S retryCount in
          let delay := (currentDelay p * PROGRESSIVE_BACKOFF)%Q in
          tryBatch fuel' retryCount i batch
            {| currentDelay := delay;
               processedCount := processedCount p;
               attempted := attempted p ++ [i];
               sleeps := if Nat.leb MAX_RETRIES_PER_BATCH retryCount then sleeps p
                         else sleeps p ++ [delay] |}
      else p
  end.

(** The loop over the batches, from batch [i] on; the wait between two
    batches is skipped after the last one. *)
Fixpoint processBatches (i : nat) (batches : list (list TelegramMessage)) (p : progress)
    : progress :=
  match batches with
  | [] => p
  | batch :: rest =>
      let p1 := tryBatch (S MAX_RETRIES_PER_BATCH) 0 i batch p in
      processBatches (S i) rest
        match rest with
        | [] => p1
        | _ :: _ =>
            {| currentDelay := currentDelay p1;
               processedCount := processedCount p1;
               attempted := attempted p1;
               sleeps := sleeps p1 ++ [currentDelay p1] |}
        end
  end.

(** [processBulkMessages(channel, totalLimit)].  [prelude] stands for what
    the function does before its loop, inside the same [try]: it makes the
    channel directory, fetches the messages with [fetchTelegramMessages],
    writes them with [saveMessagesToFile] and makes the results directory.
    It yields the messages fetched, or it raises (the file system refuses a
    write, or the grouping by company under [saveMessagesToFile] raises);
    the [catch] at the end of the function then ends the run with no batch
    attempted. *)
Definition processBulkMessages (prelude : js (list TelegramMessage)) : progress :=
  match prelude with
  | Ret messages => processBatches 0 (batchesOf messages) start
  | Throw => start
  end.

End Run.

End Bulk.

(** ** Fetching the messages of a channel (telegram.ts)

    The client library is the environment: whether a connection attempt
    goes through, and what a request for messages returns.  The analysis
    that follows the fetch attaches [entities] to the messages, a field the
    engines never read; its failures are caught one message at a time, so
    it is left out. *)

Module Telegram.

Definition MAX_RETRIES : nat := 2.

(** A message of the API, through what the loop reads of it. *)
Record ApiMessage : Type := {
  api_id : Z;            (* message.id *)
  api_date : Z;          (* message.date, in seconds *)
  api_senderId : str;    (* message.senderId?.toString() || "" *)
  api_senderName : str;  (* the user name of the sender, else its first name, else "" *)
  api_message : str      (* message.message, empty when the message carries no text *)
}.

(** What the fetch consumed of its environment and the waits it slept,
    oldest first, in milliseconds. *)
Record network : Type := {
  connections : nat;
  requests : nat;
  slept : list Z
}.

Definition offline : network := {| connections := 0; requests := 0; slept := [] |}.

(** What a request for messages is rejected with, through what the handler
    of the loop reads of it. *)
Inductive rejection : Type :=
| NoValue                              (* [null] or [undefined] *)
| WithMessage (message : option str)   (* any other value; [None]: no message, or a falsy one *)
| OddMessage.                          (* a truthy message that is no text and has no [includes] *)

(** [error.message && error.message.includes('TIMEOUT')]: reading a
    property of [null] or [undefined] raises, and so does the call of a
    method the message does not have.  Both outcomes of the test end the
    loop, so a message of another kind that has an [includes] method is
    taken with the texts. *)
Definition isTimeout (error : rejection) : js bool :=
  match error with
  | NoValue => Throw
  | WithMessage None => Ret false
  | WithMessage (Some message) => Ret (includes message "TIMEOUT")
  | OddMessage => Throw
  end.

(** The outcome of [client.getMessages(...)]. *)
Inductive answer : Type :=
| Answered (result : list ApiMessage)
| Rejected (error : rejection).

Section Client.

(** Whether the n-th connection attempt goes through. *)
Variable connect : nat -> bool.
(** [client.getMessages(channel, {limit, offsetId})]: the outcome of the
    n-th request. *)
Variable getMessages : nat -> nat -> Z -> answer.
(** [new Date(ms).toISOString()], which raises on a date out of range. *)
Variable toISOString : Z -> js str.

(** [createTelegramClient(retryCount)]: a failed attempt is followed by a
    wait of [2000 * 2 ** retryCount] and another attempt, until
    [retryCount] reaches [MAX_RETRIES]; then the error is raised. *)
Fixpoint createTelegramClient (fuel retryCount : nat) (w : network) : bool * network :=
  match fuel with
  | O => (false, w)
  | S fuel' =>
      let w1 := {| connections := S (connections w); requests := requests w;
                   slept := slept w |} in
      if connect (connections w) then (true, w1)
      else if Nat.ltb retryCount MAX_RETRIES then
        createTelegramClient fuel' (S retryCount)
          {| connections := connections w1; requests := requests w1;
             slept := slept w1 ++ [(2000 * 2 ^ Z.of_nat retryCount)%Z] |}
      else (false, w1)
  end.

(** [id.toString()] on an integer. *)
Definition showInt (n : Z) : str := NilZero.string_of_int (Z.to_int n).

(** The object pushed for a message with text. *)
Definition toMessage (message : ApiMessage) : js TelegramMessage :=
  do date <- toISOString (api_date message * 1000);
  Ret {| msg_id := showInt (api_id message);
         msg_date := date;
         senderId := api_senderId message;
         senderName := api_senderName message;
         msg_text := substring 0 300 (api_message message) |}.

(** The loop over the messages of one answer: those with text are
    converted, and the offset follows the smallest identifier seen. *)
Fixpoint readBatch (result : list ApiMessage) (offset : Z)
    (messageBatch : list TelegramMessage) : js (list TelegramMessage * Z) :=
  match result with
  | [] => Ret (messageBatch, offset)
  | message :: rest =>
      match api_message message with
      | [] => readBatch rest offset messageBatch
      | _ :: _ =>
          do converted <- toMessage message;
          readBatch rest
            (if (api_id message <? offset)%Z || (offset =? 0)%Z then api_id message
             else offset)
            (messageBatch ++ [converted])
      end
  end.

Record fetching : Type := {
  messages : list TelegramMessage;
  offset : Z;
  fetchedCount : nat;
  net : network;
  escaped : bool   (* an error left the loop for the [catch] of the function *)
}.

(** The [while (fetchedCount < limit)] loop, one iteration per unit of
    fuel.  An answer that is not a list counts as an empty one.  An error
    raised while the answer is read is an [Error] object of the runtime:
    the handler reads its message and ends the loop, the batch in hand
    being lost.  A rejected request ends the loop too, when the handler can
    read what it was rejected with; when it cannot, the handler itself
    raises and the error leaves the loop. *)
Fixpoint fetchLoop (fuel limit : nat) (st : fetching) : fetching :=
  match fuel with
  | O => st
  | S fuel' =>
      if Nat.ltb (fetchedCount st) limit then
        let batchSize := Nat.min 50 (limit - fetchedCount st) in
        let asked := {| connections := connections (net st);
                        requests := S (requests (net st));
                        slept := slept (net st) |} in
        match getMessages (requests (net st)) batchSize (offset st) with
        | Rejected error =>
            {| messages := messages st; offset := offset st;
               fetchedCount := fetchedCount st; net := asked;
               escaped := match isTimeout error with
                          | Ret _ => escaped st
                          | Throw => true
                          end |}
        | Answered result =>
            match readBatch result (offset st) [] with
            | Throw =>
                {| messages := messages st; offset := offset st;
                   fetchedCount := fetchedCount st; net := asked; escaped := escaped st |}
            | Ret (messageBatch, offset') =>
                let st' := {| messages := messages st ++ messageBatch;
                              offset := offset';
                              fetchedCount := fetchedCount st + length messageBatch;
                              net := asked; escaped := escaped st |} in
                match messageBatch with
                | [] => st'
                | _ :: _ =>
                    fetchLoop fuel' limit
                      {| messages := messages st'; offset := offset st';
                         fetchedCount := fetchedCount st';
                         net := {| connections := connections asked;
                                   requests := requests asked;
                                   slept := slept asked ++ [2000%Z] |};
                         escaped := escaped st' |}
                end
            end
        end
      else st
  end.

(** [fetchTelegramMessages(channel, limit)]: the messages returned and what
    the call consumed.  Every pass of the loop that goes on fetches one
    message at least, so [limit] passes are enough.  After the loop the
    first 100 messages are returned; an error that left the loop is caught
    by the [catch] of the function, which returns all the messages
    collected.  A client that could not be made is caught there as well. *)
Definition fetchTelegramMessages (limit : nat) : list TelegramMessage * network :=
  let '(connected, w) := createTelegramClient (S MAX_RETRIES) 0 offline in
  if connected then
    let st := fetchLoop limit limit
                {| messages := []; offset := 0; fetchedCount := 0; net := w;
                   escaped := false |} in
    if escaped st then (messages st, net st)
    else
      let processedCount := Nat.min (length (messages st)) 100 in
      (firstn processedCount (messages st), net st)
  else ([], w).

End Client.

End Telegram.

(** ** Terms found in a text (nlpService.ts) *)

Module Nlp.

Definition cryptoProtocols : list str :=
  [ "Bitcoin" : str; "BTC" : str; "Ethereum" : str; "ETH" : str; "Solana" : str;
    "SOL" : str; "Cardano" : str; "ADA" : str; "Polkadot" : str; "DOT" : str;
    "Avalanche" : str; "AVAX" : str; "Chainlink" : str; "LINK" : str; "Polygon" : str;
    "MATIC" : str; "Uniswap" : str; "UNI" : str; "Aave" : str; "Compound" : str;
    "MakerDAO" : str; "Curve" : str; "DeFi" : str; "NFT" : str; "SushiSwap" : str;
    "PancakeSwap" : str; "BSC" : str; "Binance Smart Chain" : str; "Layer 2" : str;
    "L2" : str; "Rollup" : str; "ZK-rollup" : str; "Optimistic rollup" : str;
    "Arbitrum" : str; "Optimism" : str ].

Definition cryptoThemes : list str :=
  [ "DeFi" : str; "NFT" : str; "Metaverse" : str; "Web3" : str; "DAO" : str;
    "GameFi" : str; "Play-to-Earn" : str; "P2E" : str; "DEX" : str; "AMM" : str;
    "Lending" : str; "Yield Farming" : str; "Staking" : str; "Layer 1" : str;
    "Layer 2" : str; "L1" : str; "L2" : str; "ZK" : str; "Zero Knowledge" : str;
    "Privacy" : str; "Governance" : str; "Interoperability" : str; "Cross-chain" : str;
    "Oracle" : str; "Stablecoin" : str; "CBDC" : str; "ICO" : str; "IDO" : str;
    "IEO" : str; "INO" : str; "STO" : str; "Tokenization" : str; "Smart Contracts" : str;
    "Fundraising" : str; "Presale" : str; "Seed Round" : str; "Private Sale" : str;
    "Public Sale" : str; "Listing" : str; "LaunchPad" : str; "Whitelist" : str ].

(** [containsTerms(text, termList)]: the terms whose lower-case form occurs
    in the lower-case text, in the order of the list. *)
Definition containsTerms (text : str) (termList : list str) : list str :=
  List.filter (fun term => includes (toLowerCase text) (toLowerCase term)) termList.

End Nlp.

(** ** Investors, rounds and links of an announcement (investmentParser.ts) *)

Module Details.

(** *** cleanInvestorName *)

Record investorEntry : Type := {
  entry_name : str;
  entry_description : option str
}.

Definition descriptionSeparators : list str :=
  [" - " : str; " is " : str; " a " : str; " forms " : str; " builds " : str].

(** The loop over the separators: a separator found before the position
    held so far takes its place. *)
Fixpoint earliestSeparator (separators : list str) (investor : str)
    (separatorIndex : option nat) (separatorType : str) : option nat * str :=
  match separators with
  | [] => (separatorIndex, separatorType)
  | separator :: rest =>
      match indexOf investor separator with
      | Some index =>
          if match separatorIndex with
             | None => true
             | Some held => Nat.ltb index held
             end
          then earliestSeparator rest investor (Some index) separator
          else earliestSeparator rest investor separatorIndex separatorType
      | None => earliestSeparator rest investor separatorIndex separatorType
      end
  end.

Definition cleanInvestorName (investor : str) : investorEntry :=
  let commaIndex := indexOf investor "," in
  let '(separatorIndex, separatorType) :=
    earliestSeparator descriptionSeparators investor commaIndex "comma" in
  match separatorIndex with
  | Some i =>
      {| entry_name := trim (substring 0 i investor);
         entry_description :=
           Some (trim (skipn (i + if str_eqb separatorType "comma" then 1
                                  else length separatorType) investor)) |}
  | None => {| entry_name := trim investor; entry_description := None |}
  end.

(** *** The investors of an announcement *)

(** /Investor[s]?:/ *)
Definition investorsHeading : regex :=
  rseq [rlit "Investor"; ropt (RChar "s"); RChar ":"].

(** /Acquired by:/i *)
Definition acquiredByHeading : regex := rlit "Acquired by:".

(** The bytes the source file holds for the non-ASCII literal that ends a
    section. *)
Definition mojibake_hand : str :=
  map ascii_of_nat [195; 176; 197; 184; 226; 128; 152; 226; 128; 176].

(** /\n\n|.../, the second alternative being the literal above. *)
Definition sectionEnd : regex := RAlt (rlit [newline; newline]) (rlit mojibake_hand).

(** /,|\sand\s|\n/ *)
Definition investorSeparator : regex :=
  RAlt (RChar ",") (RAlt (rseq [rspace; rlit "and"; rspace]) (RChar newline)).

(** [s.replace(/\(Lead\)/g, '')] and the like for a literal pattern: every
    occurrence is dropped, scanning left to right; [skip] counts the
    characters of the occurrence in hand that are still to be dropped. *)
Fixpoint removeAll (p : str) (skip : nat) (s : str) : str :=
  match s with
  | [] => []
  | c :: s' =>
      match skip with
      | S k => removeAll p k s'
      | O => if startsWith s p then removeAll p (length p - 1) s'
             else c :: removeAll p 0 s'
      end
  end.

(** [text.split(heading)[1]?.split(/\n\n|.../)[0]] *)
Definition sectionAfter (ci : bool) (heading : regex) (text : str) : option str :=
  match nth_error (split_re ci heading text) 1 with
  | Some after => hd_error (split_re false sectionEnd after)
  | None => None
  end.

(** The pieces of the section between commas, the word [and] and line
    breaks, without their [(Lead)] marks, trimmed; a piece of one character
    or none is dropped. *)
Definition rawInvestors (investorSection : str) : list str :=
  List.filter (fun i => Nat.ltb 1 (length i))
    (map (fun i => trim (removeAll "(Lead)" 0 i))
       (split_re false investorSeparator investorSection)).

(** [investorEntries] as [parseInvestmentData] computes it: from the
    section after the investors heading when the text has one, else, for
    an acquisition, from the section after [Acquired by:]. *)
Definition investorEntries (text : str) (isAcquisition : bool) : list investorEntry :=
  if includes text "Investor:" || includes text "Investors:" then
    match sectionAfter false investorsHeading text with
    | Some ((_ :: _) as investorSection) =>
        map cleanInvestorName (rawInvestors investorSection)
    | _ => []
    end
  else if isAcquisition then
    match sectionAfter true acquiredByHeading text with
    | Some ((_ :: _) as acquiredBySection) => [cleanInvestorName (trim acquiredBySection)]
    | _ => []
    end
  else [].

(** The [investors] field of the record. *)
Definition investors (text : str) (isAcquisition : bool) : list str :=
  map entry_name (investorEntries text isAcquisition).

(** *** extractRoundType *)

(** The phrases looked for in the first line, in the order of the source,
    each with the round it stands for. *)
Definition firstLineRounds : list (str * str) :=
  [ ("Angel Round" : str, "Angel Round" : str);
    ("Pre-Seed Round" : str, "Pre-Seed" : str);
    ("Seed Round" : str, "Seed" : str);
    ("Series A Round" : str, "Series A" : str);
    ("Series B Round" : str, "Series B" : str);
    ("Series C Round" : str, "Series C" : str);
    ("Strategic Round" : str, "Strategic" : str);
    ("Funding Round" : str, "Funding" : str);
    ("Pre-Series A Round" : str, "Pre-Series A" : str);
    ("Private Round" : str, "Private Round" : str);
    ("Private Token Sale" : str, "Token Sale" : str);
    ("Token Sale" : str, "Token Sale" : str) ].

(** [a\s+b] and [a\s+b\s+c] *)
Definition spaced (ws : list str) : regex :=
  rseq (match ws with
        | [] => []
        | w :: ws' => rlit w :: flat_map (fun v => [rspaces1; rlit v]) ws'
        end).

(** [roundTypeMatches]: the patterns tried on the whole text, all with the
    [i] flag. *)
Definition roundTypeMatches : list (regex * str) :=
  [ (spaced ["Pre-Seed" : str; "Round" : str], "Pre-Seed" : str);
    (spaced ["Seed" : str; "Round" : str], "Seed" : str);
    (spaced ["Series" : str; "A" : str; "Round" : str], "Series A" : str);
    (spaced ["Series" : str; "B" : str; "Round" : str], "Series B" : str);
    (spaced ["Series" : str; "C" : str; "Round" : str], "Series C" : str);
    (spaced ["Strategic" : str; "Round" : str], "Strategic" : str);
    (spaced ["Funding" : str; "Round" : str], "Funding" : str);
    (spaced ["Extended" : str; "Series" : str; "A" : str], "Series A" : str);
    (spaced ["Pre-Series" : str; "A" : str], "Pre-Series A" : str);
    (spaced ["Angel" : str; "Round" : str], "Angel Round" : str);
    (spaced ["Private" : str; "Round" : str], "Private Round" : str);
    (spaced ["Private" : str; "Sale" : str], "Private Sale" : str);
    (spaced ["Token" : str; "Sale" : str], "Token Sale" : str);
    (spaced ["Series" : str; "A" : str], "Series A" : str);
    (spaced ["Series" : str; "B" : str], "Series B" : str);
    (spaced ["Series" : str; "C" : str], "Series C" : str) ].

(** The first phrase the line holds. *)
Fixpoint firstPhrase (phrases : list (str * str)) (firstLine : str) : option str :=
  match phrases with
  | [] => None
  | (phrase, value) :: rest =>
      if includes firstLine phrase then Some value else firstPhrase rest firstLine
  end.

(** The first pattern the text matches. *)
Fixpoint firstPattern (matches : list (regex * str)) (text : str) : option str :=
  match matches with
  | [] => None
  | (pattern, value) :: rest =>
      if test true pattern text then Some value else firstPattern rest text
  end.

Definition extractRoundType (text : str) : option str :=
  match firstPhrase firstLineRounds (Parser.firstLineOf text) with
  | Some value => Some value
  | None => firstPattern roundTypeMatches text
  end.

(** *** extractLinks *)

(** [r{0,n}], greedy. *)
Fixpoint rupto (n : nat) (r : regex) : regex :=
  match n with
  | O => REps
  | S n' => ropt (RSeq r (rupto n' r))
  end.

(** [(?:a|b|...)] for a list of alternatives that is not empty. *)
Fixpoint ralt (rs : list regex) : regex :=
  match rs with
  | [] => RSet false []
  | [r] => r
  | r :: rs' => RAlt r (ralt rs')
  end.

Definition alnum : list citem := [CRange "a" "z"; CRange "A" "Z"; CRange "0" "9"].

Definition domainSuffixes : list str :=
  [ "com" : str; "io" : str; "org" : str; "net" : str; "finance" : str; "xyz" : str;
    "app" : str; "dev" : str; "eth" : str; "crypto" : str; "nft" : str; "fund" : str ].

(** The three alternatives of [urlRegex].  Their capturing groups are left
    out: [text.match] with the [g] flag returns the matched texts only.

    [https?:\/\/[^\s]+] *)
Definition schemeLink : regex :=
  rseq [rlit "http"; ropt (RChar "s"); rlit "://"; rplus Parser.not_space].

(** [www\.[^\s]+], the second alternative after its [\b] *)
Definition wwwLink : regex := rseq [rlit "www."; rplus Parser.not_space].

(** [[a-zA-Z0-9][-a-zA-Z0-9]{0,62}\.(?:com|io|...|fund)[^\s)*,;:!]?] *)
Definition domainLink : regex :=
  rseq [RSet false alnum; rupto 62 (RSet false (CChar "-" :: alnum)); RChar ".";
        ralt (map rlit domainSuffixes);
        ropt (RSet true [CSpace; CChar ")"; CChar "*"; CChar ","; CChar ";"; CChar ":";
                         CChar "!"])].

(** [urlRegex] at a position, given the character before it.  The word
    boundary stands in front of the letter [w], a word character, so it
    holds exactly when the text starts here or the character before is not
    a word character; elsewhere the second alternative cannot match. *)
Definition urlRegexAt (prev : option ascii) : regex :=
  match prev with
  | Some c => if is_word c then RAlt schemeLink domainLink
              else RAlt schemeLink (RAlt wwwLink domainLink)
  | None => RAlt schemeLink (RAlt wwwLink domainLink)
  end.

(** The leftmost match of [urlRegex] at or after the current position. *)
Fixpoint searchLink (prev : option ascii) (i : nat) (s : str) : option rmatch_result :=
  match rmatch true (urlRegexAt prev) i s [] (fun i' _ c => Some (i', c)) with
  | Some (e, c) =>
      Some {| m_index := i; m_end := e; m_text := firstn (e - i) s; m_caps := c |}
  | None =>
      match s with
      | [] => None
      | x :: s' => searchLink (Some x) (S i) s'
      end
  end.

(** [text.match(urlRegex)]: every match, each search resuming where the
    match before it ended.  Every alternative takes one character at
    least, so the position moves on. *)
Fixpoint matchLinks (fuel : nat) (prev : option ascii) (i : nat) (s : str) : list str :=
  match fuel with
  | O => []
  | S fuel' =>
      match searchLink prev i s with
      | None => []
      | Some m =>
          m_text m
          :: matchLinks fuel' (nth_error s (m_end m - i - 1)) (m_end m)
               (skipn (m_end m - i) s)
      end
  end.

(** /^\d+(\.\d+)?M?B?$/ *)
Definition plainAmount : regex :=
  rseq [RBol; rplus rdigit; ropt (RSeq (RChar ".") (rplus rdigit)); ropt (RChar "M");
        ropt (RChar "B"); REol].

Definition notUrls : list str := ["T-Rex" : str; "others." : str; "etc." : str; "e.g." : str].

Definition keepUrl (url : str) : bool :=
  if test false plainAmount url then false
  else if arr_includes notUrls url then false
  else includes url "." && negb (includes url "@").

Definition withScheme (url : str) : str :=
  if negb (startsWith url "http") then "https://" ++ url else url.

Definition extractLinks (text : str) : list str :=
  map withScheme (List.filter keepUrl (matchLinks (S (length text)) None 0 text)).

(** *** cleanLinks *)

(** /^[\d\.]+M?B?$/ *)
Definition numericOnly : regex :=
  rseq [RBol; rnumber; ropt (RChar "M"); ropt (RChar "B"); REol].

Definition knownCompanies : list str := ["Turtle.Club" : str; "Boop.fun" : str; "T-Rex" : str].

Definition validLink (link : str) : bool :=
  if test false numericOnly link then false
  else if arr_includes knownCompanies link then false
  else startsWith link "http" || includes link ".io" || includes link ".com"
       || includes link ".org".

(** [uniqueLinks.add(link)]: a set keeps the order of first insertion. *)
Definition addLink (uniqueLinks : list str) (link : str) : list str :=
  let link := withScheme link in
  if arr_includes uniqueLinks link then uniqueLinks else uniqueLinks ++ [link].

Definition cleanLinks (links : list str) : list str :=
  fold_left addLink (List.filter validLink links) [].

End Details.

(** ** The vocabulary of the properties *)

(** No currency symbol in the text. *)
Definition no_dollar (s : str) : bool := negb (existsb (Ascii.eqb dollar) s).


(** A non-empty run of digits and dots: what [[\d\.]+] matches. *)
Definition is_number_char (x : ascii) : bool := is_digit x || Ascii.eqb x ".".
Definition is_numeric (s : str) : bool :=
  negb (Nat.eqb (length s) 0) && forallb is_number_char s.

(** /^[0-9]+(\.[0-9]+)?[MB]$/, the format the specification gives a scalar
    amount. *)
Definition amountFormat : regex :=
  rseq [RBol; rplus (RSet false [CRange "0" "9"]);
        ropt (RSeq (RChar ".") (rplus (RSet false [CRange "0" "9"])));
        RSet false [CChar "M"; CChar "B"]; REol].

Definition wellFormedAmount (a : str) : bool :=
  test false amountFormat a || str_eqb a "Undisclosed".

(** The amounts of a record of the deterministic engine. *)
Definition amountsOf (r : Parser.InvestmentData) : list str :=
  match Parser.amount r with
  | Some (Parser.One a) => [a]
  | Some (Parser.Many l) => l
  | None => []
  end.

Definition nestedAmountsOf (r : Parser.InvestmentData) : list str :=
  match Parser.acquisitions r with
  | Some l =>
      flat_map (fun a => match Parser.acq_amount a with Some x => [x] | None => [] end) l
  | None => []
  end.






(** A non-empty company, in either engine. *)
Definition nonEmptyCompany (r : Parser.InvestmentData) : bool :=
  match Parser.company r with
  | Parser.One s => Nat.ltb 0 (length s)
  | Parser.Many l => Nat.ltb 0 (length l)
  end.

Definition nonEmptyCompanyAI (r : GenAI.InvestmentData) : bool :=
  match GenAI.company r with
  | GenAI.JStr s => Nat.ltb 0 (length s)
  | GenAI.JArr l => Nat.ltb 0 (length l)
  | _ => false
  end.

(** A message with the given text. *)
Definition messageOf (t : str) : TelegramMessage :=
  {| msg_id := "1"; msg_date := "2025-05-01T10:00:00.000Z"; senderId := "100";
     senderName := "channel"; msg_text := t |}.

(** The shapes a scalar amount of the deterministic engine takes: the
    literal [Undisclosed]; a run of digits and dots with its unit letter;
    a thousandth of such a run, as the host prints it, in millions. *)
Definition amountShape (thousandth_toFixed2 : str -> str) (a : str) : Prop :=
  a = "Undisclosed"
  \/ (exists d u, a = d ++ u /\ is_numeric d = true /\ (u = "M" \/ u = "B"))
  \/ (exists d, a = thousandth_toFixed2 d ++ "M" /\ is_numeric d = true).

(** The shape of a valuation of the deterministic engine: the currency
    symbol, a run of digits and dots, the letter [M]. *)
Definition valuationShape (v : str) : Prop :=
  exists d, v = "$" ++ d ++ "M" /\ is_numeric d = true.

(** ** Notions used in the proofs *)

(** What a successful run of the matcher establishes: the text splits into
    the part matched and the rest handed to the continuation; the part
    matched has the shape of the pattern; the captures added are sound and
    cover every group the pattern must go through. *)
Definition sound_run {R : Type} (ci : bool) (r : regex) (i : nat) (s : str) (c : caps)
    (k : nat -> str -> caps -> option R) (res : R) : Prop :=
  exists w s' c',
    s = w ++ s' /\ lang ci r w /\ k (length w + i) s' (c' ++ c) = Some res
    /\ Forall (cap_from ci r) c'
    /\ (forall g, binds r g = true -> cap_lookup g c' <> None).

(** A match found by [search] (so by [exec], [test], [replace_re]). *)
Definition sound_match (ci : bool) (r : regex) (m : rmatch_result) : Prop :=
  lang ci r (m_text m)
  /\ Forall (cap_from ci r) (m_caps m)
  /\ (forall g, binds r g = true -> group g m <> None).

(** The two lists of a roundup grow together, and no amount holds a
    currency symbol. *)
Definition paired (acc : list str * list str) : Prop :=
  length (fst acc) = length (snd acc) /\ forallb no_dollar (snd acc) = true.

Definition clean_item (a : Parser.acquisition_item) : bool :=
  match Parser.acq_amount a with
  | Some x => no_dollar x
  | None => true
  end.

(** What a record of a single announcement looks like. *)
Definition single_record (fmt : str -> str) (r : Parser.InvestmentData) : Prop :=
  (Parser.type r = Parser.investment \/ Parser.type r = Parser.acquisition)
  /\ (exists c a, Parser.company r = Parser.One c /\ c <> []
                  /\ Parser.amount r = Some (Parser.One a) /\ amountShape fmt a)
  /\ (forall v, Parser.valuation r = Some v -> valuationShape v)
  /\ Parser.acquisitions r = None.

(** The value a property read yields when it does not raise. *)
Definition field (data : GenAI.JValue) (key : str) : GenAI.JValue :=
  match data with
  | GenAI.JObj fields => GenAI.assoc key fields
  | _ => GenAI.JUndefined
  end.




(** What a finished run of the retry loop looks like: [n] retryable
    failures, each followed by a wait, then the attempt that ends the run. *)
Definition finished {A : Type} (fn : nat -> Retry.outcome A) (random : nat -> Q)
    (maxRetries : Z) (maxDelay : Q) (w : Retry.world) (retries : Z) (delay : Q)
    (slept : list Q) (r : Retry.run A) : Prop :=
  exists n : nat,
    (forall j, (j < n)%nat ->
               exists e, fn (Retry.calls w + j) = Retry.Rejected e
                         /\ Retry.isRetryable e = true)
    /\ (n = 0%nat \/ (retries + Z.of_nat n <= maxRetries)%Z)
    /\ Retry.result r = fn (Retry.calls w + n)
    /\ match Retry.result r with
       | Retry.Resolved _ => True
       | Retry.Rejected e =>
           Retry.isRetryable e = false \/ (maxRetries <= retries + Z.of_nat n)%Z
       end
    /\ Retry.waits r = slept ++ Retry.delays random maxDelay delay (Retry.draws w) n
    /\ Retry.calls (Retry.after r) = (Retry.calls w + n + 1)%nat
    /\ Retry.draws (Retry.after r) = (Retry.draws w + n)%nat.

(** ** Sample inputs *)

(** A stand-in for the host's number printing, for running examples that
    do not go through a thousands amount. *)
Definition sample_format : str -> str := fun _ => "0.00".

Definition quote : ascii := ascii_of_nat 34.

(** An announcement with a valuation line. *)
Definition valuation_announcement : str :=
  "Acme $5M Seed Round" ++ [newline] ++ "Valuation: $50M".

(** An announcement whose amount has two dots. *)
Definition dotted_announcement : str :=
  "Foo.io raises $1.2.3M in Funding" ++ [newline] ++ "About:" ++ [newline]
  ++ "Foo.io is a protocol".

(** An announcement with none of [Round], [acquired], [Funding] or the
    currency symbol. *)
Definition raised_announcement : str := "Acme raised 5 million from investors".

Definition roundup_headline : str := "Top 5 Rounds of This Week".

(** A roundup with two line items. *)
Definition roundup_digest : str :=
  roundup_headline ++ [newline] ++ "Acme - $10M" ++ [newline] ++ "Beta Labs $2.5M".

(** A JSON text whose object has the companies Acme and Beta under
    company and the single amount $10M under amount, and that object. *)
Definition roundup_json : str :=
  "{" ++ [quote] ++ "company" ++ [quote] ++ ":[" ++ [quote] ++ "Acme" ++ [quote] ++ ","
  ++ [quote] ++ "Beta" ++ [quote] ++ "]," ++ [quote] ++ "amount" ++ [quote] ++ ":["
  ++ [quote] ++ "$10M" ++ [quote] ++ "]}".

Definition roundup_object : GenAI.JValue :=
  GenAI.JObj [("company" : str, GenAI.JArr [GenAI.JStr "Acme"; GenAI.JStr "Beta"]);
              ("amount" : str, GenAI.JArr [GenAI.JStr "$10M"])].

(** A JSON text whose object has the company Foo and the amount
    10 million, in words, and that object. *)
Definition wordy_json : str :=
  "{" ++ [quote] ++ "company" ++ [quote] ++ ":" ++ [quote] ++ "Foo" ++ [quote] ++ ","
  ++ [quote] ++ "amount" ++ [quote] ++ ":" ++ [quote] ++ "10 million" ++ [quote] ++ "}".

Definition wordy_object : GenAI.JValue :=
  GenAI.JObj [("company" : str, GenAI.JStr "Foo"); ("amount" : str, GenAI.JStr "10 million")].

(** A JSON text whose object has the company Foo and nothing else, and
    that object. *)
Definition foo_json : str :=
  "{" ++ [quote] ++ "company" ++ [quote] ++ ":" ++ [quote] ++ "Foo" ++ [quote] ++ "}".

Definition foo_object : GenAI.JValue := GenAI.JObj [("company" : str, GenAI.JStr "Foo")].




(** [JSON.parse] on the sample texts; every other text used below is not
    JSON. *)
Definition sample_parse (s : str) : option GenAI.JValue :=
  if str_eqb s roundup_json then Some roundup_object
  else if str_eqb s wordy_json then Some wordy_object
  else if str_eqb s foo_json then Some foo_object
  else None.

(** The prompt [extractInvestmentWithGemini] builds for a message, and its
    call of the generation service through [retry] with the default
    settings. *)
Definition promptOf (message : TelegramMessage) : GenAI.prompt :=
  if test true GenAI.roundupHint (msg_text message)
  then GenAI.buildRoundupPrompt (msg_text message)
  else GenAI.buildInvestmentPrompt (msg_text message).

Definition serviceCall (callGeminiAPI : nat -> GenAI.prompt -> Retry.outcome str)
    (random : nat -> Q) (message : TelegramMessage) (w : Retry.world) : Retry.run str :=
  Retry.retry (fun n => callGeminiAPI n (promptOf message)) random Retry.default_maxRetries
    Retry.default_maxDelay Retry.default_initialDelay w.

(** A generation service that answers every prompt with the same text. *)
Definition answering (response : str) : nat -> GenAI.prompt -> Retry.outcome str :=
  fun _ _ => Retry.Resolved response.

Definition no_jitter : nat -> Q := fun _ => 0.5%Q.

Definition fresh_world : Retry.world := {| Retry.calls := 0; Retry.draws := 0 |}.

(** An operation that fails twice with a retryable error, then succeeds. *)
Definition flaky : nat -> Retry.outcome nat :=
  fun n =>
    if Nat.ltb n 2 then Retry.Rejected {| Retry.message := Some ("503 Service Unavailable" : str) |}
    else Retry.Resolved 7%nat.

(** ** Vocabulary and samples for the rest of the pipeline *)

(** No path separator in the text. *)
Definition no_slash (s : str) : bool := negb (existsb (Ascii.eqb "/"%char) s).

(** The mentions of a list of records: each company name a record carries,
    with the record, in order. *)
Definition mentions (investments : list Parser.InvestmentData)
    : list (str * Parser.InvestmentData) :=
  flat_map (fun r => map (fun c => (c, r)) (DataService.companyNames r)) investments.

(** The records that mention a company, once per mention, in order. *)
Definition recordsNaming (c : str) (investments : list Parser.InvestmentData)
    : list Parser.InvestmentData :=
  map snd (List.filter (fun p => str_eqb c (fst p)) (mentions investments)).

(** A message whose first word is a name every object inherits. *)
Definition inherited_announcement : str := "constructor closes a Seed Round".

(** The loop over the records, as one loop over their mentions. *)
Fixpoint addMentions (ps : list (str * Parser.InvestmentData)) (acc : DataService.byCompany)
    : js DataService.byCompany :=
  match ps with
  | [] => Ret acc
  | (c, r) :: ps' => do acc' <- DataService.addUnder r acc c; addMentions ps' acc'
  end.

(** A group, once created, is never empty. *)
Definition populated (acc : DataService.byCompany) : Prop := forall c, acc !! c <> Some [].

(** No group stands under an inherited name. *)
Definition ownNames (acc : DataService.byCompany) : Prop :=
  forall c, arr_includes DataService.inheritedNames c = true -> acc !! c = None.

Definition nonEmptyList (l : list Parser.InvestmentData)
    : option (list Parser.InvestmentData) :=
  match l with
  | [] => None
  | _ :: _ => Some l
  end.

(** The delay in force and every wait slept are at least the base delay
    between batches. *)
Definition unhurried (p : Bulk.progress) : Prop :=
  (Bulk.DELAY_BETWEEN_BATCHES <= Bulk.currentDelay p)%Q
  /\ Forall (fun d => (Bulk.DELAY_BETWEEN_BATCHES <= d)%Q) (Bulk.sleeps p).

(** The attempts of a run in which batch [i] takes the first number of
    attempts of the list, batch [i + 1] the second, and so on. *)
Fixpoint attemptLog (i : nat) (counts : list nat) : list nat :=
  match counts with
  | [] => []
  | n :: counts' => repeat i n ++ attemptLog (S i) counts'
  end.

(** An environment in which every attempt goes through. *)
Definition always_through : nat -> list TelegramMessage -> bool := fun _ _ => true.

(** Sixty messages, numbered by their text. *)
Definition sixty_messages : list TelegramMessage :=
  map (fun n => messageOf (repeat "x"%char n)) (seq 0 60).

(** A text as [fetchTelegramMessages] keeps it: not empty, and cut at 300
    characters. *)
Definition keptText (m : TelegramMessage) : Prop := 1 <= length (msg_text m) <= 300.

(** The state of the fetch loop is coherent: the count is the number of
    messages held, and each has a kept text. *)
Definition coherent (st : Telegram.fetching) : Prop :=
  Telegram.fetchedCount st = length (Telegram.messages st)
  /\ Forall keptText (Telegram.messages st).

(** The API returns no more messages than it is asked for. *)
Definition honoursLimit (getMessages : nat -> nat -> Z -> Telegram.answer) : Prop :=
  forall n limit offsetId result,
    getMessages n limit offsetId = Telegram.Answered result -> length result <= limit.

(** Whatever a request is rejected with, the handler of the loop can read
    it: an object whose message, when it has one, is a text. *)
Definition readable (getMessages : nat -> nat -> Z -> Telegram.answer) : Prop :=
  forall n limit offsetId error,
    getMessages n limit offsetId = Telegram.Rejected error ->
    Telegram.isTimeout error <> Throw.

(** A date printer that accepts every date. *)
Definition sample_date : Z -> js str := fun _ => Ret ("2025-05-01T10:00:00.000Z" : str).

(** An API message with the given identifier and text. *)
Definition apiMessage (id : Z) (text : str) : Telegram.ApiMessage :=
  {| Telegram.api_id := id; Telegram.api_date := 1746093600;
     Telegram.api_senderId := "100"; Telegram.api_senderName := "channel";
     Telegram.api_message := text |}.

(** A channel of 120 messages numbered 120 down to 1, served newest first
    from below the offset (from the top when the offset is 0), and never
    more than asked for. *)
Definition sample_channel : nat -> nat -> Z -> Telegram.answer :=
  fun _ limit offsetId =>
    let top := if (offsetId =? 0)%Z then 120 else Z.to_nat offsetId - 1 in
    Telegram.Answered (map (fun k => apiMessage (Z.of_nat (top - k)) "news")
                         (seq 0 (Nat.min limit top))).

(** The same channel, whose requests are rejected from the [k]-th on with
    the given value. *)
Definition failing_channel (k : nat) (error : Telegram.rejection)
    : nat -> nat -> Z -> Telegram.answer :=
  fun n limit offsetId =>
    if Nat.leb k n then Telegram.Rejected error else sample_channel n limit offsetId.

Definition always_connected : nat -> bool := fun _ => true.



(** The calls that change a checkpoint. *)
Inductive checkpointCall : Type :=
| Update (batchIndex messagesProcessed : Z) (now : str)
| Failure (batchIndex : Z) (error : Checkpoint.thrown) (now : str).

Definition perform (c : checkpointCall)
    (md : Checkpoint.CheckpointManager * Checkpoint.disk)
    : js (Checkpoint.CheckpointManager * Checkpoint.disk) :=
  match c with
  | Update k n now => Ret (Checkpoint.updateCheckpoint k n now (fst md) (snd md))
  | Failure k e now => Checkpoint.recordError k e now (fst md) (snd md)
  end.

(** A sequence of calls, oldest first; a call that raises ends it. *)
Fixpoint performAll (cs : list checkpointCall)
    (md : Checkpoint.CheckpointManager * Checkpoint.disk)
    : js (Checkpoint.CheckpointManager * Checkpoint.disk) :=
  match cs with
  | [] => Ret md
  | c :: cs' => do md' <- perform c md; performAll cs' md'
  end.

(** The messages the updates of a sequence report, and the errors its
    failures record. *)
Definition reported (cs : list checkpointCall) : Z :=
  fold_right (fun c total => match c with
                             | Update _ n _ => (n + total)%Z
                             | Failure _ _ _ => total
                             end) 0%Z cs.

Definition recorded (cs : list checkpointCall) : list Checkpoint.error_entry :=
  flat_map (fun c => match c with
                     | Update _ _ _ => []
                     | Failure k e now =>
                         match Checkpoint.toString e with
                         | Ret text =>
                             [{| Checkpoint.batch := k; Checkpoint.message := text;
                                 Checkpoint.time := now |}]
                         | Throw => []
                         end
                     end) cs.

(** The batch of the last update of a sequence, if it has one. *)
Definition lastUpdated (cs : list checkpointCall) (before : Z) : Z :=
  fold_left (fun k c => match c with
                        | Update k' _ _ => k'
                        | Failure _ _ _ => k
                        end) cs before.

(** An error object as the runtime builds them, and a value without a
    [toString] method, such as [null]. *)
Definition printable (text : str) : Checkpoint.thrown := {| Checkpoint.toString := Ret text |}.
Definition nullish : Checkpoint.thrown := {| Checkpoint.toString := Throw |}.

(** A roundup that lists one company twice, with two amounts. *)
Definition repeated_digest : str :=
  roundup_headline ++ [newline] ++ "Acme - $10M" ++ [newline] ++ "Acme - $12M"
  ++ [newline] ++ "Beta Labs $2.5M".

(** The companies of the roundup records of a list. *)
Definition roundupCompanies (rs : list Parser.InvestmentData) : list (list str) :=
  flat_map (fun r => match Parser.company r with
                     | Parser.Many l => [l]
                     | Parser.One _ => []
                     end) rs.

(** The text holds neither a comma nor any of the description
    separators. *)
Definition separatorFree (s : str) : Prop :=
  includes s "," = false
  /\ Forall (fun separator => includes s separator = false) Details.descriptionSeparators.

(** A text within ASCII, where the case folding of this file is that of
    the host. *)
Definition isAscii (s : str) : bool := forallb (fun c => Nat.ltb (code c) 128) s.

(** A name fit for a list of investors: not empty, on one line, and
    without a comma or a description separator. *)
Definition properName (name : str) : Prop :=
  name <> [] /\ ~ In newline name /\ separatorFree name.

Definition funded_announcement : str :=
  "Acme raised $5M" ++ [newline]
  ++ "Investors: Paradigm (Lead), a16z and Coinbase Ventures, x" ++ [newline; newline]
  ++ "Details follow".

(** The rounds [extractRoundType] can name. *)
Definition roundNames : list str :=
  [ "Angel Round" : str; "Pre-Seed" : str; "Seed" : str; "Series A" : str; "Series B" : str;
    "Series C" : str; "Strategic" : str; "Funding" : str; "Pre-Series A" : str;
    "Private Round" : str; "Token Sale" : str; "Private Sale" : str ].

(** An announcement of a round before the first series. *)
Definition early_announcement : str := "Alt DRX $2.7M Pre-Series A Round".

(** An announcement with links of the three kinds and a repeated one. *)
Definition linked_announcement : str :=
  "Acme raises $5M, see https://acme.io/blog and www.acme.io or cryptorank.io/ico/acme, "
  ++ "then https://acme.io/blog again".

(** A list without its repetitions, each element where it first stood. *)
Definition dedupe (l : list str) : list str :=
  fold_left (fun seen x => if arr_includes seen x then seen else seen ++ [x]) l [].

(** The text starts with [http]. *)
Definition hasScheme (link : str) : bool := startsWith link "http".

(* ===================================================================== *)
(** * Part II: properties                                                  *)
(* ===================================================================== *)

(** ** Checkpoint manager *)

Section CheckpointFacts.

Import Checkpoint.

(** Every operation keeps the manager on the file it was opened on. *)
Lemma updateCheckpoint_path (k n : Z) (now : str) (m : CheckpointManager) (d : disk) :
  checkpointPath (fst (updateCheckpoint k n now m d)) = checkpointPath m.
Proof. reflexivity. Qed.

Lemma recordError_path (k : Z) (e : thrown) (now : str) (m : CheckpointManager) (d : disk)
    (md' : CheckpointManager * disk) :
  recordError k e now m d = Ret md' -> checkpointPath (fst md') = checkpointPath m.
Proof.
  unfold recordError. destruct (toString e); [|discriminate]. now intros [= <-].
Qed.

Lemma reset_path (now : str) (m : CheckpointManager) (d : disk) :
  checkpointPath (fst (reset now m d)) = checkpointPath m.
Proof. reflexivity. Qed.

Lemma create_path (channel : str) (size : Z) (now : str) (d : disk) :
  checkpointPath (fst (create channel size now d)) = pathOf channel.
Proof. unfold create. destruct (d !! pathOf channel); reflexivity. Qed.

(** Every mutating call leaves the manager's state on disk. *)
Lemma saveCheckpoint_lookup (m : CheckpointManager) (d : disk) :
  saveCheckpoint m d !! checkpointPath m = Some (data m).
Proof. unfold saveCheckpoint. apply lookup_insert_eq. Qed.

Lemma create_loads (channel : str) (size : Z) (now : str) (d : disk) (stored : CheckpointData) :
  d !! pathOf channel = Some stored ->
  create channel size now d = ({| checkpointPath := pathOf channel; data := stored |}, d).
Proof. intros H. unfold create. rewrite H. reflexivity. Qed.

(** C10, as the code has it: when [error.toString()] yields a text,
    [recordError(batchIndex, error)] appends exactly one entry to the error
    log, the entry with that text, leaves [channel], [totalProcessed],
    [lastBatchIndex], [lastProcessedTime] and [batchSize] as they were, and
    the state it leaves on disk is the state it holds; when
    [error.toString()] raises, the call raises and returns no state, the
    manager and the disk staying as the caller holds them. *)
Theorem recordError_frame (batchIndex : Z) (error : thrown) (now : str)
    (m : CheckpointManager) (d : disk) :
  (forall text,
      toString error = Ret text ->
      exists m' d',
        recordError batchIndex error now m d = Ret (m', d')
        /\ errors (data m')
           = errors (data m) ++ [{| batch := batchIndex; message := text; time := now |}]
        /\ length (errors (data m')) = S (length (errors (data m)))
        /\ checkpointPath m' = checkpointPath m
        /\ channel (data m') = channel (data m)
        /\ totalProcessed (data m') = totalProcessed (data m)
        /\ lastBatchIndex (data m') = lastBatchIndex (data m)
        /\ lastProcessedTime (data m') = lastProcessedTime (data m)
        /\ batchSize (data m') = batchSize (data m)
        /\ d' !! checkpointPath m = Some (data m')
        /\ (forall p, p <> checkpointPath m -> d' !! p = d !! p))
  /\ (toString error = Throw -> recordError batchIndex error now m d = Throw).
Proof.
  unfold recordError. split.
  - intros text ->. cbn [js_bind]. eexists. eexists. split; [reflexivity |].
    cbn [data errors channel totalProcessed lastBatchIndex lastProcessedTime batchSize
         checkpointPath].
    repeat split.
    + rewrite length_app. cbn. lia.
    + apply (saveCheckpoint_lookup {| checkpointPath := checkpointPath m; data := _ |}).
    + intros p Hp. unfold saveCheckpoint. cbn [checkpointPath]. now apply lookup_insert_ne.
  - intros ->. reflexivity.
Qed.

(** C6: after [updateCheckpoint(k, n)] a manager constructed anew for the
    same channel over the same storage resumes at batch [k + 1] with the
    total the first manager held, and writes nothing; without persisted
    state a fresh manager starts at [lastBatchIndex = -1], so at batch 0,
    with nothing processed and an empty error log, and persists that state
    at once. *)
Theorem checkpoint_resume (chan : str) (m : CheckpointManager) (d : disk)
    (k n size : Z) (now now' : str) :
  checkpointPath m = pathOf chan ->
  (let m1 := fst (updateCheckpoint k n now m d) in
   let d1 := snd (updateCheckpoint k n now m d) in
   let m2 := fst (create chan size now' d1) in
   getNextBatchIndex m2 = (k + 1)%Z
   /\ getTotalProcessed m2 = getTotalProcessed m1
   /\ getTotalProcessed m1 = (getTotalProcessed m + n)%Z
   /\ snd (create chan size now' d1) = d1)
  /\ (d !! pathOf chan = None ->
      let m0 := fst (create chan size now d) in
      lastBatchIndex (data m0) = (-1)%Z
      /\ getNextBatchIndex m0 = 0%Z
      /\ getTotalProcessed m0 = 0%Z
      /\ errors (data m0) = []
      /\ snd (create chan size now d) !! pathOf chan = Some (data m0)).
Proof.
  intros Hpath. split.
  - cbn zeta.
    pose proof (saveCheckpoint_lookup (fst (updateCheckpoint k n now m d)) d) as Hsaved.
    rewrite updateCheckpoint_path, Hpath in Hsaved.
    change (saveCheckpoint (fst (updateCheckpoint k n now m d)) d)
      with (snd (updateCheckpoint k n now m d)) in Hsaved.
    rewrite (create_loads _ _ _ _ _ Hsaved).
    repeat split.
  - intros Hnone. cbn zeta. unfold create. rewrite Hnone. cbn [fst snd].
    repeat split.
    apply (saveCheckpoint_lookup {| checkpointPath := pathOf chan; data := _ |}).
Qed.

Definition sample_manager : CheckpointManager :=
  fst (create "fundraising" 25 "2025-01-01T00:00:00.000Z" ∅).

Lemma checkpoint_resume_witness :
  (getNextBatchIndex
     (fst (create "fundraising" 25 "t2"
             (snd (updateCheckpoint 3 25 "t1" sample_manager ∅)))) = 4%Z)
  /\ getNextBatchIndex sample_manager = 0%Z.
Proof.
  pose proof (checkpoint_resume "fundraising" sample_manager ∅ 3 25 25
                "t1" "t2" eq_refl) as [Hresume _].
  pose proof (checkpoint_resume "fundraising" sample_manager ∅ 3 25 25
                "2025-01-01T00:00:00.000Z" "t2" eq_refl) as [_ Hfresh].
  split.
  - exact (proj1 Hresume).
  - exact (proj1 (proj2 (Hfresh eq_refl))).
Defined.

Lemma recordError_frame_witness :
  (exists m' d',
      recordError 3 (printable "Error: 503") "t2" sample_manager ∅ = Ret (m', d')
      /\ errors (data m') = [{| batch := 3; message := "Error: 503"; time := "t2" |}]
      /\ getNextBatchIndex m' = 0%Z
      /\ d' !! checkpointPath sample_manager = Some (data m'))
  /\ recordError 3 nullish "t2" sample_manager ∅ = Throw.
Proof.
  destruct (recordError_frame 3 (printable "Error: 503") "t2" sample_manager ∅)
    as [Hprints _].
  destruct (Hprints "Error: 503" eq_refl)
    as (m' & d' & Hcall & Hlog & _ & _ & _ & _ & Hlast & _ & _ & Hdisk & _).
  split.
  - exists m', d'. split; [exact Hcall |]. split; [exact Hlog |].
    split; [|exact Hdisk]. unfold getNextBatchIndex. now rewrite Hlast.
  - exact (proj2 (recordError_frame 3 nullish "t2" sample_manager ∅) eq_refl).
Defined.

(** C10 as stated fails: an error value without a [toString] method,
    [null] for one, makes the call raise, and no entry is appended. *)
Lemma recordError_raises_on_null :
  recordError 3 nullish "t2" sample_manager ∅ = Throw
  /\ ~ (exists m' d', recordError 3 nullish "t2" sample_manager ∅ = Ret (m', d')).
Proof. split; [reflexivity | intros (m' & d' & H); discriminate H]. Qed.

End CheckpointFacts.

(** ** Token bucket *)

Section TokenBucketFacts.

Import TokenManager.
Open Scope Q_scope.

Lemma refillTokens_capacity (now : Z) (l : TokenRateLimiter) :
  tokensPerMinute (refillTokens now l) = tokensPerMinute l.
Proof. unfold refillTokens. destruct (0 <? _)%Z; reflexivity. Qed.

Lemma refillTokens_upper (now : Z) (l : TokenRateLimiter) :
  tokenBudget l <= tokensPerMinute l ->
  tokenBudget (refillTokens now l) <= tokensPerMinute l.
Proof.
  intros H. unfold refillTokens. destruct (0 <? _)%Z; cbn [tokenBudget]; [|exact H].
  apply Q.le_min_r.
Qed.

Lemma refillTokens_lower (now : Z) (l : TokenRateLimiter) :
  tokenBudget l <= tokensPerMinute l ->
  tokenBudget l <= tokenBudget (refillTokens now l).
Proof.
  intros H. unfold refillTokens.
  destruct (0 <? _)%Z eqn:E; cbn [tokenBudget]; [|apply Qle_refl].
  apply Z.ltb_lt in E. rewrite Zlt_Qlt in E. change (inject_Z 0) with 0 in E.
  apply Q.min_glb; [|exact H]. lra.
Qed.

(** A request above the capacity leaves a negative budget, whatever the
    clock says and however long the caller waited. *)
Lemma consumeTokens_over_capacity (tokens : Q) (now1 now2 : Z) (l : TokenRateLimiter) :
  tokenBudget l <= tokensPerMinute l ->
  tokensPerMinute l < tokens ->
  tokenBudget (consumeTokens tokens now1 now2 l) < 0.
Proof.
  intros Hle Hlt. unfold consumeTokens. cbn [tokenBudget].
  pose proof (refillTokens_upper now1 l Hle) as H1.
  destruct (Qle_bool tokens (tokenBudget (refillTokens now1 l))).
  - lra.
  - pose proof (refillTokens_upper now2 (refillTokens now1 l)) as H2.
    rewrite refillTokens_capacity in H2. specialize (H2 H1). lra.
Qed.











(** C5 (the code departs from the claim): a fresh limiter of capacity 100
    asked for 150 tokens waits the 30000 ms its shortfall of 50 takes to
    regenerate, refills to the capacity, and ends with a budget of -50. *)
Theorem consumeTokens_negative_budget :
  tokenBudget (consumeTokens 150 0 30000 (create 100 0)) == -50
  /\ timeToWait 150 (refillTokens 0 (create 100 0)) = 30000%Z.
Proof. split; reflexivity. Qed.

End TokenBucketFacts.

(** ** The matcher is sound *)

Section MatcherSoundness.

Variable ci : bool.

Lemma cap_from_mono (r r0 : regex) (c : caps) :
  (forall x, In x (groups r0) -> In x (groups r)) ->
  Forall (cap_from ci r0) c -> Forall (cap_from ci r) c.
Proof.
  intros Hsub H. induction H as [|[g w] c [r' [Hin Hl]] _ IH]; constructor; auto.
  exists r'. split; [apply Hsub, Hin | exact Hl].
Qed.

Lemma cap_lookup_app (g : nat) (c1 c2 : caps) :
  cap_lookup g c1 <> None -> cap_lookup g (c1 ++ c2) <> None.
Proof.
  induction c1 as [|[g' w] c1 IH]; cbn; [congruence |].
  destruct (Nat.eqb g g'); [congruence | exact IH].
Qed.

Lemma cap_lookup_app_r (g : nat) (c1 c2 : caps) :
  cap_lookup g c2 <> None -> cap_lookup g (c1 ++ c2) <> None.
Proof.
  intros H. induction c1 as [|[g' w] c1 IH]; cbn; [exact H |].
  destruct (Nat.eqb g g'); [congruence | exact IH].
Qed.

Lemma cap_lookup_In (g : nat) (c : caps) (w : str) :
  cap_lookup g c = Some w -> In (g, w) c.
Proof.
  induction c as [|[g' w'] c IH]; cbn; [congruence |].
  destruct (Nat.eqb g g') eqn:E.
  - intros [= ->]. apply Nat.eqb_eq in E. subst. now left.
  - intros H. right. auto.
Qed.

Lemma star_loop_sound {R : Type} (r : regex)
    (IH : forall i s c (k : nat -> str -> caps -> option R) res,
        rmatch ci r i s c k = Some res -> sound_run ci r i s c k res)
    (k : nat -> str -> caps -> option R) (n : nat) :
  forall i s c res,
    star_loop (rmatch ci r) k n i s c = Some res -> sound_run ci (RStar r) i s c k res.
Proof.
  induction n as [|n IHn]; intros i s c res H; cbn [star_loop] in H.
  - exists [], s, []. repeat split; auto using L_star_nil; try (intros; discriminate).
  - destruct (rmatch ci r i s c _) as [res'|] eqn:E.
    + injection H as ->.
      apply IH in E. destruct E as (w & s' & c' & -> & Hl & Hk & Hc & _).
      destruct (Nat.ltb i (length w + i)); [|discriminate].
      apply IHn in Hk. destruct Hk as (w2 & s2 & c2 & -> & Hl2 & Hk2 & Hc2 & _).
      exists (w ++ w2), s2, (c2 ++ c'). repeat split.
      * now rewrite <- app_assoc.
      * now apply L_star_cons.
      * rewrite length_app, <- app_assoc.
        replace (length w + length w2 + i) with (length w2 + (length w + i)) by lia.
        exact Hk2.
      * apply Forall_app. split; [exact Hc2 |].
        eapply cap_from_mono; [|exact Hc]. auto.
      * intros; discriminate.
    + exists [], s, []. repeat split; auto using L_star_nil; try (intros; discriminate).
Qed.

Lemma rmatch_sound {R : Type} (r : regex) :
  forall i s c (k : nat -> str -> caps -> option R) res,
    rmatch ci r i s c k = Some res -> sound_run ci r i s c k res.
Proof.
  induction r as [|a| |neg items|r1 IH1 r2 IH2|r1 IH1 r2 IH2|r1 IH1|g r1 IH1| |];
    intros i s c k res H; cbn [rmatch] in H.
  - exists [], s, []. repeat split; auto using L_eps; try (intros; discriminate).
  - destruct s as [|x s']; [discriminate |].
    destruct (char_eq ci a x) eqn:E; [|discriminate].
    exists [x], s', []. repeat split; auto using L_char; try (intros; discriminate).
  - destruct s as [|x s']; [discriminate |].
    destruct (is_newline x) eqn:E; [discriminate |].
    exists [x], s', []. repeat split; auto using L_any; try (intros; discriminate).
  - destruct s as [|x s']; [discriminate |].
    destruct (xorb neg (class_has ci items x)) eqn:E; [|discriminate].
    exists [x], s', []. repeat split; auto using L_set; try (intros; discriminate).
  - apply IH1 in H. destruct H as (w1 & s1 & c1 & -> & Hl1 & Hk1 & Hc1 & Hb1).
    apply IH2 in Hk1. destruct Hk1 as (w2 & s2 & c2 & -> & Hl2 & Hk2 & Hc2 & Hb2).
    exists (w1 ++ w2), s2, (c2 ++ c1). repeat split.
    + now rewrite <- app_assoc.
    + now apply L_seq.
    + rewrite length_app, <- app_assoc.
      replace (length w1 + length w2 + i) with (length w2 + (length w1 + i)) by lia.
      exact Hk2.
    + apply Forall_app. split.
      * eapply cap_from_mono; [|exact Hc2]. cbn. intros x Hx. apply in_or_app. now right.
      * eapply cap_from_mono; [|exact Hc1]. cbn. intros x Hx. apply in_or_app. now left.
    + intros g Hg. cbn in Hg. destruct (binds r2 g) eqn:E2.
      * apply cap_lookup_app. now apply Hb2.
      * rewrite orb_false_r in Hg. apply cap_lookup_app_r. now apply Hb1.
  - destruct (rmatch ci r1 i s c k) as [res'|] eqn:E.
    + injection H as ->. apply IH1 in E.
      destruct E as (w & s' & c' & -> & Hl & Hk & Hc & Hb).
      exists w, s', c'. repeat split; auto using L_alt_l.
      * eapply cap_from_mono; [|exact Hc]. cbn. intros x Hx. apply in_or_app. now left.
      * intros g Hg. cbn in Hg. apply andb_true_iff in Hg. now apply Hb.
    + apply IH2 in H. destruct H as (w & s' & c' & -> & Hl & Hk & Hc & Hb).
      exists w, s', c'. repeat split; auto using L_alt_r.
      * eapply cap_from_mono; [|exact Hc]. cbn. intros x Hx. apply in_or_app. now right.
      * intros g Hg. cbn in Hg. apply andb_true_iff in Hg. now apply Hb.
  - exact (star_loop_sound r1 IH1 k _ _ _ _ _ H).
  - apply IH1 in H. destruct H as (w & s' & c' & -> & Hl & Hk & Hc & Hb).
    replace (length w + i - i) with (length w) in Hk by lia.
    rewrite firstn_app, Nat.sub_diag, firstn_all, firstn_O, app_nil_r in Hk.
    exists w, s', ((g, w) :: c'). repeat split; auto using L_group.
    + constructor.
      * exists r1. split; [now left | exact Hl].
      * eapply cap_from_mono; [|exact Hc]. cbn. intros x Hx. now right.
    + intros g0 Hg. cbn in Hg |- *. destruct (Nat.eqb g0 g); [discriminate |].
      now apply Hb.
  - destruct (Nat.eqb i 0); [|discriminate].
    exists [], s, []. repeat split; auto using L_bol; try (intros; discriminate).
  - destruct s; [|discriminate].
    exists [], [], []. repeat split; auto using L_eol; try (intros; discriminate).
Qed.

Lemma search_sound (r : regex) :
  forall s i m, search ci r i s = Some m -> sound_match ci r m.
Proof.
  induction s as [|x s IH]; intros i m H; cbn in H.
  - destruct (rmatch ci r i [] [] _) as [[e c]|] eqn:E; [|discriminate].
    injection H as <-. apply rmatch_sound in E.
    destruct E as (w & s' & c' & Hs & Hl & Hk & Hc & Hb).
    injection Hk as <- <-. rewrite app_nil_r in *.
    replace (length w + i - i) with (length w) by lia.
    rewrite Hs, firstn_app, Nat.sub_diag, firstn_all, firstn_O, app_nil_r.
    repeat split; auto.
  - destruct (rmatch ci r i (x :: s) [] _) as [[e c]|] eqn:E.
    + injection H as <-. apply rmatch_sound in E.
      destruct E as (w & s' & c' & Hs & Hl & Hk & Hc & Hb).
      injection Hk as <- <-. rewrite app_nil_r in *.
      replace (length w + i - i) with (length w) by lia.
      rewrite Hs, firstn_app, Nat.sub_diag, firstn_all, firstn_O, app_nil_r.
      repeat split; auto.
    + eauto.
Qed.

Lemma exec_sound (r : regex) (s : str) (m : rmatch_result) :
  exec ci r s = Some m -> sound_match ci r m.
Proof. apply search_sound. Qed.

(** The text of a group that took part has the shape of one of the bodies
    the pattern gives that group number. *)
Lemma group_sound (r : regex) (m : rmatch_result) (g : nat) (w : str) :
  sound_match ci r m -> group g m = Some w ->
  exists r', In (g, r') (groups r) /\ lang ci r' w.
Proof.
  intros (_ & Hc & _) H. apply cap_lookup_In in H.
  exact (proj1 (List.Forall_forall _ _) Hc _ H).
Qed.

End MatcherSoundness.

(** ** Shapes of matched text *)

Ltac ascii_cases x :=
  destruct x as [b0 b1 b2 b3 b4 b5 b6 b7];
  destruct b0, b1, b2, b3, b4, b5, b6, b7.

Lemma number_class_char (ci : bool) (x : ascii) :
  class_has ci [CDigit; CChar "."] x = true -> is_number_char x = true.
Proof.
  destruct ci; ascii_cases x; vm_compute; intros H; first [reflexivity | discriminate H].
Qed.

Lemma lang_set_inv (ci neg : bool) (items : list citem) (w : str) :
  lang ci (RSet neg items) w ->
  exists x, w = [x] /\ xorb neg (class_has ci items x) = true.
Proof. intros H. inversion H; subst. eauto. Qed.

Lemma lang_star_set (ci neg : bool) (items : list citem) (w : str) :
  lang ci (RStar (RSet neg items)) w ->
  forallb (fun x => xorb neg (class_has ci items x)) w = true.
Proof.
  intros H. remember (RStar (RSet neg items)) as r eqn:Er.
  induction H; try discriminate Er.
  - reflexivity.
  - injection Er as ->.
    apply lang_set_inv in H. destruct H as (x & -> & Hx).
    cbn. rewrite Hx. cbn. apply IHlang2. reflexivity.
Qed.

Lemma lang_plus_set (ci neg : bool) (items : list citem) (w : str) :
  lang ci (rplus (RSet neg items)) w ->
  w <> [] /\ forallb (fun x => xorb neg (class_has ci items x)) w = true.
Proof.
  intros H. unfold rplus in H. inversion H; subst.
  match goal with H1 : lang _ (RSet _ _) _ |- _ => apply lang_set_inv in H1;
    destruct H1 as (x & -> & Hx) end.
  match goal with H2 : lang _ (RStar _) _ |- _ => apply lang_star_set in H2 end.
  split; [discriminate |]. cbn. rewrite Hx. assumption.
Qed.

Lemma lang_rnumber (ci : bool) (w : str) : lang ci rnumber w -> is_numeric w = true.
Proof.
  intros H. apply lang_plus_set in H. destruct H as [Hne Hall].
  unfold is_numeric. destruct w as [|x w]; [congruence |]. cbn [length Nat.eqb negb andb].
  rewrite forallb_forall in Hall |- *. intros y Hy.
  apply (number_class_char ci). exact (Hall y Hy).
Qed.

Lemma no_dollar_app (a b : str) : no_dollar (a ++ b) = no_dollar a && no_dollar b.
Proof. unfold no_dollar. rewrite existsb_app, negb_orb. reflexivity. Qed.

Lemma number_char_not_dollar (x : ascii) :
  is_number_char x = true -> Ascii.eqb dollar x = false.
Proof. ascii_cases x; vm_compute; intros H; first [reflexivity | discriminate H]. Qed.

Lemma number_chars_no_dollar (w : str) :
  forallb is_number_char w = true -> existsb (Ascii.eqb dollar) w = false.
Proof.
  induction w as [|x w IH]; [reflexivity |].
  cbn [forallb existsb]. intros H. apply andb_true_iff in H. destruct H as [Hx Hw].
  rewrite (number_char_not_dollar x Hx), (IH Hw). reflexivity.
Qed.

Lemma numeric_no_dollar (w : str) : is_numeric w = true -> no_dollar w = true.
Proof.
  unfold is_numeric, no_dollar. intros H. apply andb_true_iff in H. destruct H as [_ H].
  rewrite (number_chars_no_dollar w H). reflexivity.
Qed.

(** The unit letter of an amount: [M] or [B] in either case. *)
Lemma lang_unit_letter (w : str) :
  lang true (RAlt (RChar "M") (RChar "B")) w ->
  toUpperCase w = "M" \/ toUpperCase w = "B".
Proof.
  intros H. inversion H; subst;
    match goal with H1 : lang _ (RChar _) _ |- _ => inversion H1; subst end;
    match goal with H2 : char_eq true _ ?x = true |- _ =>
      revert H2; ascii_cases x; vm_compute; intros H2;
      first [discriminate H2 | now left | now right] end.
Qed.

Lemma unit_suffix_cases (line : str) :
  Parser.unit_suffix line = "B" \/ Parser.unit_suffix line = "M".
Proof. unfold Parser.unit_suffix. destruct (includes _ _); auto. Qed.

Lemma unit_suffix_no_dollar (line : str) : no_dollar (Parser.unit_suffix line) = true.
Proof. destruct (unit_suffix_cases line) as [-> | ->]; reflexivity. Qed.

(** ** The fuel of the matcher is enough *)

Section MatcherFuel.

Variable ci : bool.

(** The matcher calls its continuation only further on in the same text. *)
Definition further (i : nat) (s : str) (i' : nat) (s' : str) : Prop :=
  i' + length s' = i + length s /\ i <= i'.

Lemma star_loop_ext {R : Type} (r : regex)
    (IH : forall i s c (k1 k2 : nat -> str -> caps -> option R),
        (forall i' s' c', further i s i' s' -> k1 i' s' c' = k2 i' s' c') ->
        rmatch ci r i s c k1 = rmatch ci r i s c k2)
    (n : nat) :
  forall i s c (k1 k2 : nat -> str -> caps -> option R),
    (forall i' s' c', further i s i' s' -> k1 i' s' c' = k2 i' s' c') ->
    star_loop (rmatch ci r) k1 n i s c = star_loop (rmatch ci r) k2 n i s c.
Proof.
  induction n as [|n IHn]; intros i s c k1 k2 H; cbn [star_loop].
  - apply H. split; lia.
  - rewrite (IH i s c _ (fun i' s' c' =>
        if Nat.ltb i i' then star_loop (rmatch ci r) k2 n i' s' c' else None)).
    + rewrite (H i s c) by (split; lia). reflexivity.
    + intros i' s' c' [Hlen Hle]. destruct (Nat.ltb i i'); [|reflexivity].
      apply IHn. intros i'' s'' c'' [Hlen' Hle']. apply H. split; lia.
Qed.

Lemma rmatch_ext {R : Type} (r : regex) :
  forall i s c (k1 k2 : nat -> str -> caps -> option R),
    (forall i' s' c', further i s i' s' -> k1 i' s' c' = k2 i' s' c') ->
    rmatch ci r i s c k1 = rmatch ci r i s c k2.
Proof.
  induction r as [|a| |neg items|r1 IH1 r2 IH2|r1 IH1 r2 IH2|r1 IH1|g r1 IH1| |];
    intros i s c k1 k2 H; cbn [rmatch].
  - apply H. split; lia.
  - destruct s as [|x s']; [reflexivity |]. destruct (char_eq ci a x); [|reflexivity].
    apply H. split; cbn; lia.
  - destruct s as [|x s']; [reflexivity |]. destruct (is_newline x); [reflexivity |].
    apply H. split; cbn; lia.
  - destruct s as [|x s']; [reflexivity |].
    destruct (xorb neg (class_has ci items x)); [|reflexivity].
    apply H. split; cbn; lia.
  - apply IH1. intros i' s' c' [Hlen Hle]. apply IH2.
    intros i'' s'' c'' [Hlen' Hle']. apply H. split; lia.
  - rewrite (IH1 i s c k1 k2 H), (IH2 i s c k1 k2 H). reflexivity.
  - now apply star_loop_ext.
  - apply IH1. intros i' s' c' Hf. now apply H.
  - destruct (Nat.eqb i 0); [|reflexivity]. apply H. split; lia.
  - destruct s; [|reflexivity]. apply H. split; lia.
Qed.

(** More iterations than the text has characters change nothing: the star
    of the matcher is the unbounded greedy star. *)
Lemma star_loop_fuel {R : Type} (r : regex) (k : nat -> str -> caps -> option R) :
  forall len s, length s = len ->
    forall n1 n2 i c,
      length s < n1 -> length s < n2 ->
      star_loop (rmatch ci r) k n1 i s c = star_loop (rmatch ci r) k n2 i s c.
Proof.
  induction len as [len IH] using lt_wf_ind. intros s Hs n1 n2 i c H1 H2.
  destruct n1 as [|n1]; [lia |]. destruct n2 as [|n2]; [lia |]. cbn [star_loop].
  rewrite (rmatch_ext r i s c _ (fun i' s' c' =>
      if Nat.ltb i i' then star_loop (rmatch ci r) k n2 i' s' c' else None)).
  - reflexivity.
  - intros i' s' c' [Hlen Hle]. destruct (Nat.ltb i i') eqn:E; [|reflexivity].
    apply Nat.ltb_lt in E. apply (IH (length s')); [lia | reflexivity | lia | lia].
Qed.

(** A match lies inside the text searched, after the starting position. *)
Lemma search_bounds (r : regex) :
  forall s i m,
    search ci r i s = Some m ->
    i <= m_index m /\ m_end m = m_index m + length (m_text m)
    /\ m_end m <= i + length s.
Proof.
  induction s as [|x s IH]; intros i m H; cbn [search] in H.
  - destruct (rmatch ci r i [] [] _) as [[e c]|] eqn:E; [|discriminate].
    injection H as <-. apply rmatch_sound in E.
    destruct E as (w & s' & c' & Hs & _ & Hk & _). injection Hk as <- _.
    cbn [m_index m_end m_text]. symmetry in Hs. apply app_eq_nil in Hs.
    destruct Hs as [-> ->]. rewrite firstn_nil. cbn [length]. lia.
  - destruct (rmatch ci r i (x :: s) [] _) as [[e c]|] eqn:E.
    + injection H as <-. apply rmatch_sound in E.
      destruct E as (w & s' & c' & Hs & _ & Hk & _). injection Hk as <- _.
      cbn [m_index m_end m_text]. rewrite Hs.
      replace (length w + i - i) with (length w) by lia.
      rewrite firstn_app, Nat.sub_diag, firstn_all, firstn_O, app_nil_r, length_app. lia.
    + apply IH in H. cbn [length]. lia.
Qed.

(** For a pattern that matches no empty text, the scan for all matches
    ends before its fuel does. *)
Lemma exec_all_fuel (r : regex) :
  (forall w, lang ci r w -> w <> []) ->
  forall len s, length s = len ->
    forall n1 n2 i,
      length s < n1 -> length s < n2 ->
      exec_all n1 ci r i s = exec_all n2 ci r i s.
Proof.
  intros Hne. induction len as [len IH] using lt_wf_ind. intros s Hs n1 n2 i H1 H2.
  destruct n1 as [|n1]; [lia |]. destruct n2 as [|n2]; [lia |]. cbn [exec_all].
  destruct (search ci r i s) as [m|] eqn:E; [|reflexivity].
  pose proof (search_bounds r s i m E) as (Hi & Hend & Hmax).
  pose proof (search_sound ci r s i m E) as (Hl & _).
  apply Hne in Hl. assert (0 < length (m_text m)) by (destruct (m_text m); [congruence | cbn; lia]).
  f_equal. apply (IH (length (skipn (m_end m - i) s))).
  - rewrite length_skipn. lia.
  - reflexivity.
  - rewrite length_skipn. lia.
  - rewrite length_skipn. lia.
Qed.

End MatcherFuel.

(** The acquisition pattern matches no empty text, so the scan of
    [parseWeeklyRoundup] sees every match. *)
Lemma acquisitionRegex_nonempty (w : str) :
  lang true Parser.acquisitionRegex w -> w <> [].
Proof.
  intros H. unfold Parser.acquisitionRegex in H. cbn [rseq] in H.
  inversion H as [| | | |r1 r2 u v Hu Hv| | | | | | |]; subst.
  inversion Hu as [| | | | | | | | |g r' u' Hg| |]; subst.
  apply lang_plus_set in Hg. destruct Hg as [Hg _].
  destruct u; [congruence | discriminate].
Qed.

Lemma acquisition_scan_complete (text : str) (extra : nat) :
  exec_all (S (length text) + extra) true Parser.acquisitionRegex 0 text
  = exec_all (S (length text)) true Parser.acquisitionRegex 0 text.
Proof.
  apply (exec_all_fuel true Parser.acquisitionRegex acquisitionRegex_nonempty
           (length text) text eq_refl); lia.
Qed.

(** ** The matcher at work *)

(** Greedy repetition gives back what the rest of the pattern needs:
    /a*ab/ on aaab. *)
Example greedy_star_backtracks :
  option_map m_text (exec false (RSeq (RStar (RChar "a")) (rlit "ab")) "aaab")
  = Some ("aaab" : str).
Proof. reflexivity. Qed.

(** The leftmost match wins, and alternatives are tried in order:
    /b|ab/ on cab. *)
Example leftmost_match :
  option_map (fun m => (m_index m, m_text m))
    (exec false (RAlt (RChar "b") (rlit "ab")) "cab")
  = Some (1, ("ab" : str)).
Proof. reflexivity. Qed.

(** The amount pattern under the [i] flag, with space after the currency
    symbol and a lower-case unit. *)
Example amount_groups :
  option_map (fun m => (group 1 m, group 2 m))
    (exec true Parser.dollarAmount "Raised $ 1.5 m today")
  = Some (Some ("1.5" : str), Some ("m" : str)).
Proof. reflexivity. Qed.

(** An optional group that takes no part stays undefined. *)
Example optional_group_undefined :
  option_map (fun m => (group 2 m, group 3 m))
    (exec true Parser.acquisitionRegex "Visa acquired BVNK today")
  = Some (Some ("BVNK" : str), None).
Proof. reflexivity. Qed.

(** [" Alt  DRX ".split(/\s+/)] *)
Example split_words :
  split_re false rspaces1 " Alt  DRX " = [[]; ("Alt" : str); ("DRX" : str); []].
Proof. reflexivity. Qed.

(** ** Deterministic engine *)

Section ParserFacts.

Import Parser.
Variable fmt : str -> str.

Lemma group_bound (ci : bool) (r : regex) (m : rmatch_result) (g : nat) :
  sound_match ci r m -> binds r g = true ->
  exists w r', group g m = Some w /\ In (g, r') (groups r) /\ lang ci r' w.
Proof.
  intros Hs Hb. destruct Hs as (Hl & Hc & Hall).
  destruct (group g m) as [w|] eqn:E; [|now apply Hall in Hb].
  destruct (group_sound ci r m g w (conj Hl (conj Hc Hall)) E) as (r' & Hin & Hw).
  eauto.
Qed.

(** The text of a group whose only body is a number is numeric. *)
Lemma numeric_group (ci : bool) (r : regex) (m : rmatch_result) (g : nat) (w : str) :
  sound_match ci r m ->
  (forall r', In (g, r') (groups r) -> r' = rnumber) ->
  group g m = Some w -> is_numeric w = true.
Proof.
  intros Hs Hg E. destruct (group_sound ci r m g w Hs E) as (r' & Hin & Hl).
  rewrite (Hg r' Hin) in Hl. exact (lang_rnumber ci w Hl).
Qed.

Lemma grp_text_no_dollar (ci : bool) (r : regex) (m : rmatch_result) (g : nat) :
  sound_match ci r m ->
  (forall r', In (g, r') (groups r) -> r' = rnumber) ->
  no_dollar (grp_text g m) = true.
Proof.
  intros Hs Hg. unfold grp_text. destruct (group g m) as [w|] eqn:E; [|reflexivity].
  apply numeric_no_dollar. exact (numeric_group ci r m g w Hs Hg E).
Qed.

Ltac solve_group_body :=
  let r' := fresh "r" in let H := fresh "H" in
  intros r' H; cbn in H;
  repeat (destruct H as [H | H]; [first [discriminate H | now injection H as <-] |]);
  contradiction.

Lemma dollarAmount_group1 r' : In (1, r') (groups dollarAmount) -> r' = rnumber.
Proof. revert r'. solve_group_body. Qed.

Lemma dollarAmount_group2 r' :
  In (2, r') (groups dollarAmount) -> r' = RAlt (RChar "M") (RChar "B").
Proof. revert r'. solve_group_body. Qed.

Lemma thousandsAmount_group1 r' : In (1, r') (groups thousandsAmount) -> r' = rnumber.
Proof. revert r'. solve_group_body. Qed.

Lemma valuationPattern_group1 r' : In (1, r') (groups valuationPattern) -> r' = rnumber.
Proof. revert r'. solve_group_body. Qed.

Lemma dashPattern_group2 r' : In (2, r') (groups dashPattern) -> r' = rnumber.
Proof. revert r'. solve_group_body. Qed.

Lemma spacePattern_group2 r' : In (2, r') (groups spacePattern) -> r' = rnumber.
Proof. revert r'. solve_group_body. Qed.

Lemma looseAmount_group1 r' : In (1, r') (groups looseAmount) -> r' = rnumber.
Proof. revert r'. solve_group_body. Qed.

Lemma acquisitionRegex_group3 r' : In (3, r') (groups acquisitionRegex) -> r' = rnumber.
Proof. revert r'. solve_group_body. Qed.

(** *** Scalar amounts *)

Lemma amount_of_match_shape (m : rmatch_result) :
  sound_match true dollarAmount m ->
  exists a, amount_of_match m = Ret a /\ amountShape fmt a.
Proof.
  intros Hs.
  destruct (group_bound true dollarAmount m 1 Hs eq_refl) as (d & r1 & E1 & Hin1 & Hl1).
  destruct (group_bound true dollarAmount m 2 Hs eq_refl) as (u & r2 & E2 & Hin2 & Hl2).
  rewrite (dollarAmount_group1 r1 Hin1) in Hl1.
  rewrite (dollarAmount_group2 r2 Hin2) in Hl2.
  unfold amount_of_match, grp, grp_text. rewrite E1, E2. cbn [js_bind].
  eexists. split; [reflexivity |].
  right. left. exists d, (toUpperCase u). repeat split.
  - exact (lang_rnumber true d Hl1).
  - exact (lang_unit_letter u Hl2).
Qed.

(** [extractFundingAmount] always returns, and what it returns has one of
    the three shapes. *)
Lemma extractFundingAmount_shape (text : str) :
  exists a, extractFundingAmount fmt text = Ret a /\ amountShape fmt a.
Proof.
  unfold extractFundingAmount.
  destruct (exec true dollarAmount (firstLineOf text)) as [m|] eqn:E1.
  { exact (amount_of_match_shape m (exec_sound true _ _ m E1)). }
  destruct (exec true thousandsAmount (firstLineOf text)) as [km|] eqn:E2.
  { pose proof (exec_sound true _ _ km E2) as Hs.
    destruct (group_bound true thousandsAmount km 1 Hs eq_refl) as (d & r1 & Eg & Hin & Hl).
    rewrite (thousandsAmount_group1 r1 Hin) in Hl.
    eexists. split; [reflexivity |].
    right. right. exists d. unfold grp_text. rewrite Eg.
    split; [reflexivity | exact (lang_rnumber true d Hl)]. }
  destruct (exec true dollarAmount text) as [m|] eqn:E3.
  { exact (amount_of_match_shape m (exec_sound true _ _ m E3)). }
  exists ("Undisclosed" : str).
  split; [destruct (includes _ _); reflexivity | now left].
Qed.


Lemma extractValuation_shape (text v : str) :
  extractValuation text = Some v -> valuationShape v.
Proof.
  unfold extractValuation.
  destruct (exec true valuationPattern text) as [m|] eqn:E; [|discriminate].
  intros [= <-]. pose proof (exec_sound true _ _ m E) as Hs.
  destruct (group_bound true valuationPattern m 1 Hs eq_refl) as (d & r1 & Eg & Hin & Hl).
  rewrite (valuationPattern_group1 r1 Hin) in Hl.
  exists d. unfold grp_text. rewrite Eg. split; [reflexivity | exact (lang_rnumber true d Hl)].
Qed.

(** *** Roundups *)

Lemma push_pair_paired (companies amounts : list str) (company amount : str) :
  paired (companies, amounts) -> no_dollar amount = true ->
  paired (push_pair companies amounts company amount).
Proof.
  intros [Hlen Hall] Ha. unfold push_pair.
  destruct (arr_includes companies company); [now split |].
  split; cbn [fst snd] in *.
  - rewrite !length_app. cbn. lia.
  - rewrite forallb_app, Hall. cbn. now rewrite Ha.
Qed.

Lemma tryPatterns_paired (ps : list regex) (cleanLine : str) (companies amounts : list str)
    (acc' : list str * list str) :
  Forall (fun p => forall r', In (2, r') (groups p) -> r' = rnumber) ps ->
  paired (companies, amounts) ->
  tryPatterns ps cleanLine companies amounts = Ret (Some acc') -> paired acc'.
Proof.
  intros Hps Hacc. induction Hps as [|p ps Hp _ IH]; cbn [tryPatterns]; [discriminate |].
  destruct (exec true p cleanLine) as [m|] eqn:E; [|exact IH].
  destruct (grp 1 m) as [c1|]; cbn [js_bind]; [|discriminate].
  intros [= <-]. apply push_pair_paired; [exact Hacc |].
  rewrite no_dollar_app, unit_suffix_no_dollar, andb_true_r.
  exact (grp_text_no_dollar true p m 2 (exec_sound true _ _ m E) Hp).
Qed.

Lemma patterns_group2 :
  Forall (fun p => forall r', In (2, r') (groups p) -> r' = rnumber) patterns.
Proof.
  repeat constructor; auto using dashPattern_group2, spacePattern_group2.
Qed.

Lemma generalExtraction_paired (cleanLine : str) (companies amounts : list str) :
  paired (companies, amounts) -> paired (generalExtraction cleanLine companies amounts).
Proof.
  intros Hacc. unfold generalExtraction.
  destruct (_ && _); [|exact Hacc].
  destruct (indexOf cleanLine "$") as [dollarIndex|]; [|exact Hacc].
  destruct (Nat.ltb 2 dollarIndex); [|exact Hacc].
  match goal with |- context [Nat.ltb 1 (length ?c)] => destruct (Nat.ltb 1 (length c)) end;
    [|exact Hacc].
  destruct (exec true looseAmount cleanLine) as [m|] eqn:E; [|exact Hacc].
  apply push_pair_paired; [exact Hacc |].
  rewrite no_dollar_app, unit_suffix_no_dollar, andb_true_r.
  exact (grp_text_no_dollar true looseAmount m 1 (exec_sound true _ _ m E)
           looseAmount_group1).
Qed.

Lemma processLine_paired (acc acc' : list str * list str) (line : str) :
  paired acc -> processLine acc line = Ret acc' -> paired acc'.
Proof.
  destruct acc as [companies amounts]. intros Hacc. unfold processLine.
  destruct (_ || _); [now intros [= <-] |].
  destruct (tryPatterns patterns _ companies amounts) as [[matched|]|] eqn:E;
    cbn [js_bind]; [| |discriminate].
  - intros [= <-]. exact (tryPatterns_paired _ _ _ _ _ patterns_group2 Hacc E).
  - intros [= <-]. now apply generalExtraction_paired.
Qed.

Lemma processLines_paired (lines : list str) :
  forall acc acc', paired acc -> processLines acc lines = Ret acc' -> paired acc'.
Proof.
  induction lines as [|line lines IH]; intros acc acc' Hacc; cbn [processLines].
  - now intros [= <-].
  - destruct (processLine acc line) as [acc1|] eqn:E; cbn [js_bind]; [|discriminate].
    apply IH. exact (processLine_paired acc acc1 line Hacc E).
Qed.

Lemma exec_all_sound (ci : bool) (r : regex) (fuel : nat) :
  forall i s, Forall (sound_match ci r) (exec_all fuel ci r i s).
Proof.
  induction fuel as [|fuel IH]; intros i s; cbn [exec_all]; [constructor |].
  destruct (search ci r i s) as [m|] eqn:E; [|constructor].
  constructor; [exact (search_sound ci r s i m E) | apply IH].
Qed.

Lemma acquisition_of_match_clean (m : rmatch_result) (a : acquisition_item) :
  sound_match true acquisitionRegex m -> acquisition_of_match m = Ret a ->
  clean_item a = true.
Proof.
  intros Hs. unfold acquisition_of_match.
  destruct (grp 1 m); cbn [js_bind]; [|discriminate].
  destruct (grp 2 m); cbn [js_bind]; [|discriminate].
  intros [= <-]. unfold clean_item. cbn [acq_amount].
  destruct (group 3 m) as [[|x v]|] eqn:E; [reflexivity | | reflexivity].
  rewrite no_dollar_app, unit_suffix_no_dollar, andb_true_r.
  apply numeric_no_dollar.
  exact (numeric_group true acquisitionRegex m 3 (x :: v) Hs acquisitionRegex_group3 E).
Qed.

Lemma collect_acquisitions_clean (ms : list rmatch_result) :
  Forall (sound_match true acquisitionRegex) ms ->
  forall l, collect_acquisitions ms = Ret l -> forallb clean_item l = true.
Proof.
  induction 1 as [|m ms Hm _ IH]; intros l; cbn [collect_acquisitions].
  - now intros [= <-].
  - destruct (acquisition_of_match m) as [a|] eqn:E; cbn [js_bind]; [|discriminate].
    destruct (collect_acquisitions ms) as [rest|]; cbn [js_bind]; [|discriminate].
    intros [= <-]. cbn. rewrite (acquisition_of_match_clean m a Hm E). now apply IH.
Qed.

Lemma nestedAmounts_clean (l : list acquisition_item) :
  forallb clean_item l = true ->
  forallb no_dollar
    (flat_map (fun a => match acq_amount a with Some x => [x] | None => [] end) l) = true.
Proof.
  induction l as [|a l IH]; [reflexivity |]. cbn [forallb flat_map].
  intros H. apply andb_true_iff in H. destruct H as [Ha Hl].
  rewrite forallb_app, (IH Hl), andb_true_r.
  unfold clean_item in Ha. destruct (acq_amount a); cbn; [now rewrite Ha | reflexivity].
Qed.

(** What a roundup record looks like. *)
Lemma parseWeeklyRoundup_record (message : TelegramMessage) (r : InvestmentData) :
  parseWeeklyRoundup message = Ret r ->
  type r = roundup
  /\ (exists companies amounts,
        company r = Many companies /\ amount r = Some (Many amounts)
        /\ length companies = length amounts)
  /\ forallb no_dollar (amountsOf r) = true
  /\ forallb no_dollar (nestedAmountsOf r) = true
  /\ valuation r = None.
Proof.
  unfold parseWeeklyRoundup.
  destruct (collect_acquisitions _) as [acqs|] eqn:Ea; cbn [js_bind]; [|discriminate].
  destruct (processLines _ _) as [[companies amounts]|] eqn:El; cbn [js_bind];
    [|discriminate].
  intros [= <-].
  assert (Hp : paired (companies, amounts)).
  { eapply processLines_paired; [|exact El]. split; reflexivity. }
  destruct Hp as [Hlen Hclean]. cbn [fst snd] in *.
  pose proof (collect_acquisitions_clean _ (exec_all_sound true acquisitionRegex _ _ _)
                _ Ea) as Hacq.
  repeat split; cbn.
  - exists companies, amounts. auto.
  - exact Hclean.
  - unfold nestedAmountsOf. cbn. destruct acqs as [|a acqs]; [reflexivity |].
    now apply nestedAmounts_clean.
Qed.

Lemma parseInvestmentData_record (message : TelegramMessage) (r : InvestmentData) :
  parseInvestmentData fmt message = Ret (Some r) ->
  (parseWeeklyRoundup message = Ret r) \/ single_record fmt r.
Proof.
  unfold parseInvestmentData.
  destruct (negb _); [discriminate |].
  destruct (isWeeklyRoundup _).
  { destruct (parseWeeklyRoundup message); cbn [js_bind]; [|discriminate].
    intros [= <-]. now left. }
  destruct (isMonthlyRoundup _).
  { destruct (parseWeeklyRoundup message); cbn [js_bind]; [|discriminate].
    intros [= <-]. now left. }
  destruct (extractCompanyName _ _) as [[|x c]|]; cbn [js_bind]; try discriminate.
  destruct (extractFundingAmount_shape (msg_text message)) as (a & -> & Ha).
  cbn [js_bind]. intros [= <-]. right. repeat split; cbn.
  - destruct (_ || _); auto.
  - eexists _, a. repeat split; [|exact Ha].
    destruct (_ && _); discriminate.
  - apply extractValuation_shape.
Qed.

Lemma extractInvestmentData_In (messages : list TelegramMessage) (r : InvestmentData) :
  In r (extractInvestmentData fmt messages) ->
  hasCompany r = true
  /\ exists message, In message messages /\ parseInvestmentData fmt message = Ret (Some r).
Proof.
  induction messages as [|message rest IH]; cbn [extractInvestmentData]; [contradiction |].
  destruct (parseInvestmentData fmt message) as [[result|]|] eqn:E.
  - destruct (hasCompany result) eqn:Hc.
    + intros [<- | Hin].
      * split; [exact Hc |]. exists message. split; [now left | exact E].
      * destruct (IH Hin) as (H1 & m & Hm & Hp). split; [exact H1 |].
        exists m. split; [now right | exact Hp].
    + intros Hin. destruct (IH Hin) as (H1 & m & Hm & Hp). split; [exact H1 |].
      exists m. split; [now right | exact Hp].
  - intros Hin. destruct (IH Hin) as (H1 & m & Hm & Hp). split; [exact H1 |].
    exists m. split; [now right | exact Hp].
  - intros Hin. destruct (IH Hin) as (H1 & m & Hm & Hp). split; [exact H1 |].
    exists m. split; [now right | exact Hp].
Qed.

End ParserFacts.

(** ** Removing the currency symbol *)

Lemma indexOf_from_shift (p : str) :
  forall s i, indexOf_from i s p = option_map (Nat.add i) (indexOf_from 0 s p).
Proof.
  induction s as [|x s IH]; intros i; cbn [indexOf_from].
  - destruct (startsWith [] p); cbn; [now rewrite Nat.add_0_r | reflexivity].
  - destruct (startsWith (x :: s) p); cbn; [now rewrite Nat.add_0_r |].
    rewrite (IH (S i)), (IH 1). destruct (indexOf_from 0 s p); cbn; [|reflexivity].
    f_equal. lia.
Qed.

(** Removing the first currency symbol, letter by letter. *)
Lemma replace_first_cons (x : ascii) (s : str) :
  replace_first (x :: s) "$"
  = if Ascii.eqb x dollar then s else x :: replace_first s "$".
Proof.
  unfold replace_first, indexOf.
  change (list_ascii_of_string "$") with [dollar].
  cbn [indexOf_from startsWith length].
  destruct (Ascii.eqb dollar x) eqn:E.
  - apply Ascii.eqb_eq in E. subst x. rewrite Ascii.eqb_refl.
    destruct s; reflexivity.
  - rewrite Ascii.eqb_sym in E. rewrite E. cbn [andb].
    rewrite (indexOf_from_shift [dollar] s 1).
    destruct (indexOf_from 0 s [dollar]); reflexivity.
Qed.



Lemma no_dollar_replace_first (s : str) : no_dollar s = true -> replace_first s "$" = s.
Proof.
  unfold no_dollar. induction s as [|x s IH]; [reflexivity |].
  cbn [existsb]. rewrite replace_first_cons, (Ascii.eqb_sym x dollar).
  destruct (Ascii.eqb dollar x); [discriminate |]. cbn [orb]. intros H. now rewrite IH.
Qed.






(** ** AI engine: normalization *)

Section GenAIFacts.

Import GenAI.

Lemma get_cases (data : JValue) :
  (forall key, get data key = Throw) \/ (forall key, get data key = Ret (field data key)).
Proof. destruct data; cbn; auto. Qed.









Lemma nonEmptyArray_inv (v : JValue) (l : list JValue) :
  nonEmptyArray v = Some l -> v = JArr l /\ l <> [].
Proof. destruct v as [| | | | |[|x l']|]; try discriminate. intros [= <-]. now split. Qed.


Lemma typeOf_roundup (data : JValue) (rawText : str) (isRoundup : bool) (t : record_type) :
  typeOf data rawText isRoundup = Ret t -> (t = roundup <-> isRoundup = true).
Proof.
  unfold typeOf. destruct isRoundup.
  - intros [= <-]. now split.
  - destruct (get data "acquisitions"); cbn [js_bind]; [|discriminate].
    destruct (get data "acquirer"); cbn [js_bind]; [|discriminate].
    destruct (_ || _); intros [= <-]; split; discriminate.
Qed.








(** The lists of a roundup record are the model's: the companies verbatim,
    the amounts entry by entry. *)
Lemma standardize_roundup_lists (data : JValue) (rawText date : str) (isRoundup : bool)
    (r : InvestmentData) (amounts : list JValue) :
  standardizeInvestmentData data rawText date isRoundup = Ret r ->
  type r = roundup -> amount r = JArr amounts ->
  exists companies sent,
    company r = JArr companies
    /\ get data "company" = Ret (JArr companies)
    /\ get data "amount" = Ret (JArr sent)
    /\ amounts = map standardizeAmount sent.
Proof.
  unfold standardizeInvestmentData.
  destruct (typeOf data rawText isRoundup) as [t|]; cbn [js_bind]; [|discriminate].
  destruct (get_cases data) as [Hg | Hg]; rewrite !Hg; cbn [js_bind]; [discriminate |].
  destruct t.
  - intros [= <-]. discriminate.
  - destruct (acquisitionFields data); cbn [js_bind]; [|discriminate].
    intros [= <-]. discriminate.
  - assert (Hrec : forall inRoundup,
      amount {| company := match nonEmptyArray (field data "company") with
                           | Some _ => field data "company"
                           | None => JStr "Weekly Investment Roundup"
                           end;
                type := roundup; date := date; rawText := rawText;
                amount := match nonEmptyArray (field data "company"),
                                nonEmptyArray (field data "amount") with
                          | Some _, Some sent => JArr (map standardizeAmount sent)
                          | _, _ => JUndefined
                          end;
                round := JUndefined; investors := JUndefined; acquirer := JUndefined;
                about := ifTruthy (field data "about");
                valuation := if truthy (field data "valuation")
                             then stripDollarIfString (field data "valuation")
                             else JUndefined;
                links := match nonEmptyArray (field data "links") with
                         | Some l => Some (cleanLinks l)
                         | None => None
                         end;
                isPartOfRoundup := true; acquisitionsInRoundup := inRoundup |}
      = JArr amounts ->
      exists companies sent,
        match nonEmptyArray (field data "company") with
        | Some _ => field data "company"
        | None => JStr "Weekly Investment Roundup"
        end = JArr companies
        /\ Ret (field data "company") = Ret (JArr companies)
        /\ Ret (field data "amount") = Ret (JArr sent)
        /\ amounts = map standardizeAmount sent).
    { intros inRoundup. cbn [amount].
      destruct (nonEmptyArray (field data "company")) as [companies|] eqn:Ec;
        [|discriminate].
      destruct (nonEmptyArray (field data "amount")) as [sent|] eqn:Ea; [|discriminate].
      intros [= <-]. apply nonEmptyArray_inv in Ec, Ea.
      destruct Ec as [Ec _], Ea as [Ea _]. exists companies, sent. rewrite Ec, Ea. auto. }
    destruct (nonEmptyArray (field data "acquisitions")) as [acqs|].
    + destruct (mapAcquisitions acqs); cbn [js_bind]; [|discriminate].
      intros [= <-] _. apply Hrec.
    + cbn [js_bind]. intros [= <-] _. apply Hrec.
Qed.

(** Nothing checks the amount of a single record: a string free of the
    currency symbol is kept as the model sent it. *)
Lemma standardize_keeps_amount (c a rawText date : str) :
  c <> [] -> a <> [] -> no_dollar a = true ->
  includes (toLowerCase rawText) "acquired" = false ->
  includes (toLowerCase rawText) "acquisition" = false ->
  exists r,
    standardizeInvestmentData (JObj [("company" : str, JStr c); ("amount" : str, JStr a)])
      rawText date false = Ret r
    /\ type r = investment /\ company r = JStr c /\ amount r = JStr a.
Proof.
  intros Hc Ha Hd H1 H2. unfold standardizeInvestmentData, typeOf.
  cbn [get js_bind]. 
  change (assoc "acquisitions" _) with JUndefined.
  change (assoc "acquirer" [("company" : str, JStr c); ("amount" : str, JStr a)])
    with JUndefined.
  cbn [truthy orb]. rewrite H1, H2. cbn [js_bind].
  change (assoc "company" [("company" : str, JStr c); ("amount" : str, JStr a)])
    with (JStr c).
  change (assoc "amount" [("company" : str, JStr c); ("amount" : str, JStr a)])
    with (JStr a).
  eexists. split; [reflexivity |]. cbn [type company amount].
  split; [reflexivity |]. split.
  - unfold companyOrEmpty. destruct c; [congruence | reflexivity].
  - destruct a as [|x a]; [congruence |]. cbn [truthy length Nat.eqb negb].
    unfold stripDollarIfString. f_equal. exact (no_dollar_replace_first _ Hd).
Qed.

End GenAIFacts.

(** ** Retry controller *)

Section RetryFacts.

Import Retry.
Context {A : Type}.
Variable fn : nat -> outcome A.
Variable random : nat -> Q.
Variable maxRetries : Z.
Variable maxDelay : Q.

Lemma retry_loop_finished (fuel : nat) :
  forall w retries delay slept r,
    retry_loop fn random maxRetries maxDelay fuel w retries delay slept = Some r ->
    finished fn random maxRetries maxDelay w retries delay slept r.
Proof.
  induction fuel as [|fuel IH]; intros w retries delay slept r; cbn [retry_loop];
    [discriminate |].
  destruct (fn (calls w)) as [v|e] eqn:Efn.
  - intros [= <-]. exists 0%nat. cbn [result waits after calls draws delays].
    rewrite !Nat.add_0_r, app_nil_r, Efn. repeat split; auto; try (intros; lia).
  - destruct ((maxRetries <? retries + 1)%Z || negb (isRetryable e)) eqn:Estop.
    + intros [= <-]. exists 0%nat. cbn [result waits after calls draws delays].
      rewrite !Nat.add_0_r, app_nil_r, Efn. repeat split; auto; try (intros; lia).
      apply orb_true_iff in Estop. destruct Estop as [H | H].
      * right. apply Z.ltb_lt in H. lia.
      * left. now apply negb_true_iff in H.
    + apply orb_false_iff in Estop. destruct Estop as [Hmax Hretry].
      apply Z.ltb_ge in Hmax. apply negb_false_iff in Hretry.
      cbn [calls draws]. intros Hrun. apply IH in Hrun.
      destruct Hrun as (n & Hfail & Hbound & Hres & Hend & Hwaits & Hcalls & Hdraws).
      cbn [calls draws] in *.
      exists (S n). repeat split.
      * intros j Hj. destruct j as [|j].
        -- exists e. rewrite Nat.add_0_r. auto.
        -- destruct (Hfail j ltac:(lia)) as (e' & He' & Hr').
           exists e'. split; [|exact Hr'].
           replace (calls w + S j)%nat with (S (calls w) + j)%nat by lia. exact He'.
      * right. destruct Hbound as [-> | Hb]; lia.
      * rewrite Hres. f_equal. lia.
      * destruct (result r); [exact I |].
        destruct Hend as [H | H]; [now left | right; lia].
      * rewrite Hwaits, <- app_assoc. reflexivity.
      * lia.
      * lia.
Qed.

(** The loop ends within [maxRetries + 1] attempts. *)
Lemma retry_loop_returns (fuel : nat) :
  forall w retries delay slept,
    (Z.to_nat (maxRetries - retries) < fuel)%nat ->
    exists r, retry_loop fn random maxRetries maxDelay fuel w retries delay slept = Some r.
Proof.
  induction fuel as [|fuel IH]; intros w retries delay slept Hfuel; [lia |].
  cbn [retry_loop]. destruct (fn (calls w)) as [v|e]; [eauto |].
  destruct ((maxRetries <? retries + 1)%Z || negb (isRetryable e)) eqn:Estop; [eauto |].
  apply orb_false_iff in Estop. destruct Estop as [Hmax _]. apply Z.ltb_ge in Hmax.
  apply IH. lia.
Qed.

Lemma retry_finished (initialDelay : Q) (w : world) :
  finished fn random maxRetries maxDelay w 0 initialDelay []
    (retry fn random maxRetries maxDelay initialDelay w).
Proof.
  unfold retry.
  destruct (retry_loop_returns (S (Z.to_nat maxRetries)) w 0 initialDelay []) as [r Hr].
  { rewrite Z.sub_0_r. lia. }
  rewrite Hr. exact (retry_loop_finished _ _ _ _ _ _ Hr).
Qed.

(** Every delay is capped. *)
Lemma delays_capped (delay : Q) (j n : nat) :
  Forall (fun d => (d <= maxDelay)%Q) (delays random maxDelay delay j n).
Proof.
  revert delay j. induction n as [|n IH]; intros delay j; cbn [delays]; constructor.
  - apply Q.le_min_r.
  - apply IH.
Qed.

(** The jitter factor lies between 0.85 and 1.15. *)
Lemma jitter_range (x : Q) :
  (0 <= x)%Q -> (x < 1)%Q -> (0.85 <= jitter_of x)%Q /\ (jitter_of x <= 1.15)%Q.
Proof.
  intros H0 H1. unfold jitter_of. unfold Qle, Qlt in *. cbn in *. split; lia.
Qed.

End RetryFacts.

(** ** AI engine: responses and batches *)

Section EngineFacts.

Import GenAI.
Variable JSON_parse : str -> option JValue.
Variable callGeminiAPI : nat -> prompt -> Retry.outcome str.
Variable random : nat -> Q.

Lemma accepted_nonEmpty (r : InvestmentData) : accepted r = nonEmptyCompanyAI r.
Proof. reflexivity. Qed.

(** A message yields a record only through [processResponse]. *)
Lemma extractInvestmentWithGemini_record (message : TelegramMessage) (w : Retry.world)
    (r : InvestmentData) :
  fst (extractInvestmentWithGemini JSON_parse callGeminiAPI random message w) = Some r ->
  exists response isRoundup,
    processResponse JSON_parse response (msg_text message) (msg_date message) isRoundup
    = Some r.
Proof.
  unfold extractInvestmentWithGemini.
  destruct (negb _); [discriminate |].
  destruct (Retry.result _) as [response|e]; [|discriminate].
  cbn [fst]. eauto.
Qed.

Lemma processBatch_accepted (batch : list TelegramMessage) :
  forall w investments,
    forallb accepted investments = true ->
    forallb accepted
      (fst (processBatch JSON_parse callGeminiAPI random batch w investments)) = true.
Proof.
  induction batch as [|message rest IH]; intros w investments H; cbn [processBatch];
    [exact H |].
  destruct (extractInvestmentWithGemini _ _ _ message w) as [[r|] w']; apply IH; [|exact H].
  destruct (accepted r) eqn:E; [|exact H].
  rewrite forallb_app, H. cbn. now rewrite E.
Qed.

Lemma batchLoop_accepted (fuel : nat) :
  forall i messages w investments,
    forallb accepted investments = true ->
    forallb accepted
      (fst (batchLoop JSON_parse callGeminiAPI random fuel i messages w investments)) = true.
Proof.
  induction fuel as [|fuel IH]; intros i messages w investments H; cbn [batchLoop];
    [exact H |].
  destruct (Nat.ltb i (length messages)); [|exact H].
  pose proof (processBatch_accepted (slice i (i + batchSize) messages) w investments H) as Hb.
  destruct (processBatch _ _ _ _ w investments) as [investments' w'].
  apply IH. exact Hb.
Qed.

(** Batching changes nothing: the loop handles every message, in order. *)
Lemma processBatch_app (a b : list TelegramMessage) :
  forall w investments,
    processBatch JSON_parse callGeminiAPI random (a ++ b) w investments
    = let '(investments', w') :=
        processBatch JSON_parse callGeminiAPI random a w investments in
      processBatch JSON_parse callGeminiAPI random b w' investments'.
Proof.
  induction a as [|message a IH]; intros w investments; cbn [processBatch app].
  - reflexivity.
  - destruct (extractInvestmentWithGemini _ _ _ message w) as [result w']. apply IH.
Qed.

Lemma batchLoop_all (fuel : nat) :
  forall i messages w investments,
    (length messages <= i + fuel * batchSize)%nat ->
    batchLoop JSON_parse callGeminiAPI random fuel i messages w investments
    = processBatch JSON_parse callGeminiAPI random (skipn i messages) w investments.
Proof.
  induction fuel as [|fuel IH]; intros i messages w investments Hfuel; cbn [batchLoop].
  - rewrite skipn_all2 by lia. reflexivity.
  - destruct (Nat.ltb i (length messages)) eqn:E.
    + unfold slice. replace (i + batchSize - i)%nat with batchSize by lia.
      rewrite <- (firstn_skipn batchSize (skipn i messages)) at 2.
      rewrite processBatch_app.
      destruct (processBatch _ _ _ (firstn batchSize (skipn i messages)) w investments)
        as [investments' w'].
      rewrite IH by (unfold batchSize in *; lia).
      rewrite skipn_skipn. f_equal. f_equal. lia.
    + apply Nat.ltb_ge in E. rewrite skipn_all2 by lia. reflexivity.
Qed.

Lemma extractInvestmentsWithAI_all (messages : list TelegramMessage) (w : Retry.world) :
  extractInvestmentsWithAI JSON_parse callGeminiAPI random messages w
  = fst (processBatch JSON_parse callGeminiAPI random messages w []).
Proof.
  unfold extractInvestmentsWithAI. rewrite batchLoop_all; [reflexivity |].
  unfold batchSize. lia.
Qed.

End EngineFacts.

(** ** Where the records of the AI engine come from *)

Section Origin.

Import GenAI.
Variable JSON_parse : str -> option JValue.
Variable callGeminiAPI : nat -> prompt -> Retry.outcome str.
Variable random : nat -> Q.

Lemma processResponse_record (response text date : str) (isRoundup : bool)
    (r : InvestmentData) :
  processResponse JSON_parse response text date isRoundup = Some r ->
  exists s data,
    JSON_parse s = Some data /\ standardizeInvestmentData data text date isRoundup = Ret r.
Proof.
  unfold processResponse. destruct (_ || _); [discriminate |].
  destruct (JSON_parse _) as [data|] eqn:E; [|discriminate].
  destruct (standardizeInvestmentData _ _ _ _) as [r'|] eqn:Es; [|discriminate].
  intros [= <-]. eauto.
Qed.

Lemma processBatch_In (batch : list TelegramMessage) :
  forall w investments r,
    In r (fst (processBatch JSON_parse callGeminiAPI random batch w investments)) ->
    In r investments
    \/ exists message w',
         In message batch
         /\ fst (extractInvestmentWithGemini JSON_parse callGeminiAPI random message w')
            = Some r.
Proof.
  induction batch as [|message rest IH]; intros w investments r; cbn [processBatch];
    [now left |].
  destruct (extractInvestmentWithGemini _ _ _ message w) as [result w'] eqn:E.
  intros H. apply IH in H. destruct H as [H | (m & w0 & Hm & Hr)].
  - destruct result as [r'|]; [|now left].
    destruct (accepted r'); [|now left].
    apply in_app_or in H. destruct H as [H | [<- | []]]; [now left |].
    right. exists message, w. split; [now left | now rewrite E].
  - right. exists m, w0. split; [now right | exact Hr].
Qed.

(** Every record of a run was normalized from an object the parser built
    from the answer to one of the messages. *)
Lemma ai_record_origin (messages : list TelegramMessage) (w : Retry.world)
    (r : InvestmentData) :
  In r (extractInvestmentsWithAI JSON_parse callGeminiAPI random messages w) ->
  exists message s data isRoundup,
    In message messages /\ JSON_parse s = Some data
    /\ standardizeInvestmentData data (msg_text message) (msg_date message) isRoundup
       = Ret r.
Proof.
  rewrite extractInvestmentsWithAI_all. intros H.
  apply processBatch_In in H. destruct H as [[] | (message & w' & Hm & Hr)].
  apply extractInvestmentWithGemini_record in Hr. destruct Hr as (response & isRoundup & Hp).
  apply processResponse_record in Hp. destruct Hp as (s & data & Hparse & Hstd).
  exists message, s, data, isRoundup. auto.
Qed.

End Origin.

(** ** Positions of the braces *)

Lemma indexOf_from_char (c : ascii) :
  forall s k i, indexOf_from k s [c] = Some i ->
                k <= i /\ nth_error s (i - k) = Some c.
Proof.
  induction s as [|x s IH]; intros k i; cbn [indexOf_from startsWith]; [discriminate |].
  destruct (Ascii.eqb c x) eqn:E; cbn [andb].
  - destruct s; intros [= <-]; rewrite Nat.sub_diag; apply Ascii.eqb_eq in E; subst;
      split; auto.
  - intros H. apply IH in H. destruct H as [Hk Hn]. split; [lia |].
    replace (i - k) with (S (i - S k)) by lia. exact Hn.
Qed.

Lemma lastIndexOf_from_char (c : ascii) :
  forall s k j, lastIndexOf_from k s c = Some j ->
                k <= j /\ nth_error s (j - k) = Some c.
Proof.
  induction s as [|x s IH]; intros k j; cbn [lastIndexOf_from]; [discriminate |].
  destruct (lastIndexOf_from (S k) s c) as [j'|] eqn:E.
  - intros [= <-]. apply IH in E. destruct E as [Hk Hn]. split; [lia |].
    replace (j' - k) with (S (j' - S k)) by lia. exact Hn.
  - destruct (Ascii.eqb x c) eqn:Ex; [|discriminate].
    intros [= <-]. rewrite Nat.sub_diag. apply Ascii.eqb_eq in Ex. subst. split; auto.
Qed.

(** The first opening brace and the last closing brace never share a
    position. *)
Lemma brace_positions_differ (response : str) (first last : nat) :
  indexOf response "{" = Some first -> lastIndexOf response "}" = Some last ->
  first <> last.
Proof.
  unfold indexOf, lastIndexOf. intros Hf Hl.
  apply (indexOf_from_char "{"%char) in Hf. apply lastIndexOf_from_char in Hl.
  destruct Hf as [_ Hf], Hl as [_ Hl]. rewrite Nat.sub_0_r in *.
  intros ->. rewrite Hf in Hl. discriminate Hl.
Qed.

(** ** The claims *)

(** C9: no record either engine emits has an empty company: the company of
    every record in the output of [extractInvestmentData] is a non-empty
    string or a non-empty list, and so is the company of every record in
    the output of [extractInvestmentsWithAI]. *)
Theorem no_empty_company (fmt : str -> str) (JSON_parse : str -> option GenAI.JValue)
    (callGeminiAPI : nat -> GenAI.prompt -> Retry.outcome str) (random : nat -> Q)
    (messages : list TelegramMessage) (w : Retry.world) :
  forallb nonEmptyCompany (Parser.extractInvestmentData fmt messages) = true
  /\ forallb nonEmptyCompanyAI
       (GenAI.extractInvestmentsWithAI JSON_parse callGeminiAPI random messages w) = true.
Proof.
  split.
  - induction messages as [|message rest IH]; [reflexivity |].
    cbn [Parser.extractInvestmentData].
    destruct (Parser.parseInvestmentData fmt message) as [[result|]|]; try exact IH.
    destruct (Parser.hasCompany result) eqn:E; [|exact IH].
    cbn [forallb]. rewrite IH, andb_true_r.
    unfold Parser.hasCompany in E. unfold nonEmptyCompany.
    destruct (Parser.company result) as [s|l]; [|exact E].
    destruct s; [discriminate E | reflexivity].
  - unfold GenAI.extractInvestmentsWithAI. now apply batchLoop_accepted.
Qed.

(** The inner [try] block, by the positions of the braces. *)
Lemma processResponse_cases (JSON_parse : str -> option GenAI.JValue)
    (response text date : str) (isRoundup : bool) :
  (indexOf response "{" = None ->
   GenAI.processResponse JSON_parse response text date isRoundup = None)
  /\ (lastIndexOf response "}" = None ->
      GenAI.processResponse JSON_parse response text date isRoundup = None)
  /\ (forall first last,
        indexOf response "{" = Some first -> lastIndexOf response "}" = Some last ->
        last <= first ->
        GenAI.processResponse JSON_parse response text date isRoundup = None)
  /\ (forall first last,
        indexOf response "{" = Some first -> lastIndexOf response "}" = Some last ->
        first < last ->
        GenAI.processResponse JSON_parse response text date isRoundup
        = match JSON_parse (substring first (S last) response) with
          | None => None
          | Some data =>
              match GenAI.standardizeInvestmentData data text date isRoundup with
              | Ret r => Some r
              | Throw => None
              end
          end).
Proof.
  unfold GenAI.processResponse. repeat split.
  - intros ->. reflexivity.
  - intros ->. cbn [GenAI.index_number].
    destruct (indexOf response "{") as [first|]; cbn [GenAI.index_number]; [|reflexivity].
    replace ((-1 + 1 <=? Z.of_nat first)%Z) with true by (symmetry; apply Z.leb_le; lia).
    now rewrite orb_true_r.
  - intros first last Hf Hl Hle.
    pose proof (brace_positions_differ response first last Hf Hl) as Hne.
    rewrite Hf, Hl. cbn [GenAI.index_number].
    replace ((Z.of_nat last + 1 <=? Z.of_nat first)%Z) with true
      by (symmetry; apply Z.leb_le; lia).
    now rewrite orb_true_r.
  - intros first last -> -> Hlt. cbn [GenAI.index_number].
    replace ((Z.of_nat first <? 0)%Z) with false by (symmetry; apply Z.ltb_ge; lia).
    replace ((Z.of_nat last + 1 <=? Z.of_nat first)%Z) with false
      by (symmetry; apply Z.leb_gt; lia).
    cbn [orb]. rewrite Nat2Z.id.
    replace (Z.to_nat (Z.of_nat last + 1)) with (S last) by lia.
    reflexivity.
Qed.

(** C8: for a message that passes the pre-filter and a response the
    generation service resolves with, [extractInvestmentWithGemini] makes
    no further call, and returns none when the response holds no opening
    brace, when it holds no closing brace, when its last closing brace
    stands before its first opening brace, and when the text from the first
    opening brace through the last closing brace is not JSON; otherwise
    exactly that text is parsed and the object normalized, and the record
    is returned, an error raised by the normalization being caught and
    answered with none.  The result is an optional record in every case:
    nothing is raised past the message. *)
Theorem response_cases (JSON_parse : str -> option GenAI.JValue)
    (callGeminiAPI : nat -> GenAI.prompt -> Retry.outcome str) (random : nat -> Q)
    (message : TelegramMessage) (w : Retry.world) (response : str) :
  GenAI.looksLikeFunding (msg_text message) = true ->
  Retry.result (serviceCall callGeminiAPI random message w) = Retry.Resolved response ->
  let parsed := GenAI.extractInvestmentWithGemini JSON_parse callGeminiAPI random message w in
  let isRoundup := test true GenAI.roundupHint (msg_text message) in
  snd parsed = Retry.after (serviceCall callGeminiAPI random message w)
  /\ (indexOf response "{" = None -> fst parsed = None)
  /\ (lastIndexOf response "}" = None -> fst parsed = None)
  /\ (forall first last,
        indexOf response "{" = Some first -> lastIndexOf response "}" = Some last ->
        last <= first ->
        fst parsed = None)
  /\ (forall first last,
        indexOf response "{" = Some first -> lastIndexOf response "}" = Some last ->
        first < last ->
        fst parsed
        = match JSON_parse (substring first (S last) response) with
          | None => None
          | Some data =>
              match GenAI.standardizeInvestmentData data (msg_text message)
                      (msg_date message) isRoundup with
              | Ret r => Some r
              | Throw => None
              end
          end).
Proof.
  intros Hfilter Hanswer. cbn zeta.
  destruct (processResponse_cases JSON_parse response (msg_text message) (msg_date message)
              (test true GenAI.roundupHint (msg_text message))) as (H1 & H2 & H3 & H4).
  unfold GenAI.extractInvestmentWithGemini. rewrite Hfilter. cbn [negb].
  unfold serviceCall, promptOf in Hanswer |- *. rewrite Hanswer. cbn [fst snd].
  split; [reflexivity |]. split; [exact H1 |]. split; [exact H2 |]. split; [exact H3 | exact H4].
Qed.

Lemma response_cases_witness :
  fst (GenAI.extractInvestmentWithGemini sample_parse (answering "no object here") no_jitter
         (messageOf "Foo closes a Seed Round") fresh_world) = None
  /\ fst (GenAI.extractInvestmentWithGemini sample_parse (answering "{ no closing brace")
            no_jitter (messageOf "Foo closes a Seed Round") fresh_world) = None
  /\ fst (GenAI.extractInvestmentWithGemini sample_parse (answering "} nothing here {")
            no_jitter (messageOf "Foo closes a Seed Round") fresh_world) = None
  /\ fst (GenAI.extractInvestmentWithGemini sample_parse (answering "x {not json} y")
            no_jitter (messageOf "Foo closes a Seed Round") fresh_world) = None
  /\ option_map GenAI.company
       (fst (GenAI.extractInvestmentWithGemini sample_parse
               (answering ("Sure! Here is the data: " ++ foo_json ++ " Thanks")) no_jitter
               (messageOf "Foo closes a Seed Round") fresh_world))
     = Some (GenAI.JStr "Foo")
  /\ Retry.calls
       (snd (GenAI.extractInvestmentWithGemini sample_parse (answering "x {not json} y")
               no_jitter (messageOf "Foo closes a Seed Round") fresh_world)) = 1.
Proof.
  pose proof (fun response =>
                response_cases sample_parse (answering response) no_jitter
                  (messageOf "Foo closes a Seed Round") fresh_world response
                  eq_refl eq_refl) as H.
  cbn zeta in H.
  split; [exact (proj1 (proj2 (H "no object here")) eq_refl) |].
  split; [exact (proj1 (proj2 (proj2 (H "{ no closing brace"))) eq_refl) |].
  split; [exact (proj1 (proj2 (proj2 (proj2 (H "} nothing here {")))) 15 0 eq_refl eq_refl
                   ltac:(lia)) |].
  split; [rewrite (proj2 (proj2 (proj2 (proj2 (H "x {not json} y")))) 2 11 eq_refl eq_refl
                     ltac:(lia)); reflexivity |].
  split; [rewrite (proj2 (proj2 (proj2 (proj2
                     (H ("Sure! Here is the data: " ++ foo_json ++ " Thanks")))))
                     24 40 eq_refl eq_refl ltac:(lia)); reflexivity |].
  rewrite (proj1 (H "x {not json} y")). reflexivity.
Defined.

(** The scenarios of the specification: an answer that wraps the object in
    prose is cut at the braces and parsed; an answer whose braces are the
    wrong way round, and one whose braces hold no JSON, are dropped. *)
Example response_wrapped_in_prose :
  option_map GenAI.company
    (GenAI.processResponse sample_parse
       ("Sure! Here is the data: " ++ foo_json ++ " Thanks")
       "Foo closes a Seed Round" "2025-05-01T10:00:00.000Z" false)
  = Some (GenAI.JStr "Foo").
Proof. vm_compute. reflexivity. Qed.

Example response_unbalanced :
  GenAI.processResponse sample_parse "} nothing here {"
    "Foo closes a Seed Round" "2025-05-01T10:00:00.000Z" false = None
  /\ GenAI.processResponse sample_parse "{ no closing brace"
       "Foo closes a Seed Round" "2025-05-01T10:00:00.000Z" false = None
  /\ GenAI.processResponse sample_parse "{not json}"
       "Foo closes a Seed Round" "2025-05-01T10:00:00.000Z" false = None.
Proof. vm_compute. repeat split. Qed.

Lemma delays_nth (random : nat -> Q) (maxDelay : Q) :
  forall n delay j k,
    k < n ->
    nth k (Retry.delays random maxDelay delay j n) 0%Q
    = Retry.next_delay maxDelay
        match k with
        | O => delay
        | S k' => nth k' (Retry.delays random maxDelay delay j n) 0%Q
        end
        (Retry.jitter_of (random (j + k))).
Proof.
  induction n as [|n IH]; intros delay j k Hk; [lia |].
  cbn [Retry.delays]. destruct k as [|k]; cbn [nth].
  - now rewrite Nat.add_0_r.
  - rewrite IH by lia. replace (S j + k) with (j + S k) by lia.
    destruct k; reflexivity.
Qed.

Lemma delays_length (random : nat -> Q) (maxDelay : Q) :
  forall n delay j, length (Retry.delays random maxDelay delay j n) = n.
Proof. induction n as [|n IH]; intros delay j; cbn; [reflexivity | now rewrite IH]. Qed.

(** C7: [retry] runs the operation until an attempt ends the run.  With
    [n] the number of attempts that failed before it: each of them failed
    with a retryable error; [n] is at most [maxRetries]; the run returns
    what the last attempt returned, or re-raises its error, and an error is
    re-raised only when it is not retryable or the retries are used up; one
    wait precedes each retry and none follows the last attempt, the k-th
    wait being [min(previous * 1.5 * jitter, maxDelay)] with the initial
    delay as the first [previous], so never above [maxDelay]; the operation
    was called [n + 1] times.  An error is retryable when its message holds
    503, overloaded or UNAVAILABLE; the jitter lies between 0.85 and 1.15;
    the defaults are 5 retries, 2000 ms and 60000 ms. *)
Theorem retry_contract {A : Type} (fn : nat -> Retry.outcome A) (random : nat -> Q)
    (maxRetries : Z) (maxDelay initialDelay : Q) (w : Retry.world) :
  let r := Retry.retry fn random maxRetries maxDelay initialDelay w in
  (exists n : nat,
      (forall j, j < n ->
                 exists e, fn (Retry.calls w + j) = Retry.Rejected e
                           /\ Retry.isRetryable e = true)
      /\ (n = 0 \/ (Z.of_nat n <= maxRetries)%Z)
      /\ Retry.result r = fn (Retry.calls w + n)
      /\ (forall e, Retry.result r = Retry.Rejected e ->
                    Retry.isRetryable e = false \/ (maxRetries <= Z.of_nat n)%Z)
      /\ length (Retry.waits r) = n
      /\ (forall k, k < n ->
                    nth k (Retry.waits r) 0%Q
                    = Qmin (match k with
                            | O => initialDelay
                            | S k' => nth k' (Retry.waits r) 0%Q
                            end * 1.5 * (random (Retry.draws w + k)%nat * 0.3 + 0.85))%Q
                        maxDelay)
      /\ Forall (fun d => (d <= maxDelay)%Q) (Retry.waits r)
      /\ Retry.calls (Retry.after r) = Retry.calls w + n + 1)
  /\ (forall e, Retry.isRetryable e = true <->
                exists m, Retry.message e = Some m
                          /\ (includes m "503" = true \/ includes m "overloaded" = true
                              \/ includes m "UNAVAILABLE" = true))
  /\ (forall x, (0 <= x)%Q -> (x < 1)%Q ->
                (0.85 <= x * 0.3 + 0.85)%Q /\ (x * 0.3 + 0.85 <= 1.15)%Q)
  /\ Retry.default_maxRetries = 5%Z
  /\ Retry.default_initialDelay = 2000%Q
  /\ Retry.default_maxDelay = 60000%Q.
Proof.
  cbn zeta. split; [|split; [|split; [|repeat split]]].
  - destruct (retry_finished fn random maxRetries maxDelay initialDelay w)
      as (n & Hfail & Hbound & Hres & Hend & Hwaits & Hcalls & _).
    cbn [app] in Hwaits. exists n. repeat split.
    + exact Hfail.
    + destruct Hbound as [-> | H]; [now left | right; lia].
    + exact Hres.
    + intros e He. rewrite He in Hend. destruct Hend as [H | H]; [now left | right; lia].
    + rewrite Hwaits. apply delays_length.
    + intros k Hk. rewrite Hwaits. exact (delays_nth random maxDelay n initialDelay _ k Hk).
    + rewrite Hwaits. apply delays_capped.
    + exact Hcalls.
  - intros e. unfold Retry.isRetryable. split.
    + destruct (Retry.message e) as [m|]; [|discriminate].
      intros H. exists m. split; [reflexivity |].
      apply orb_true_iff in H. destruct H as [H | H]; [|auto].
      apply orb_true_iff in H. destruct H; auto.
    + intros (m & -> & [H | [H | H]]); rewrite H, ?orb_true_r; reflexivity.
  - intros x H0 H1. exact (jitter_range x H0 H1).
Qed.

(** An operation that fails twice with a 503 and then returns 7: two waits,
    of 3000 ms and 4500 ms with the jitter at 1, and three calls. *)
Example retry_flaky :
  let r := Retry.retry flaky no_jitter 5 60000 2000 fresh_world in
  Retry.result r = Retry.Resolved 7
  /\ Retry.calls (Retry.after r) = 3
  /\ map Qred (Retry.waits r) = [3000%Q; 4500%Q].
Proof. vm_compute. repeat split. Qed.

(** C4, as the code has it: the deterministic engine rejects a message at
    its first step exactly when the text holds none of [Round], [acquired],
    [Funding] and the currency symbol; a rejected message yields no
    record.  The word [raised] plays no part. *)
Theorem prefilter_tokens (fmt : str -> str) (message : TelegramMessage) :
  (Parser.looksLikeFunding (msg_text message) = false <->
   includes (msg_text message) "Round" = false
   /\ includes (msg_text message) "acquired" = false
   /\ includes (msg_text message) "Funding" = false
   /\ includes (msg_text message) "$" = false)
  /\ (Parser.looksLikeFunding (msg_text message) = false ->
      Parser.parseInvestmentData fmt message = Ret None).
Proof.
  split.
  - unfold Parser.looksLikeFunding. rewrite !orb_false_iff. tauto.
  - intros H. unfold Parser.parseInvestmentData. now rewrite H.
Qed.

Lemma prefilter_tokens_witness :
  Parser.parseInvestmentData sample_format (messageOf raised_announcement) = Ret None.
Proof.
  apply (proj2 (prefilter_tokens sample_format (messageOf raised_announcement))).
  reflexivity.
Defined.

(** C4 as stated fails: a text with [raised] in it, and none of the four
    tokens the code looks for, is rejected. *)
Lemma prefilter_rejects_raised :
  includes raised_announcement "raised" = true
  /\ Parser.looksLikeFunding raised_announcement = false
  /\ Parser.parseInvestmentData sample_format (messageOf raised_announcement) = Ret None.
Proof. repeat split. Qed.

(** C2, as the code has it: a roundup record of the deterministic engine
    carries companies and amounts of equal length; a roundup record of the
    AI engine that carries an amount list carries the model's company list
    and as many amounts as the model sent, so the two lists are as long as
    each other exactly when the model's are. *)
Theorem roundup_lists :
  (forall (fmt : str -> str) (messages : list TelegramMessage) (r : Parser.InvestmentData),
      In r (Parser.extractInvestmentData fmt messages) ->
      Parser.type r = Parser.roundup ->
      exists companies amounts,
        Parser.company r = Parser.Many companies
        /\ Parser.amount r = Some (Parser.Many amounts)
        /\ length companies = length amounts)
  /\ (forall (JSON_parse : str -> option GenAI.JValue)
             (callGeminiAPI : nat -> GenAI.prompt -> Retry.outcome str) (random : nat -> Q)
             (messages : list TelegramMessage) (w : Retry.world) (r : GenAI.InvestmentData)
             (amounts : list GenAI.JValue),
      In r (GenAI.extractInvestmentsWithAI JSON_parse callGeminiAPI random messages w) ->
      GenAI.type r = GenAI.roundup ->
      GenAI.amount r = GenAI.JArr amounts ->
      exists s data companies sent,
        JSON_parse s = Some data
        /\ GenAI.get data "company" = Ret (GenAI.JArr companies)
        /\ GenAI.get data "amount" = Ret (GenAI.JArr sent)
        /\ GenAI.company r = GenAI.JArr companies
        /\ length amounts = length sent).
Proof.
  split.
  - intros fmt messages r Hin Htype.
    apply extractInvestmentData_In in Hin. destruct Hin as (_ & message & _ & Hparse).
    apply parseInvestmentData_record in Hparse. destruct Hparse as [Hr | Hs].
    + apply parseWeeklyRoundup_record in Hr. tauto.
    + destruct Hs as ([H | H] & _); rewrite H in Htype; discriminate.
  - intros JSON_parse callGeminiAPI random messages w r amounts Hin Htype Hamount.
    apply ai_record_origin in Hin.
    destruct Hin as (message & s & data & isRoundup & _ & Hparse & Hstd).
    destruct (standardize_roundup_lists _ _ _ _ _ _ Hstd Htype Hamount)
      as (companies & sent & Hc & Hgc & Hga & ->).
    exists s, data, companies, sent. rewrite length_map. auto.
Qed.

Lemma roundup_lists_witness :
  Forall (fun r => exists companies amounts,
              Parser.company r = Parser.Many companies
              /\ Parser.amount r = Some (Parser.Many amounts)
              /\ length companies = length amounts)
    (Parser.extractInvestmentData sample_format [messageOf roundup_digest])
  /\ length (Parser.extractInvestmentData sample_format [messageOf roundup_digest]) = 1
  /\ match GenAI.extractInvestmentsWithAI sample_parse (answering roundup_json) no_jitter
             [messageOf roundup_headline] fresh_world with
     | [r] =>
         GenAI.type r = GenAI.roundup
         /\ GenAI.amount r = GenAI.JArr [GenAI.JStr "10M"]
         /\ exists s data companies sent,
              sample_parse s = Some data
              /\ GenAI.get data "company" = Ret (GenAI.JArr companies)
              /\ GenAI.get data "amount" = Ret (GenAI.JArr sent)
              /\ GenAI.company r = GenAI.JArr companies
              /\ length [GenAI.JStr ("10M" : str)] = length sent
     | _ => False
     end.
Proof.
  split; [|split; [vm_compute; reflexivity |]].
  - assert (Htypes : Forall (fun r => Parser.type r = Parser.roundup)
                       (Parser.extractInvestmentData sample_format
                          [messageOf roundup_digest]))
      by (vm_compute; repeat constructor).
    apply List.Forall_forall. intros r Hr.
    apply (proj1 roundup_lists sample_format [messageOf roundup_digest] r Hr).
    exact (proj1 (List.Forall_forall _ _) Htypes r Hr).
  - pose proof (proj2 roundup_lists sample_parse (answering roundup_json) no_jitter
                  [messageOf roundup_headline] fresh_world) as H.
    remember (GenAI.extractInvestmentsWithAI sample_parse (answering roundup_json)
                no_jitter [messageOf roundup_headline] fresh_world) as emitted eqn:E.
    vm_compute in E. subst emitted.
    split; [reflexivity | split; [reflexivity |]].
    exact (H _ [GenAI.JStr ("10M" : str)] (or_introl eq_refl) eq_refl eq_refl).
Defined.

(** C2 as stated fails for the AI engine: the model answers a roundup with
    two companies and one amount, and the record is emitted with lists of
    lengths two and one. *)
Lemma roundup_lists_differ :
  map (fun r => (GenAI.type r, GenAI.company r, GenAI.amount r))
    (GenAI.extractInvestmentsWithAI sample_parse
       (answering ("Here you go: " ++ roundup_json ++ " Thanks")) no_jitter
       [messageOf roundup_headline] fresh_world)
  = [(GenAI.roundup,
      GenAI.JArr [GenAI.JStr "Acme"; GenAI.JStr "Beta"],
      GenAI.JArr [GenAI.JStr "10M"])].
Proof. vm_compute. reflexivity. Qed.

(** C3, as the code has it: the amount of a record of the deterministic
    engine that is no roundup is [Undisclosed], or a non-empty run of digits
    and dots followed by [M] or [B], or the host's two-decimal print of a
    thousandth of such a run followed by [M]; the AI engine checks no
    format, and keeps a string free of the currency symbol as the model
    sent it. *)
Theorem scalar_amount_shape :
  (forall (fmt : str -> str) (messages : list TelegramMessage) (r : Parser.InvestmentData),
      In r (Parser.extractInvestmentData fmt messages) ->
      Parser.type r <> Parser.roundup ->
      exists a, Parser.amount r = Some (Parser.One a) /\ amountShape fmt a)
  /\ (forall (c a rawText date : str),
      c <> [] -> a <> [] -> no_dollar a = true ->
      includes (toLowerCase rawText) "acquired" = false ->
      includes (toLowerCase rawText) "acquisition" = false ->
      exists r,
        GenAI.standardizeInvestmentData
          (GenAI.JObj [("company" : str, GenAI.JStr c); ("amount" : str, GenAI.JStr a)])
          rawText date false = Ret r
        /\ GenAI.type r = GenAI.investment
        /\ GenAI.company r = GenAI.JStr c
        /\ GenAI.amount r = GenAI.JStr a).
Proof.
  split.
  - intros fmt messages r Hin Htype.
    apply extractInvestmentData_In in Hin. destruct Hin as (_ & message & _ & Hparse).
    apply parseInvestmentData_record in Hparse. destruct Hparse as [Hr | Hs].
    + apply parseWeeklyRoundup_record in Hr. tauto.
    + destruct Hs as (_ & (c & a & _ & _ & Ha & Hshape) & _). eauto.
  - exact standardize_keeps_amount.
Qed.

Lemma scalar_amount_shape_witness :
  Forall (fun r => exists a, Parser.amount r = Some (Parser.One a)
                             /\ amountShape sample_format a)
    (Parser.extractInvestmentData sample_format [messageOf valuation_announcement])
  /\ map Parser.amount
       (Parser.extractInvestmentData sample_format [messageOf valuation_announcement])
     = [Some (Parser.One ("5M" : str))]
  /\ exists r,
       GenAI.standardizeInvestmentData
         (GenAI.JObj [("company" : str, GenAI.JStr "Foo"); ("amount" : str, GenAI.JStr "10M")])
         "Foo closes a Seed Round" "2025-05-01T10:00:00.000Z" false = Ret r
       /\ GenAI.type r = GenAI.investment
       /\ GenAI.company r = GenAI.JStr "Foo"
       /\ GenAI.amount r = GenAI.JStr "10M".
Proof.
  split; [|split; [vm_compute; reflexivity |]].
  - assert (Htypes : Forall (fun r => Parser.type r <> Parser.roundup)
                       (Parser.extractInvestmentData sample_format
                          [messageOf valuation_announcement]))
      by (vm_compute; repeat constructor; discriminate).
    apply List.Forall_forall. intros r Hr.
    apply (proj1 scalar_amount_shape sample_format [messageOf valuation_announcement] r Hr).
    exact (proj1 (List.Forall_forall _ _) Htypes r Hr).
  - apply (proj2 scalar_amount_shape "Foo" "10M" "Foo closes a Seed Round"
             "2025-05-01T10:00:00.000Z");
      first [discriminate | reflexivity].
Defined.

(** C3 as stated fails in both engines: the deterministic engine emits the
    amount 1.2.3M, the AI engine the amount the model spelled in words, and
    neither has the format. *)
Lemma scalar_amount_malformed :
  map (fun r => (Parser.type r, Parser.amount r))
    (Parser.extractInvestmentData sample_format [messageOf dotted_announcement])
  = [(Parser.investment, Some (Parser.One ("1.2.3M" : str)))]
  /\ wellFormedAmount "1.2.3M" = false
  /\ map (fun r => (GenAI.type r, GenAI.amount r))
       (GenAI.extractInvestmentsWithAI sample_parse (answering wordy_json) no_jitter
          [messageOf "Foo closes a Seed Round"] fresh_world)
     = [(GenAI.investment, GenAI.JStr "10 million")]
  /\ wellFormedAmount "10 million" = false.
Proof. vm_compute. repeat split. Qed.





(* ===================================================================== *)
(** * Part III: the rest of the pipeline                                  *)
(* ===================================================================== *)

(** ** Channel names and directories *)

Section ChannelFacts.

Import DataService.

Lemma startsWith_In (p : str) :
  forall s c, startsWith s p = true -> In c p -> In c s.
Proof.
  induction p as [|x p IH]; intros s c; [contradiction |].
  destruct s as [|y s]; cbn [startsWith]; [discriminate |].
  intros H. apply andb_true_iff in H. destruct H as [Hxy Hp].
  apply Ascii.eqb_eq in Hxy. subst y.
  intros [<- | Hc]; [now left | right; exact (IH s c Hp Hc)].
Qed.

Lemma includes_In (p : str) :
  forall s c, includes s p = true -> In c p -> In c s.
Proof.
  induction s as [|y s IH]; intros c; cbn [includes].
  - rewrite orb_false_r. apply startsWith_In.
  - intros H Hc. apply orb_true_iff in H. destruct H as [H | H].
    + exact (startsWith_In p _ c H Hc).
    + right. exact (IH c H Hc).
Qed.

Lemma no_slash_In (s : str) : no_slash s = true -> ~ In "/"%char s.
Proof.
  unfold no_slash. intros H Hin. apply negb_true_iff in H.
  assert (existsb (Ascii.eqb "/"%char) s = true) as E; [|congruence].
  apply existsb_exists. exists "/"%char. split; [exact Hin | apply Ascii.eqb_refl].
Qed.

Lemma In_no_slash (s : str) : ~ In "/"%char s -> no_slash s = true.
Proof.
  unfold no_slash. intros H. apply negb_true_iff.
  destruct (existsb (Ascii.eqb "/"%char) s) eqn:E; [|reflexivity].
  apply existsb_exists in E. destruct E as (c & Hc & Heq).
  apply Ascii.eqb_eq in Heq. subst c. contradiction.
Qed.

Lemma no_slash_includes (s p : str) :
  no_slash s = true -> In "/"%char p -> includes s p = false.
Proof.
  intros Hs Hp. destruct (includes s p) eqn:E; [|reflexivity].
  exfalso. exact (no_slash_In s Hs (includes_In p s _ E Hp)).
Qed.

(** A text without the separator is a single piece. *)
Lemma split_on_none (sep : str) :
  forall s acc, includes s sep = false -> split_on sep 0 s acc = [rev acc ++ s].
Proof.
  induction s as [|x s IH]; intros acc; cbn [split_on includes].
  - now rewrite app_nil_r.
  - intros H. apply orb_false_iff in H. destruct H as [H1 H2].
    rewrite H1, (IH (x :: acc) H2). cbn [rev]. now rewrite <- app_assoc.
Qed.

Lemma split_on_pieces (sep : str) :
  forall s skip acc, exists piece rest, split_on sep skip s acc = piece :: rest.
Proof.
  induction s as [|x s IH]; intros skip acc; cbn [split_on]; [eauto |].
  destruct skip; [|apply IH].
  destruct (startsWith (x :: s) sep); [eauto | apply IH].
Qed.

(** A text with the separator falls into two pieces at least. *)
Lemma split_on_two (sep : str) :
  sep <> [] ->
  forall s acc, includes s sep = true ->
                exists first second rest, split_on sep 0 s acc = first :: second :: rest.
Proof.
  intros Hsep. induction s as [|x s IH]; intros acc; cbn [split_on includes].
  - destruct sep; [contradiction | discriminate].
  - destruct (startsWith (x :: s) sep).
    + intros _. destruct (split_on_pieces sep s (length sep - 1) []) as (piece & rest & ->).
      eauto.
    + cbn [orb]. apply IH.
Qed.

Lemma split_char_none (sep : ascii) :
  forall s, ~ In sep s -> split_char sep s = [s].
Proof.
  induction s as [|x s IH]; intros H; cbn [split_char]; [reflexivity |].
  destruct (Ascii.eqb x sep) eqn:E.
  - apply Ascii.eqb_eq in E. subst x. exfalso. apply H. now left.
  - rewrite IH; [reflexivity |]. intros Hin. apply H. now right.
Qed.

(** The first piece of a split holds no separator. *)
Lemma split_char_hd (sep : ascii) :
  forall s, ~ In sep (hd [] (split_char sep s)).
Proof.
  induction s as [|x s IH]; cbn [split_char]; [cbn; tauto |].
  destruct (Ascii.eqb x sep) eqn:E; [cbn; tauto |].
  destruct (split_char sep s) as [|l ls]; cbn [hd] in *.
  - intros [-> | []]. now rewrite Ascii.eqb_refl in E.
  - intros [-> | Hin]; [now rewrite Ascii.eqb_refl in E | exact (IH Hin)].
Qed.

Lemma afterMarker_returns (channel marker : str) :
  marker <> [] -> includes channel marker = true ->
  exists id, afterMarker channel marker = Ret id /\ no_slash id = true.
Proof.
  intros Hm Hinc. unfold afterMarker, split_str.
  destruct (split_on_two marker Hm channel [] Hinc) as (first & second & rest & ->).
  cbn [nth_error]. eexists. split; [reflexivity |].
  apply In_no_slash. apply split_char_hd.
Qed.

Lemma no_slash_skipn (n : nat) (s : str) : no_slash s = true -> no_slash (skipn n s) = true.
Proof.
  intros H. apply In_no_slash. intros Hin. apply (no_slash_In s H).
  rewrite <- (firstn_skipn n s). apply in_or_app. now right.
Qed.

Lemma extractChannelId_total (channel : str) :
  exists id, extractChannelId channel = Ret id
             /\ (includes channel "t.me/" || includes channel "telegram.me/" = true ->
                 no_slash id = true).
Proof.
  unfold extractChannelId.
  destruct (includes channel "t.me/") eqn:E1.
  - destruct (afterMarker_returns channel "t.me/" ltac:(discriminate) E1) as (id & -> & Hid).
    cbn [js_bind]. eexists. split; [reflexivity |]. intros _.
    destruct (startsWith id "@"); [now apply no_slash_skipn | exact Hid].
  - destruct (includes channel "telegram.me/") eqn:E2.
    + destruct (afterMarker_returns channel "telegram.me/" ltac:(discriminate) E2)
        as (id & -> & Hid).
      cbn [js_bind]. eexists. split; [reflexivity |]. intros _.
      destruct (startsWith id "@"); [now apply no_slash_skipn | exact Hid].
    + cbn [js_bind]. eexists. split; [reflexivity | discriminate].
Qed.

Lemma startsWith_nil (s : str) : startsWith s [] = true.
Proof. destruct s; reflexivity. Qed.

Lemma filename_char_underscore : is_filename_char "_"%char = true.
Proof. reflexivity. Qed.

Lemma sanitizeFilename_chars (filename : str) :
  forallb is_filename_char (sanitizeFilename filename) = true.
Proof.
  induction filename as [|c filename IH]; [reflexivity |].
  cbn [sanitizeFilename map forallb]. fold (sanitizeFilename filename). rewrite IH, andb_true_r.
  destruct (is_filename_char c) eqn:E; [exact E | reflexivity].
Qed.

(** X1: [sanitizeFilename] yields a name of the same length made only of
    letters, digits, underscores and hyphens; a second pass changes
    nothing. *)
Theorem sanitizeFilename_safe (filename : str) :
  forallb is_filename_char (sanitizeFilename filename) = true
  /\ length (sanitizeFilename filename) = length filename
  /\ sanitizeFilename (sanitizeFilename filename) = sanitizeFilename filename
  /\ no_slash (sanitizeFilename filename) = true
  /\ ~ In "."%char (sanitizeFilename filename).
Proof.
  pose proof (sanitizeFilename_chars filename) as Hsafe.
  repeat split.
  - exact Hsafe.
  - apply length_map.
  - unfold sanitizeFilename. rewrite map_map. apply map_ext. intros c.
    destruct (is_filename_char c) eqn:E; [now rewrite E | reflexivity].
  - apply In_no_slash. intros Hin.
    rewrite forallb_forall in Hsafe. now specialize (Hsafe _ Hin).
  - intros Hin. rewrite forallb_forall in Hsafe. now specialize (Hsafe _ Hin).
Qed.

(** X2: [extractChannelId] returns for every channel text.  From a text
    that holds [t.me/] or [telegram.me/] it returns a name without path
    separator; any other text is returned as it is, less one leading [@]. *)
Theorem extractChannelId_returns (channel : str) :
  exists id,
    extractChannelId channel = Ret id
    /\ (includes channel "t.me/" || includes channel "telegram.me/" = true ->
        no_slash id = true)
    /\ (includes channel "t.me/" || includes channel "telegram.me/" = false ->
        id = if startsWith channel "@" then skipn 1 channel else channel).
Proof.
  destruct (extractChannelId_total channel) as (id & Hid & Hslash).
  exists id. repeat split; [exact Hid | exact Hslash |].
  intros H. apply orb_false_iff in H. destruct H as [H1 H2].
  unfold extractChannelId in Hid. rewrite H1, H2 in Hid. cbn [js_bind] in Hid.
  now injection Hid as <-.
Qed.

(** X3: whatever the channel text, [getChannelDirectory] returns [data]
    itself or a direct child of [data] whose name is made only of letters,
    digits, underscores and hyphens. *)
Theorem getChannelDirectory_flat (channel : str) :
  exists name,
    getChannelDirectory channel = Ret (joinData name)
    /\ forallb is_filename_char name = true
    /\ (name = [] /\ joinData name = "data"
        \/ name <> [] /\ joinData name = "data/" ++ name).
Proof.
  destruct (extractChannelId_total channel) as (id & Hid & _).
  exists (sanitizeFilename id). unfold getChannelDirectory. rewrite Hid. cbn [js_bind].
  repeat split; [apply sanitizeFilename_chars |].
  destruct (sanitizeFilename id); [left | right]; split; try reflexivity. discriminate.
Qed.

(** X4: a channel given by its bare name, with a leading [@], or as a
    [t.me] or [telegram.me] address yields the same identifier, the bare
    name. *)
Theorem channel_forms_agree (name : str) :
  no_slash name = true -> startsWith name "@" = false ->
  extractChannelId name = Ret name
  /\ extractChannelId ("@" ++ name) = Ret name
  /\ extractChannelId ("https://t.me/" ++ name) = Ret name
  /\ extractChannelId ("t.me/" ++ name) = Ret name
  /\ extractChannelId ("https://telegram.me/" ++ name) = Ret name
  /\ extractChannelId ("https://t.me/@" ++ name) = Ret name.
Proof.
  intros Hs Ha.
  assert (Hn : ~ In "/"%char name) by now apply no_slash_In.
  assert (H1 : includes name "t.me/" = false) by (apply no_slash_includes; cbn; tauto).
  assert (H2 : includes name "telegram.me/" = false) by (apply no_slash_includes; cbn; tauto).
  assert (Hat : ~ In "/"%char ("@" ++ name)).
  { cbn. intros [H | H]; [discriminate H | contradiction]. }
  assert (H1' := H1). assert (H2' := H2). assert (Ha' := Ha). cbn in H1', H2', Ha'.
  repeat split; unfold extractChannelId, afterMarker, split_str; cbn;
    rewrite ?startsWith_nil; cbn.
  - rewrite H1', H2'. cbn. now rewrite Ha'.
  - rewrite H1', H2'. cbn. now rewrite startsWith_nil.
  - erewrite split_on_none; [|exact H1]. cbn.
    rewrite (split_char_none _ name Hn). cbn. now rewrite Ha'.
  - erewrite split_on_none; [|exact H1]. cbn.
    rewrite (split_char_none _ name Hn). cbn. now rewrite Ha'.
  - rewrite H1'. cbn. erewrite split_on_none; [|exact H2]. cbn.
    rewrite (split_char_none _ name Hn). cbn. now rewrite Ha'.
  - erewrite split_on_none; [|exact H1]. cbn.
    rewrite (split_char_none _ name Hn). cbn. now rewrite startsWith_nil.
Qed.

Lemma channel_forms_agree_witness :
  extractChannelId "https://t.me/cryptorank_fundraising" = Ret ("cryptorank_fundraising" : str)
  /\ extractChannelId "@cryptorank_fundraising" = Ret ("cryptorank_fundraising" : str).
Proof.
  pose proof (channel_forms_agree "cryptorank_fundraising" eq_refl eq_refl) as H.
  split; [exact (proj1 (proj2 (proj2 H))) | exact (proj1 (proj2 H))].
Defined.

End ChannelFacts.

(** ** Records grouped by company *)

Section GroupingFacts.

Import DataService.

Lemma str_eqb_eq (a b : str) : str_eqb a b = true <-> a = b.
Proof.
  revert b. induction a as [|x a IH]; intros [|y b]; cbn [str_eqb]; try easy.
  rewrite andb_true_iff, Ascii.eqb_eq, IH. split; [now intros [-> ->] | now intros [= -> ->]].
Qed.

Lemma str_eqb_refl (a : str) : str_eqb a a = true.
Proof. now apply str_eqb_eq. Qed.

Lemma str_eqb_neq (a b : str) : a <> b -> str_eqb a b = false.
Proof.
  intros H. destruct (str_eqb a b) eqn:E; [|reflexivity].
  apply str_eqb_eq in E. contradiction.
Qed.

Lemma addMentions_app (ps qs : list (str * Parser.InvestmentData)) :
  forall acc, addMentions (ps ++ qs) acc = do acc' <- addMentions ps acc; addMentions qs acc'.
Proof.
  induction ps as [|[c r] ps IH]; intros acc; cbn [app addMentions]; [reflexivity |].
  destruct (addUnder r acc c); cbn [js_bind]; [apply IH | reflexivity].
Qed.

Lemma addUnderEach_mentions (r : Parser.InvestmentData) (names : list str) :
  forall acc, addUnderEach r acc names = addMentions (map (fun c => (c, r)) names) acc.
Proof.
  induction names as [|c names IH]; intros acc; cbn [addUnderEach map addMentions];
    [reflexivity |].
  destruct (addUnder r acc c); cbn [js_bind]; [apply IH | reflexivity].
Qed.

Lemma groupByCompany_mentions (investments : list Parser.InvestmentData) :
  forall acc, groupByCompany investments acc = addMentions (mentions investments) acc.
Proof.
  induction investments as [|r rest IH]; intros acc; [reflexivity |].
  cbn [groupByCompany]. unfold mentions. cbn [flat_map]. fold (mentions rest).
  rewrite addMentions_app, addUnderEach_mentions.
  destruct (addMentions _ acc); cbn [js_bind]; [apply IH | reflexivity].
Qed.

Lemma addUnder_returns (r : Parser.InvestmentData) (acc acc' : byCompany) (c0 : str) :
  populated acc -> ownNames acc -> addUnder r acc c0 = Ret acc' ->
  populated acc' /\ ownNames acc'
  /\ arr_includes inheritedNames c0 = false
  /\ acc' !! [] = acc !! []
  /\ forall c, c <> [] ->
               acc' !! c
               = nonEmptyList (default [] (acc !! c) ++ if str_eqb c c0 then [r] else []).
Proof.
  intros Hpop Hown. unfold addUnder.
  assert (Hsame : forall c, acc !! c = nonEmptyList (default [] (acc !! c) ++ [])).
  { intros c. rewrite app_nil_r. specialize (Hpop c).
    destruct (acc !! c) as [[|x l]|]; cbn; congruence. }
  destruct c0 as [|x c0].
  { intros [= <-]. repeat split; auto.
    intros c Hc. rewrite str_eqb_neq by exact Hc. apply Hsame. }
  destruct (acc !! (x :: c0)) as [listed|] eqn:E.
  - intros [= <-]. repeat split.
    + intros c. destruct (decide (c = x :: c0)) as [-> | Hne].
      * rewrite lookup_insert_eq. destruct listed; discriminate.
      * rewrite lookup_insert_ne by congruence. apply Hpop.
    + intros c Hc. destruct (decide (c = x :: c0)) as [-> | Hne].
      * rewrite (Hown _ Hc) in E. discriminate.
      * rewrite lookup_insert_ne by congruence. now apply Hown.
    + destruct (arr_includes inheritedNames (x :: c0)) eqn:Ei; [|reflexivity].
      rewrite (Hown _ Ei) in E. discriminate.
    + now rewrite lookup_insert_ne.
    + intros c _. destruct (decide (c = x :: c0)) as [-> | Hne].
      * rewrite lookup_insert_eq, E, str_eqb_refl. cbn [default].
        destruct listed; reflexivity.
      * rewrite lookup_insert_ne by congruence. rewrite str_eqb_neq by exact Hne.
        apply Hsame.
  - destruct (arr_includes inheritedNames (x :: c0)) eqn:Ei; [discriminate |].
    intros [= <-]. repeat split.
    + intros c. destruct (decide (c = x :: c0)) as [-> | Hne].
      * rewrite lookup_insert_eq. discriminate.
      * rewrite lookup_insert_ne by congruence. apply Hpop.
    + intros c Hc. destruct (decide (c = x :: c0)) as [-> | Hne]; [congruence |].
      rewrite lookup_insert_ne by congruence. now apply Hown.
    + now rewrite lookup_insert_ne.
    + intros c _. destruct (decide (c = x :: c0)) as [-> | Hne].
      * now rewrite lookup_insert_eq, E, str_eqb_refl.
      * rewrite lookup_insert_ne by congruence. rewrite str_eqb_neq by exact Hne.
        apply Hsame.
Qed.

Lemma addUnder_raises (r : Parser.InvestmentData) (acc : byCompany) (c0 : str) :
  ownNames acc ->
  (addUnder r acc c0 = Throw <-> arr_includes inheritedNames c0 = true).
Proof.
  intros Hown. unfold addUnder. destruct c0 as [|x c0]; [easy |].
  destruct (acc !! (x :: c0)) as [listed|] eqn:E.
  - split; [discriminate |]. intros Hi. rewrite (Hown _ Hi) in E. discriminate.
  - destruct (arr_includes inheritedNames (x :: c0)); easy.
Qed.

Lemma nonEmptyList_app (a b : list Parser.InvestmentData) :
  nonEmptyList (default [] (nonEmptyList a) ++ b) = nonEmptyList (a ++ b).
Proof. destruct a; reflexivity. Qed.

Lemma addMentions_returns (ps : list (str * Parser.InvestmentData)) :
  forall acc g,
    populated acc -> ownNames acc -> addMentions ps acc = Ret g ->
    Forall (fun p => arr_includes inheritedNames (fst p) = false) ps
    /\ g !! [] = acc !! []
    /\ forall c, c <> [] ->
                 g !! c
                 = nonEmptyList (default [] (acc !! c)
                                 ++ map snd (List.filter (fun p => str_eqb c (fst p)) ps)).
Proof.
  induction ps as [|[c0 r] ps IH]; intros acc g Hpop Hown; cbn [addMentions].
  - intros [= <-]. repeat split; [constructor |].
    intros c _. cbn. rewrite app_nil_r. specialize (Hpop c).
    destruct (acc !! c) as [[|x l]|]; cbn; congruence.
  - destruct (addUnder r acc c0) as [acc1|] eqn:E; cbn [js_bind]; [|discriminate].
    destruct (addUnder_returns r acc acc1 c0 Hpop Hown E)
      as (Hpop1 & Hown1 & Hc0 & Hnil1 & Hstep).
    intros Hg. destruct (IH acc1 g Hpop1 Hown1 Hg) as (Hall & Hnil & Hrest).
    repeat split.
    + constructor; [exact Hc0 | exact Hall].
    + now rewrite Hnil.
    + intros c Hc. rewrite (Hrest c Hc), (Hstep c Hc), nonEmptyList_app, <- app_assoc.
      cbn [List.filter fst]. destruct (str_eqb c c0); reflexivity.
Qed.

Lemma addMentions_raises (ps : list (str * Parser.InvestmentData)) :
  forall acc,
    populated acc -> ownNames acc ->
    (addMentions ps acc = Throw <->
     Exists (fun p => arr_includes inheritedNames (fst p) = true) ps).
Proof.
  induction ps as [|[c0 r] ps IH]; intros acc Hpop Hown; cbn [addMentions].
  - split; [discriminate | intros H; inversion H].
  - destruct (addUnder r acc c0) as [acc1|] eqn:E; cbn [js_bind].
    + destruct (addUnder_returns r acc acc1 c0 Hpop Hown E) as (Hpop1 & Hown1 & Hc0 & _).
      rewrite (IH acc1 Hpop1 Hown1). split; [now right |].
      intros H. inversion H as [? ? Hhd | ? ? Htl]; subst; [|exact Htl].
      cbn [fst] in Hhd. congruence.
    + split; [|reflexivity]. intros _. left. cbn [fst].
      now apply (addUnder_raises r acc c0 Hown).
Qed.

Lemma mentions_In (investments : list Parser.InvestmentData) (c : str)
    (r : Parser.InvestmentData) :
  In (c, r) (mentions investments) <-> In r investments /\ In c (companyNames r).
Proof.
  unfold mentions. rewrite in_flat_map. split.
  - intros (r' & Hr' & Hin). apply in_map_iff in Hin. destruct Hin as (c' & [= <- <-] & Hc).
    auto.
  - intros [Hr Hc]. exists r. split; [exact Hr |]. apply in_map_iff. eauto.
Qed.

(** X5: the grouping of [saveInvestmentData] raises exactly when some
    record carries a company name that every object inherits, such as
    [constructor] or [toString]; otherwise each non-empty company name
    mentioned leads to the records that mention it, once per mention and
    in the order of the input, and no other key is set. *)
Theorem investmentsByCompany_groups (investments : list Parser.InvestmentData) :
  (investmentsByCompany investments = Throw <->
   exists r c, In r investments /\ In c (companyNames r)
               /\ arr_includes inheritedNames c = true)
  /\ (forall g, investmentsByCompany investments = Ret g ->
                g !! [] = None
                /\ forall c, c <> [] ->
                             g !! c = match recordsNaming c investments with
                                      | [] => None
                                      | l => Some l
                                      end).
Proof.
  unfold investmentsByCompany. rewrite groupByCompany_mentions.
  assert (Hpop : populated (∅ : byCompany)) by (intros c; now rewrite lookup_empty).
  assert (Hown : ownNames (∅ : byCompany)) by (intros c _; apply lookup_empty).
  split.
  - rewrite (addMentions_raises _ ∅ Hpop Hown), List.Exists_exists. split.
    + intros ([c r] & Hin & Hc). apply mentions_In in Hin. exists r, c. tauto.
    + intros (r & c & Hr & Hc & Hi). exists (c, r). split; [|exact Hi].
      apply mentions_In. auto.
  - intros g Hg. destruct (addMentions_returns _ ∅ g Hpop Hown Hg) as (_ & Hnil & Hrest).
    split; [now rewrite Hnil, lookup_empty |].
    intros c Hc. rewrite (Hrest c Hc), lookup_empty. unfold recordsNaming. cbn [default app].
    now destruct (map snd _).
Qed.

(** A message that starts with the word [constructor] yields a record of
    that company, and the grouping of that record raises. *)
Example grouping_raises_on_inherited_name :
  map Parser.company
    (Parser.extractInvestmentData sample_format [messageOf inherited_announcement])
  = [Parser.One ("constructor" : str)]
  /\ investmentsByCompany
       (Parser.extractInvestmentData sample_format [messageOf inherited_announcement])
     = Throw.
Proof. vm_compute. split; reflexivity. Qed.

End GroupingFacts.

(** ** Bulk processing *)

Section BulkFacts.

Import Bulk.

Lemma splitBatches_spec (fuel : nat) :
  forall i messages,
    length messages <= i + fuel * BATCH_SIZE ->
    concat (splitBatches fuel i messages) = skipn i messages
    /\ Forall (fun b => 1 <= length b <= BATCH_SIZE) (splitBatches fuel i messages)
    /\ length (splitBatches fuel i messages) = (length messages - i + 24) / 25
    /\ (forall k, S k < length (splitBatches fuel i messages) ->
                  length (nth k (splitBatches fuel i messages) []) = BATCH_SIZE).
Proof.
  induction fuel as [|fuel IH]; intros i messages Hfuel; cbn [splitBatches];
    change BATCH_SIZE with 25 in *.
  - rewrite skipn_all2 by lia. repeat split; [constructor | | cbn; lia].
    replace (length messages - i + 24) with 24 by lia. reflexivity.
  - destruct (Nat.ltb i (length messages)) eqn:E.
    + apply Nat.ltb_lt in E.
      destruct (IH (i + 25) messages ltac:(lia)) as (Hcat & Hsize & Hlen & Hfull).
      unfold GenAI.slice. replace (i + 25 - i) with 25 by lia.
      repeat split.
      * cbn [concat]. rewrite Hcat.
        replace (i + 25) with (25 + i) by lia. rewrite <- skipn_skipn.
        apply firstn_skipn.
      * constructor; [|exact Hsize].
        rewrite length_firstn, length_skipn. lia.
      * cbn [length]. rewrite Hlen.
        destruct (Nat.le_gt_cases (length messages - i) 25) as [Hle | Hgt].
        -- replace (length messages - (i + 25) + 24) with 24 by lia.
           change (24 / 25) with 0.
           apply Nat.div_unique with (r := length messages - i - 1); lia.
        -- replace (length messages - i + 24)
             with (length messages - (i + 25) + 24 + 1 * 25) by lia.
           rewrite Nat.div_add by lia. lia.
      * intros k Hk. cbn [length] in Hk. destruct k as [|k]; cbn [nth].
        -- rewrite length_firstn, length_skipn.
           destruct (splitBatches fuel (i + 25) messages) as [|b bs] eqn:Eb;
             [cbn in Hk; lia |].
           assert (Hb : 0 < (length messages - (i + 25) + 24) / 25)
             by (rewrite <- Hlen; cbn; lia).
           assert (25 <= length messages - (i + 25) + 24).
           { destruct (Nat.lt_ge_cases (length messages - (i + 25) + 24) 25) as [Hlt | Hge];
               [|exact Hge].
             rewrite Nat.div_small in Hb by exact Hlt. lia. }
           lia.
        -- apply Hfull. lia.
    + apply Nat.ltb_ge in E. rewrite skipn_all2 by lia.
      repeat split; [constructor | | cbn; lia].
      replace (length messages - i + 24) with 24 by lia. reflexivity.
Qed.

Lemma batchesOf_concat (messages : list TelegramMessage) :
  concat (batchesOf messages) = messages.
Proof.
  destruct (splitBatches_spec (S (length messages)) 0 messages) as (H1 & _).
  { unfold BATCH_SIZE. lia. }
  exact H1.
Qed.

(** X6: the batches of [processBulkMessages] are the messages cut in order
    into runs of 25: put end to end they give the messages back, none is
    empty or longer than 25, every batch but the last holds exactly 25, and
    there are as many as the length divided by 25, rounded up. *)
Theorem batchesOf_partition (messages : list TelegramMessage) :
  concat (batchesOf messages) = messages
  /\ Forall (fun b => 1 <= length b <= 25) (batchesOf messages)
  /\ length (batchesOf messages) = (length messages + 24) / 25
  /\ (forall k, S k < length (batchesOf messages) ->
                length (nth k (batchesOf messages) []) = 25).
Proof.
  destruct (splitBatches_spec (S (length messages)) 0 messages) as (H1 & H2 & H3 & H4).
  { unfold BATCH_SIZE. lia. }
  unfold batchesOf. rewrite Nat.sub_0_r in H3. auto.
Qed.

Lemma backoff_floor (d : Q) :
  (DELAY_BETWEEN_BATCHES <= d)%Q -> (DELAY_BETWEEN_BATCHES <= d * PROGRESSIVE_BACKOFF)%Q.
Proof.
  destruct d as [n den]. unfold Qle, DELAY_BETWEEN_BATCHES, PROGRESSIVE_BACKOFF. cbn.
  rewrite Pos2Z.inj_mul. lia.
Qed.

Section Run.

Variable attempt : nat -> list TelegramMessage -> bool.

Lemma tryBatch_unhurried (fuel : nat) :
  forall retryCount i batch p,
    unhurried p -> unhurried (tryBatch attempt fuel retryCount i batch p).
Proof.
  induction fuel as [|fuel IH]; intros retryCount i batch p Hp; cbn [tryBatch]; [exact Hp |].
  destruct (Nat.ltb retryCount MAX_RETRIES_PER_BATCH); [|exact Hp].
  destruct Hp as [Hd Hs].
  destruct (attempt (attempts p) batch).
  - split; cbn [currentDelay sleeps]; [apply Q.le_max_l | exact Hs].
  - apply IH. split; cbn [currentDelay sleeps]; [now apply backoff_floor |].
    destruct (Nat.leb MAX_RETRIES_PER_BATCH (S retryCount)); [exact Hs |].
    apply Forall_app. split; [exact Hs |]. constructor; [now apply backoff_floor | constructor].
Qed.

Lemma processBatches_unhurried (batches : list (list TelegramMessage)) :
  forall i p, unhurried p -> unhurried (processBatches attempt i batches p).
Proof.
  induction batches as [|batch rest IH]; intros i p Hp; cbn [processBatches]; [exact Hp |].
  pose proof (tryBatch_unhurried (S MAX_RETRIES_PER_BATCH) 0 i batch p Hp) as [Hd Hs].
  apply IH. destruct rest; [now split |].
  split; cbn [currentDelay sleeps]; [exact Hd |].
  apply Forall_app. split; [exact Hs |]. constructor; [exact Hd | constructor].
Qed.

(** What one batch costs: between one and three attempts, all logged
    under its index, and its messages are counted when, and only when, one
    attempt went through; three failures leave the count as it was. *)
Lemma tryBatch_counts (i : nat) (batch : list TelegramMessage) (p : progress) :
  let p' := tryBatch attempt (S MAX_RETRIES_PER_BATCH) 0 i batch p in
  exists n,
    1 <= n <= 3
    /\ attempted p' = attempted p ++ repeat i n
    /\ (processedCount p' = processedCount p + length batch
        \/ processedCount p' = processedCount p /\ n = 3).
Proof.
  cbn [tryBatch MAX_RETRIES_PER_BATCH Nat.ltb Nat.leb].
  repeat match goal with
         | |- context [if attempt ?n batch then _ else _] => destruct (attempt n batch)
         end; cbn [attempted processedCount].
  all: [> exists 1 | exists 2 | exists 3 | exists 3]; rewrite <- ?app_assoc;
    (split; [lia |]); (split; [reflexivity |]);
    first [left; reflexivity | right; split; reflexivity].
Qed.

Lemma processBatches_counts (batches : list (list TelegramMessage)) :
  forall i p,
    let p' := processBatches attempt i batches p in
    exists counts,
      length counts = length batches
      /\ List.Forall (fun n => 1 <= n <= 3) counts
      /\ attempted p' = attempted p ++ attemptLog i counts
      /\ processedCount p <= processedCount p'
         <= processedCount p + length (concat batches).
Proof.
  induction batches as [|batch rest IH]; intros i p; cbn [processBatches length concat].
  - cbn zeta. exists []. cbn. rewrite app_nil_r. repeat split; [constructor | lia | lia].
  - destruct (tryBatch_counts i batch p) as (n & Hn & Hlog & Hcount).
    set (p1 := tryBatch attempt (S MAX_RETRIES_PER_BATCH) 0 i batch p) in *.
    match goal with |- context [processBatches attempt (S i) rest ?q] =>
      destruct (IH (S i) q) as (counts & Hlen & Hall & Hrest & Hsum)
    end.
    cbn zeta. exists (n :: counts). cbn [length attemptLog]. rewrite length_app.
    repeat split.
    + now rewrite Hlen.
    + now constructor.
    + rewrite Hrest. destruct rest; cbn [attempted]; now rewrite Hlog, <- app_assoc.
    + destruct rest; cbn [processedCount] in Hsum; lia.
    + destruct rest; cbn [processedCount] in Hsum; lia.
Qed.

End Run.

Lemma count_occ_repeat (i j n : nat) :
  count_occ Nat.eq_dec (repeat i n) j = if Nat.eqb i j then n else 0.
Proof.
  induction n as [|n IH]; cbn [repeat count_occ]; [now destruct (Nat.eqb i j) |].
  destruct (Nat.eq_dec i j) as [-> | Hne].
  - rewrite IH, Nat.eqb_refl. reflexivity.
  - rewrite IH. apply Nat.eqb_neq in Hne. now rewrite Hne.
Qed.

(** In such a log batch [j] occurs as often as its number of attempts, and
    no index outside the batches occurs. *)
Lemma attemptLog_count (counts : list nat) :
  forall i j,
    count_occ Nat.eq_dec (attemptLog i counts) j
    = if Nat.leb i j then nth (j - i) counts 0 else 0.
Proof.
  induction counts as [|n counts IH]; intros i j; cbn [attemptLog].
  - cbn. destruct (Nat.leb i j); [now destruct (j - i) | reflexivity].
  - rewrite count_occ_app, count_occ_repeat, IH.
    destruct (Nat.eqb i j) eqn:E.
    + apply Nat.eqb_eq in E. subst j. rewrite Nat.leb_refl, Nat.sub_diag.
      replace (Nat.leb (S i) i) with false by (symmetry; apply Nat.leb_gt; lia).
      cbn [nth]. lia.
    + apply Nat.eqb_neq in E. destruct (Nat.leb i j) eqn:Hle.
      * apply Nat.leb_le in Hle.
        replace (Nat.leb (S i) j) with true by (symmetry; apply Nat.leb_le; lia).
        replace (j - i) with (S (j - S i)) by lia. reflexivity.
      * apply Nat.leb_gt in Hle.
        replace (Nat.leb (S i) j) with false by (symmetry; apply Nat.leb_gt; lia).
        reflexivity.
Qed.

(** X7: throughout a run of [processBulkMessages], whatever happens before
    the loop, the delay in force never falls below the 5000 ms between
    batches, and every wait, whether after a failed attempt or between two
    batches, lasts 5000 ms or more. *)
Theorem bulk_waits_floor (attempt : nat -> list TelegramMessage -> bool)
    (prelude : js (list TelegramMessage)) :
  (5000 <= currentDelay (processBulkMessages attempt prelude))%Q
  /\ Forall (fun d => (5000 <= d)%Q) (sleeps (processBulkMessages attempt prelude)).
Proof.
  assert (Hstart : unhurried start) by (split; [apply Qle_refl | constructor]).
  destruct prelude as [messages|]; cbn [processBulkMessages]; [|exact Hstart].
  exact (processBatches_unhurried attempt (batchesOf messages) 0 start Hstart).
Qed.

(** X8: when what comes before the loop raises, [processBulkMessages]
    attempts no batch, counts nothing and sleeps no wait.  When it yields
    the messages, every batch is tried at least once and at most three
    times, nothing else is tried, and no more messages are counted as
    processed than were fetched. *)
Theorem bulk_attempts_bounded (attempt : nat -> list TelegramMessage -> bool)
    (prelude : js (list TelegramMessage)) :
  (prelude = Throw ->
   attempted (processBulkMessages attempt prelude) = []
   /\ processedCount (processBulkMessages attempt prelude) = 0
   /\ sleeps (processBulkMessages attempt prelude) = [])
  /\ (forall messages,
        prelude = Ret messages ->
        (forall i, i < length (batchesOf messages) ->
                   1 <= count_occ Nat.eq_dec
                          (attempted (processBulkMessages attempt prelude)) i <= 3)
        /\ (forall i, In i (attempted (processBulkMessages attempt prelude)) ->
                      i < length (batchesOf messages))
        /\ processedCount (processBulkMessages attempt prelude) <= length messages).
Proof.
  split; [intros ->; repeat split |].
  intros messages ->. cbn [processBulkMessages].
  destruct (processBatches_counts attempt (batchesOf messages) 0 start)
    as (counts & Hlen & Hall & Hlog & Hcount).
  cbn [start attempted processedCount app Nat.add] in Hlog, Hcount.
  rewrite (batchesOf_concat messages) in Hcount. rewrite Hlog.
  assert (Hocc : forall i, count_occ Nat.eq_dec (attemptLog 0 counts) i = nth i counts 0).
  { intros i. rewrite attemptLog_count. cbn [Nat.leb]. now rewrite Nat.sub_0_r. }
  rewrite List.Forall_forall in Hall.
  split; [|split].
  - intros i Hi. rewrite Hocc. apply Hall, nth_In. lia.
  - intros i Hin. apply (count_occ_In Nat.eq_dec) in Hin. rewrite Hocc in Hin.
    destruct (Nat.lt_ge_cases i (length counts)) as [Hlt | Hge]; [lia |].
    rewrite nth_overflow in Hin by exact Hge. lia.
  - lia.
Qed.

Lemma bulk_attempts_bounded_witness :
  count_occ Nat.eq_dec
    (attempted (processBulkMessages (fun n _ => negb (Nat.eqb n 1) && negb (Nat.eqb n 2))
                  (Ret sixty_messages))) 1 <= 3
  /\ processedCount (processBulkMessages (fun n _ => negb (Nat.eqb n 1) && negb (Nat.eqb n 2))
                       (Ret sixty_messages)) <= 60
  /\ attempted (processBulkMessages always_through Throw) = [].
Proof.
  destruct (bulk_attempts_bounded (fun n _ => negb (Nat.eqb n 1) && negb (Nat.eqb n 2))
              (Ret sixty_messages)) as [_ Hruns].
  destruct (Hruns sixty_messages eq_refl) as (Hcount & _ & Hprocessed).
  split; [exact (proj2 (Hcount 1 ltac:(vm_compute; lia))) |].
  split; [exact Hprocessed |].
  exact (proj1 (proj1 (bulk_attempts_bounded always_through Throw) eq_refl)).
Defined.

Lemma processBatches_through (attempt : nat -> list TelegramMessage -> bool)
    (batches : list (list TelegramMessage)) :
  (forall n batch, attempt n batch = true) ->
  forall i p,
    currentDelay p = DELAY_BETWEEN_BATCHES ->
    processBatches attempt i batches p
    = {| currentDelay := DELAY_BETWEEN_BATCHES;
         processedCount := processedCount p + length (concat batches);
         attempted := attempted p ++ seq i (length batches);
         sleeps := sleeps p ++ repeat DELAY_BETWEEN_BATCHES (length batches - 1) |}.
Proof.
  intros Hok. induction batches as [|batch rest IH]; intros i p Hp;
    cbn [processBatches concat length seq].
  - destruct p as [d c a s]. cbn in *. subst d. now rewrite !Nat.add_0_r, !app_nil_r.
  - cbn [tryBatch MAX_RETRIES_PER_BATCH Nat.ltb Nat.leb]. rewrite Hok, Hp.
    change (Qmax DELAY_BETWEEN_BATCHES (DELAY_BETWEEN_BATCHES / PROGRESSIVE_BACKOFF))
      with DELAY_BETWEEN_BATCHES.
    destruct rest as [|batch' rest].
    + cbn. now rewrite !app_nil_r.
    + rewrite IH by reflexivity. cbn [currentDelay processedCount attempted sleeps].
      f_equal.
      * rewrite length_app. cbn [concat]. rewrite !length_app. lia.
      * now rewrite <- app_assoc.
      * rewrite <- app_assoc. cbn [length Nat.sub app repeat]. now rewrite Nat.sub_0_r.
Qed.

(** X9: when what comes before the loop yields the messages and every
    attempt goes through, [processBulkMessages] makes one attempt per
    batch, in order, counts every message as processed, keeps the delay at
    5000 ms and sleeps exactly that long between two batches, and not
    after the last. *)
Theorem bulk_all_through (attempt : nat -> list TelegramMessage -> bool)
    (prelude : js (list TelegramMessage)) (messages : list TelegramMessage) :
  prelude = Ret messages ->
  (forall n batch, attempt n batch = true) ->
  processedCount (processBulkMessages attempt prelude) = length messages
  /\ attempted (processBulkMessages attempt prelude) = seq 0 (length (batchesOf messages))
  /\ sleeps (processBulkMessages attempt prelude)
     = repeat 5000%Q (length (batchesOf messages) - 1)
  /\ currentDelay (processBulkMessages attempt prelude) = 5000%Q.
Proof.
  intros -> Hok. cbn [processBulkMessages].
  rewrite (processBatches_through attempt (batchesOf messages) Hok 0 start eq_refl).
  cbn [processedCount attempted sleeps currentDelay start app Nat.add].
  rewrite batchesOf_concat. auto.
Qed.

Lemma bulk_all_through_witness :
  processedCount (processBulkMessages always_through (Ret sixty_messages)) = 60
  /\ attempted (processBulkMessages always_through (Ret sixty_messages)) = [0; 1; 2]
  /\ sleeps (processBulkMessages always_through (Ret sixty_messages)) = [5000%Q; 5000%Q].
Proof.
  destruct (bulk_all_through always_through (Ret sixty_messages) sixty_messages eq_refl
              (fun _ _ => eq_refl)) as (H1 & H2 & H3 & _).
  split; [exact H1 | split; [exact H2 | exact H3]].
Defined.

(** A run whose second batch fails twice before it goes through, and a run
    whose prelude raises. *)
Example bulk_runs :
  attempted (processBulkMessages (fun n _ => negb (Nat.eqb n 1) && negb (Nat.eqb n 2))
               (Ret sixty_messages)) = [0; 1; 1; 1; 2]
  /\ attempted (processBulkMessages always_through Throw) = [].
Proof. vm_compute. split; reflexivity. Qed.

End BulkFacts.

(** ** Fetching the messages of a channel *)

Section FetchFacts.

Import Telegram.

Variable getMessages : nat -> nat -> Z -> answer.
Variable toISOString : Z -> js str.

Lemma toMessage_kept (message : ApiMessage) (m : TelegramMessage) :
  api_message message <> [] -> toMessage toISOString message = Ret m -> keptText m.
Proof.
  intros Hne. unfold toMessage.
  destruct (toISOString _) as [date|]; cbn [js_bind]; [|discriminate].
  intros [= <-]. unfold keptText, substring. cbn [msg_text skipn].
  rewrite length_firstn, Nat.sub_0_r.
  destruct (api_message message); [contradiction | cbn [skipn length]; lia].
Qed.

Lemma readBatch_kept (result : list ApiMessage) :
  forall offset acc batch offset',
    Forall keptText acc ->
    readBatch toISOString result offset acc = Ret (batch, offset') ->
    Forall keptText batch /\ length batch <= length acc + length result.
Proof.
  induction result as [|message rest IH]; intros offset acc batch offset' Hacc;
    cbn [readBatch].
  - intros [= <- <-]. split; [exact Hacc | cbn; lia].
  - destruct (api_message message) as [|x s] eqn:E.
    + intros H. destruct (IH _ _ _ _ Hacc H) as [H1 H2]. split; [exact H1 | cbn; lia].
    + destruct (toMessage toISOString message) as [converted|] eqn:Ec; cbn [js_bind];
        [|discriminate].
      intros H.
      assert (Hk : keptText converted).
      { apply (toMessage_kept message); [rewrite E; discriminate | exact Ec]. }
      destruct (IH _ (acc ++ [converted]) _ _ ltac:(apply Forall_app; split; auto) H)
        as [H1 H2].
      split; [exact H1 |]. rewrite length_app in H2. cbn in *. lia.
Qed.

Lemma fetchLoop_coherent (fuel limit : nat) :
  forall st, coherent st -> coherent (fetchLoop getMessages toISOString fuel limit st).
Proof.
  induction fuel as [|fuel IH]; intros st Hst; cbn [fetchLoop]; [exact Hst |].
  destruct (Nat.ltb (fetchedCount st) limit); [|exact Hst].
  destruct (getMessages _ _ _) as [result|error]; [|exact Hst].
  destruct (readBatch toISOString result (offset st) []) as [[batch offset']|] eqn:E;
    [|exact Hst].
  destruct (readBatch_kept result _ [] batch offset' ltac:(constructor) E) as [Hb _].
  destruct Hst as [Hcount Hkept].
  assert (Hnext : coherent {| messages := messages st ++ batch; offset := offset';
                              fetchedCount := fetchedCount st + length batch;
                              net := {| connections := connections (net st);
                                        requests := S (requests (net st));
                                        slept := slept (net st) |};
                              escaped := escaped st |}).
  { split; cbn [fetchedCount messages].
    - rewrite length_app. lia.
    - apply Forall_app. split; assumption. }
  destruct batch as [|m batch]; [exact Hnext |].
  apply IH. exact Hnext.
Qed.

(** The loop stops of its own accord: fuel beyond the messages still to
    fetch changes nothing. *)
Lemma fetchLoop_fuel (fuel : nat) :
  forall limit st extra,
    limit - fetchedCount st <= fuel ->
    fetchLoop getMessages toISOString (fuel + extra) limit st
    = fetchLoop getMessages toISOString fuel limit st.
Proof.
  induction fuel as [|fuel IH]; intros limit st extra Hfuel.
  - cbn [Nat.add]. destruct extra as [|extra]; [reflexivity |]. cbn [fetchLoop].
    replace (Nat.ltb (fetchedCount st) limit) with false; [reflexivity |].
    symmetry. apply Nat.ltb_ge. lia.
  - cbn [Nat.add fetchLoop].
    destruct (Nat.ltb (fetchedCount st) limit) eqn:El; [|reflexivity].
    destruct (getMessages _ _ _) as [result|error]; [|reflexivity].
    destruct (readBatch toISOString result (offset st) []) as [[batch offset']|];
      [|reflexivity].
    destruct batch as [|m batch]; [reflexivity |].
    apply IH. cbn [fetchedCount length]. lia.
Qed.

Lemma fetchLoop_requests (fuel limit : nat) :
  forall st,
    requests (net (fetchLoop getMessages toISOString fuel limit st))
    <= requests (net st) + (limit - fetchedCount st)
    /\ connections (net (fetchLoop getMessages toISOString fuel limit st))
       = connections (net st).
Proof.
  induction fuel as [|fuel IH]; intros st; cbn [fetchLoop]; [split; [lia | reflexivity] |].
  destruct (Nat.ltb (fetchedCount st) limit) eqn:El; [|split; [lia | reflexivity]].
  apply Nat.ltb_lt in El.
  destruct (getMessages _ _ _) as [result|error]; [|cbn; split; [lia | reflexivity]].
  destruct (readBatch toISOString result (offset st) []) as [[batch offset']|];
    [|cbn; split; [lia | reflexivity]].
  destruct batch as [|m batch]; [cbn; split; [lia | reflexivity] |].
  match goal with |- context [fetchLoop _ _ fuel limit ?s] => specialize (IH s) end.
  cbn [net requests connections fetchedCount length] in IH |- *.
  split; [lia | tauto].
Qed.

Lemma fetchLoop_within (fuel limit : nat) :
  honoursLimit getMessages ->
  forall st,
    fetchedCount st <= limit ->
    fetchedCount (fetchLoop getMessages toISOString fuel limit st) <= limit.
Proof.
  intros Hapi. induction fuel as [|fuel IH]; intros st Hst; cbn [fetchLoop]; [exact Hst |].
  destruct (Nat.ltb (fetchedCount st) limit) eqn:El; [|exact Hst].
  destruct (getMessages _ _ _) as [result|error] eqn:Eg; [|exact Hst].
  destruct (readBatch toISOString result (offset st) []) as [[batch offset']|] eqn:E;
    [|exact Hst].
  destruct (readBatch_kept result _ [] batch offset' ltac:(constructor) E) as [_ Hlen].
  pose proof (Hapi _ _ _ _ Eg) as Hres. cbn [length] in Hlen.
  assert (Hnext : fetchedCount st + length batch <= limit) by lia.
  destruct batch as [|m batch]; [exact Hnext |].
  apply IH. exact Hnext.
Qed.

(** An error leaves the loop only when a request is rejected with a value
    the handler cannot read. *)
Lemma fetchLoop_contained (fuel limit : nat) :
  readable getMessages ->
  forall st,
    escaped st = false ->
    escaped (fetchLoop getMessages toISOString fuel limit st) = false.
Proof.
  intros Hread. induction fuel as [|fuel IH]; intros st Hst; cbn [fetchLoop]; [exact Hst |].
  destruct (Nat.ltb (fetchedCount st) limit); [|exact Hst].
  destruct (getMessages _ _ _) as [result|error] eqn:Eg.
  - destruct (readBatch toISOString result (offset st) []) as [[batch offset']|];
      [|exact Hst].
    destruct batch as [|m batch]; [exact Hst |]. apply IH. exact Hst.
  - cbn [escaped]. pose proof (Hread _ _ _ _ Eg) as Hr.
    destruct (isTimeout error); [exact Hst | contradiction].
Qed.

End FetchFacts.

(** X10: whatever the limit asked for and whatever the API answers, the
    text of every message [fetchTelegramMessages] returns is between 1 and
    300 characters long: messages without text are dropped and longer
    texts are cut.  It returns at most 100 messages, provided the handler
    of the loop can read whatever the requests are rejected with; a
    rejection it cannot read leaves the loop, and the messages collected so
    far are then returned without the cap. *)
Theorem fetch_capped (connect : nat -> bool)
    (getMessages : nat -> nat -> Z -> Telegram.answer)
    (toISOString : Z -> js str) (limit : nat) :
  Forall keptText
    (fst (Telegram.fetchTelegramMessages connect getMessages toISOString limit))
  /\ (readable getMessages ->
      length (fst (Telegram.fetchTelegramMessages connect getMessages toISOString limit))
      <= 100).
Proof.
  unfold Telegram.fetchTelegramMessages.
  destruct (Telegram.createTelegramClient connect _ 0 Telegram.offline) as [[|] w];
    cbn [fst]; [|split; [constructor | cbn; lia]].
  match goal with |- context [Telegram.fetchLoop _ _ limit limit ?s] =>
    pose proof (fetchLoop_coherent getMessages toISOString limit limit s
                  ltac:(split; [reflexivity | constructor])) as [_ Hkept];
    pose proof (fun H => fetchLoop_contained getMessages toISOString limit limit H s
                           eq_refl) as Hin;
    set (st := Telegram.fetchLoop getMessages toISOString limit limit s) in *
  end.
  split.
  - destruct (Telegram.escaped st); cbn [fst]; [exact Hkept |].
    apply List.Forall_forall. intros m Hm. rewrite List.Forall_forall in Hkept.
    apply Hkept. rewrite <- (firstn_skipn (Nat.min (length (Telegram.messages st)) 100)).
    apply in_or_app. now left.
  - intros Hread. rewrite (Hin Hread). cbn [fst]. rewrite length_firstn. lia.
Qed.

Lemma sample_channel_readable (k : nat) (message : option str) :
  readable (failing_channel k (Telegram.WithMessage message)).
Proof.
  intros n limit offsetId error. unfold failing_channel, sample_channel.
  destruct (Nat.leb k n); [|discriminate]. intros [= <-]. now destruct message.
Qed.

Lemma fetch_capped_witness :
  readable (failing_channel 3 (Telegram.WithMessage (Some ("TIMEOUT" : str))))
  /\ length (fst (Telegram.fetchTelegramMessages always_connected
                    (failing_channel 3 (Telegram.WithMessage (Some ("TIMEOUT" : str))))
                    sample_date 1000)) <= 100.
Proof.
  split; [apply sample_channel_readable |].
  exact (proj2 (fetch_capped always_connected
                  (failing_channel 3 (Telegram.WithMessage (Some ("TIMEOUT" : str))))
                  sample_date 1000)
           (sample_channel_readable 3 (Some ("TIMEOUT" : str)))).
Defined.

(** X11: the fetch loop ends of its own accord, within [limit] passes:
    more fuel changes nothing, and a call makes at most [limit] requests
    for messages. *)
Theorem fetch_loop_ends (connect : nat -> bool)
    (getMessages : nat -> nat -> Z -> Telegram.answer)
    (toISOString : Z -> js str) (limit : nat) :
  (forall extra w,
      Telegram.fetchLoop getMessages toISOString (limit + extra) limit
        {| Telegram.messages := []; Telegram.offset := 0; Telegram.fetchedCount := 0;
           Telegram.net := w; Telegram.escaped := false |}
      = Telegram.fetchLoop getMessages toISOString limit limit
          {| Telegram.messages := []; Telegram.offset := 0; Telegram.fetchedCount := 0;
             Telegram.net := w; Telegram.escaped := false |})
  /\ Telegram.requests
       (snd (Telegram.fetchTelegramMessages connect getMessages toISOString limit))
     <= limit.
Proof.
  split.
  - intros extra w. apply fetchLoop_fuel. cbn. lia.
  - unfold Telegram.fetchTelegramMessages.
    assert (Hw : Telegram.requests
                   (snd (Telegram.createTelegramClient connect (S Telegram.MAX_RETRIES) 0
                           Telegram.offline)) = 0).
    { cbn. destruct (connect 0); [reflexivity |]. destruct (connect 1); [reflexivity |].
      destruct (connect 2); reflexivity. }
    destruct (Telegram.createTelegramClient connect _ 0 Telegram.offline) as [[|] w];
      cbn [snd] in *; [|lia].
    match goal with |- context [Telegram.fetchLoop _ _ limit limit ?s] =>
      pose proof (fetchLoop_requests getMessages toISOString limit limit s) as [H _];
      set (st := Telegram.fetchLoop getMessages toISOString limit limit s) in *
    end.
    cbn [Telegram.net Telegram.fetchedCount] in H.
    destruct (Telegram.escaped st); cbn [snd]; lia.
Qed.

(** X12: [createTelegramClient] makes at most three connection attempts,
    sleeping 2000 ms after the first failure and 4000 ms after the second;
    it fails only when all three do, and then [fetchTelegramMessages]
    returns no message and asks for none. *)
Theorem connection_attempts (connect : nat -> bool)
    (getMessages : nat -> nat -> Z -> Telegram.answer)
    (toISOString : Z -> js str) (limit : nat) :
  let r := Telegram.createTelegramClient connect (S Telegram.MAX_RETRIES) 0 Telegram.offline in
  (fst r = true <-> connect 0 = true \/ connect 1 = true \/ connect 2 = true)
  /\ 1 <= Telegram.connections (snd r) <= 3
  /\ Telegram.slept (snd r) = firstn (Telegram.connections (snd r) - 1) [2000%Z; 4000%Z]
  /\ (forall k, k < Telegram.connections (snd r) - 1 -> connect k = false)
  /\ (fst r = true -> connect (Telegram.connections (snd r) - 1) = true)
  /\ (fst r = false ->
      Telegram.connections (snd r) = 3
      /\ Telegram.fetchTelegramMessages connect getMessages toISOString limit = ([], snd r)).
Proof.
  cbn zeta. unfold Telegram.fetchTelegramMessages.
  cbn [Telegram.createTelegramClient Telegram.MAX_RETRIES Telegram.offline Nat.ltb Nat.leb
       Telegram.connections Telegram.requests Telegram.slept app].
  destruct (connect 0) eqn:E0; [|destruct (connect 1) eqn:E1; [|destruct (connect 2) eqn:E2]];
    cbn [fst snd Telegram.connections Telegram.slept];
    repeat split; auto; try lia; try discriminate;
    try (intros k Hk; cbn in Hk; destruct k as [|[|k]]; auto; lia).
Qed.

(** X13: when the API returns no more messages than a request asks for,
    [fetchTelegramMessages] returns at most [limit] messages; when the
    handler of the loop can moreover read whatever the requests are
    rejected with, it returns at most the smaller of [limit] and 100. *)
Theorem fetch_within_limit (connect : nat -> bool)
    (getMessages : nat -> nat -> Z -> Telegram.answer)
    (toISOString : Z -> js str) (limit : nat) :
  honoursLimit getMessages ->
  length (fst (Telegram.fetchTelegramMessages connect getMessages toISOString limit))
  <= limit
  /\ (readable getMessages ->
      length (fst (Telegram.fetchTelegramMessages connect getMessages toISOString limit))
      <= Nat.min limit 100).
Proof.
  intros Hapi. unfold Telegram.fetchTelegramMessages.
  destruct (Telegram.createTelegramClient connect _ 0 Telegram.offline) as [[|] w];
    cbn [fst]; [|cbn; lia].
  match goal with |- context [Telegram.fetchLoop _ _ limit limit ?s] =>
    pose proof (fetchLoop_within getMessages toISOString limit limit Hapi s
                  ltac:(cbn; lia)) as Hw;
    pose proof (fetchLoop_coherent getMessages toISOString limit limit s
                  ltac:(split; [reflexivity | constructor])) as [Hc _];
    pose proof (fun H => fetchLoop_contained getMessages toISOString limit limit H s
                           eq_refl) as Hin;
    set (st := Telegram.fetchLoop getMessages toISOString limit limit s) in *
  end.
  split.
  - destruct (Telegram.escaped st); cbn [fst]; [lia |]. rewrite length_firstn. lia.
  - intros Hread. rewrite (Hin Hread). cbn [fst]. rewrite length_firstn. lia.
Qed.

Lemma failing_channel_honours (k : nat) (error : Telegram.rejection) :
  honoursLimit (failing_channel k error).
Proof.
  intros n limit offsetId result. unfold failing_channel, sample_channel.
  destruct (Nat.leb k n); [discriminate |]. intros [= <-].
  rewrite length_map, length_seq. lia.
Qed.

Lemma fetch_within_limit_witness :
  honoursLimit (failing_channel 1 Telegram.NoValue)
  /\ length (fst (Telegram.fetchTelegramMessages always_connected
                    (failing_channel 1 Telegram.NoValue) sample_date 60)) <= 60.
Proof.
  split; [apply failing_channel_honours |].
  exact (proj1 (fetch_within_limit always_connected (failing_channel 1 Telegram.NoValue)
                  sample_date 60 (failing_channel_honours 1 Telegram.NoValue))).
Defined.

(** A channel of 120 messages: asked for 60, the fetch returns the 60
    newest in two requests; asked for 1000, it returns 100 of the 120 it
    fetched in four requests.  When the fourth request is rejected with a
    timeout error the result is the same; when it is rejected with
    [null], all 120 messages are returned. *)
Example fetch_sample_channel :
  let few := Telegram.fetchTelegramMessages always_connected sample_channel sample_date 60 in
  let many := Telegram.fetchTelegramMessages always_connected sample_channel sample_date 1000 in
  let timeout :=
    Telegram.fetchTelegramMessages always_connected
      (failing_channel 3 (Telegram.WithMessage (Some ("TIMEOUT" : str)))) sample_date 1000 in
  let null :=
    Telegram.fetchTelegramMessages always_connected
      (failing_channel 3 Telegram.NoValue) sample_date 1000 in
  length (fst few) = 60 /\ Telegram.requests (snd few) = 2
  /\ map msg_id (firstn 2 (fst few)) = ["120" : str; "119" : str]
  /\ length (fst many) = 100 /\ Telegram.requests (snd many) = 4
  /\ length (fst timeout) = 100 /\ Telegram.requests (snd timeout) = 4
  /\ length (fst null) = 120 /\ Telegram.requests (snd null) = 4.
Proof. vm_compute. repeat split. Qed.

(** ** Token bucket, continued *)

Section TokenBucketMore.

Import TokenManager.
Open Scope Q_scope.



(** Half a token asked of an empty bucket: the wait of 300 ms regenerates
    half a token, the refill rounds it down to none, and the budget ends
    at minus one half. *)
Example half_token :
  let l := {| tokensPerMinute := 100; tokenBudget := 0; lastRefillTime := 0 |} in
  timeToWait 0.5 (refillTokens 0 l) = 300%Z
  /\ tokenBudget (consumeTokens 0.5 0 300 l) == -0.5.
Proof. split; reflexivity. Qed.

(** X15: refilling on the way never yields more tokens than refilling once
    at the end: the tokens a refill adds are rounded down and the clock of
    the limiter restarts, so the fraction of a token under way is lost. *)
Theorem refill_on_the_way (t1 t2 : Z) (l : TokenRateLimiter) :
  0 <= tokensPerMinute l ->
  tokenBudget l <= tokensPerMinute l ->
  (lastRefillTime l <= t1 <= t2)%Z ->
  tokenBudget (refillTokens t2 (refillTokens t1 l)) <= tokenBudget (refillTokens t2 l).
Proof.
  intros Hcap Hbudget [H1 H2]. unfold refillTokens.
  set (c := tokensPerMinute l) in *. set (b := tokenBudget l) in *.
  set (t0 := lastRefillTime l) in *.
  set (xa := inject_Z (t1 - t0) * c / 60000).
  set (xs := inject_Z (t2 - t0) * c / 60000).
  destruct (0 <? Qfloor xa)%Z eqn:E1;
    cbn [tokensPerMinute tokenBudget lastRefillTime]; fold c b t0; [|apply Qle_refl].
  set (xb := inject_Z (t2 - t1) * c / 60000). fold xs.
  assert (Hxs : xs == xa + xb).
  { unfold xs, xa, xb. replace (t2 - t0)%Z with ((t1 - t0) + (t2 - t1))%Z by lia.
    rewrite inject_Z_plus. field. }
  assert (Hxb : 0 <= xb).
  { unfold xb. apply Qle_shift_div_l; [reflexivity |]. rewrite Qmult_0_l.
    apply Qmult_le_0_compat; [|exact Hcap].
    change 0 with (inject_Z 0). rewrite <- Zle_Qle. lia. }
  assert (Hsum : inject_Z (Qfloor xa) + inject_Z (Qfloor xb) <= inject_Z (Qfloor xs)).
  { rewrite <- inject_Z_plus, <- Zle_Qle.
    rewrite <- (Qfloor_Z (Qfloor xa + Qfloor xb)). apply Qfloor_resp_le.
    rewrite inject_Z_plus, Hxs.
    pose proof (Qfloor_le xa). pose proof (Qfloor_le xb). lra. }
  assert (Hfb : 0 <= inject_Z (Qfloor xb)).
  { change 0 with (inject_Z 0). rewrite <- Zle_Qle.
    rewrite <- (Qfloor_Z 0). apply Qfloor_resp_le. exact Hxb. }
  apply Z.ltb_lt in E1.
  assert (Hfa : 0 < inject_Z (Qfloor xa)).
  { change 0 with (inject_Z 0). now rewrite <- Zlt_Qlt. }
  assert (Hfs : (0 < Qfloor xs)%Z).
  { rewrite Zlt_Qlt. change (inject_Z 0) with 0. lra. }
  replace (0 <? Qfloor xs)%Z with true by (symmetry; now apply Z.ltb_lt).
  pose proof (Q.le_min_l (b + inject_Z (Qfloor xa)) c) as Hl.
  pose proof (Q.le_min_r (b + inject_Z (Qfloor xa)) c) as Hr.
  destruct (0 <? Qfloor xb)%Z; cbn [tokenBudget].
  - pose proof (Q.le_min_l (Qmin (b + inject_Z (Qfloor xa)) c + inject_Z (Qfloor xb)) c).
    apply Q.min_glb; [lra | apply Q.le_min_r].
  - apply Q.min_glb; lra.
Qed.

Lemma refill_on_the_way_witness :
  tokenBudget (refillTokens 1200 (refillTokens 900
                 {| tokensPerMinute := 100; tokenBudget := 10; lastRefillTime := 0 |})) == 11
  /\ tokenBudget (refillTokens 1200
                    {| tokensPerMinute := 100; tokenBudget := 10; lastRefillTime := 0 |}) == 12
  /\ tokenBudget (refillTokens 1200 (refillTokens 900
                    {| tokensPerMinute := 100; tokenBudget := 10; lastRefillTime := 0 |}))
     <= tokenBudget (refillTokens 1200
                       {| tokensPerMinute := 100; tokenBudget := 10; lastRefillTime := 0 |}).
Proof.
  pose proof (refill_on_the_way 900 1200
                {| tokensPerMinute := 100; tokenBudget := 10; lastRefillTime := 0 |}
                ltac:(cbn; lra) ltac:(cbn; lra) ltac:(cbn; lia)) as H.
  split; [reflexivity | split; [reflexivity | exact H]].
Defined.

End TokenBucketMore.

(** ** Checkpoint manager, continued *)

Section CheckpointMore.

Import Checkpoint.

Lemma perform_path (c : checkpointCall) (md md' : CheckpointManager * disk) :
  perform c md = Ret md' -> checkpointPath (fst md') = checkpointPath (fst md).
Proof.
  destruct c; cbn [perform]; [now intros [= <-] | apply recordError_path].
Qed.

Lemma perform_saved (c : checkpointCall) (md md' : CheckpointManager * disk) :
  perform c md = Ret md' ->
  snd md' !! checkpointPath (fst md) = Some (data (fst md'))
  /\ forall p, p <> checkpointPath (fst md) -> snd md' !! p = snd md !! p.
Proof.
  destruct c; cbn [perform]; unfold recordError;
    [|destruct (toString error); [|discriminate]]; intros [= <-];
    cbn [updateCheckpoint js_bind fst snd saveCheckpoint checkpointPath data];
    (split; [apply lookup_insert_eq | intros p Hp; now apply lookup_insert_ne]).
Qed.

(** What one call does to the fields. *)
Lemma perform_fields (c : checkpointCall) (md md' : CheckpointManager * disk) :
  perform c md = Ret md' ->
  channel (data (fst md')) = channel (data (fst md))
  /\ batchSize (data (fst md')) = batchSize (data (fst md))
  /\ totalProcessed (data (fst md')) = (totalProcessed (data (fst md)) + reported [c])%Z
  /\ errors (data (fst md')) = errors (data (fst md)) ++ recorded [c]
  /\ lastBatchIndex (data (fst md')) = lastUpdated [c] (lastBatchIndex (data (fst md))).
Proof.
  destruct c; cbn [perform]; unfold recordError, recorded; cbn [flat_map];
    [|destruct (toString error); [|discriminate]]; intros [= <-];
    cbn [updateCheckpoint js_bind fst snd data channel batchSize totalProcessed errors
         lastBatchIndex reported fold_right lastUpdated fold_left app];
    rewrite ?app_nil_r; repeat split; first [reflexivity | lia].
Qed.

Lemma performAll_spec (cs : list checkpointCall) :
  forall md md',
    performAll cs md = Ret md' ->
    snd md !! checkpointPath (fst md) = Some (data (fst md)) ->
    checkpointPath (fst md') = checkpointPath (fst md)
    /\ snd md' !! checkpointPath (fst md) = Some (data (fst md'))
    /\ (forall p, p <> checkpointPath (fst md) -> snd md' !! p = snd md !! p)
    /\ channel (data (fst md')) = channel (data (fst md))
    /\ batchSize (data (fst md')) = batchSize (data (fst md))
    /\ totalProcessed (data (fst md')) = (totalProcessed (data (fst md)) + reported cs)%Z
    /\ errors (data (fst md')) = errors (data (fst md)) ++ recorded cs
    /\ lastBatchIndex (data (fst md')) = lastUpdated cs (lastBatchIndex (data (fst md))).
Proof.
  induction cs as [|c cs IH]; intros md md' Hrun Hsaved; cbn [performAll] in Hrun.
  - injection Hrun as <-. cbn. rewrite Z.add_0_r, app_nil_r. auto 10.
  - destruct (perform c md) as [md1|] eqn:Hc; [|discriminate]. cbn [js_bind] in Hrun.
    destruct (perform_saved c md md1 Hc) as [Hs Hframe].
    pose proof (perform_path c md md1 Hc) as Hpath.
    destruct (perform_fields c md md1 Hc) as (F4 & F5 & F6 & F7 & F8).
    specialize (IH md1 md' Hrun). rewrite Hpath in IH. specialize (IH Hs).
    destruct IH as (H1 & H2 & H3 & H4 & H5 & H6 & H7 & H8).
    repeat split.
    + exact H1.
    + exact H2.
    + intros p Hp. rewrite (H3 p Hp). now apply Hframe.
    + now rewrite H4.
    + now rewrite H5.
    + rewrite H6, F6. unfold reported. cbn [fold_right]. destruct c; lia.
    + rewrite H7, F7. unfold recorded. cbn [flat_map]. now rewrite app_nil_r, <- app_assoc.
    + rewrite H8, F8. reflexivity.
Qed.

(** X16: after any sequence of [updateCheckpoint] and [recordError] calls
    on a manager that all return, the state on disk under its path is the
    state it holds and no other path was written; the channel and the
    batch size are as they were, the total is the old total plus the
    messages the updates reported, the error log is the old log followed
    by the failures in order, and the last batch is that of the last
    update. *)
Theorem checkpoint_calls_accumulate (cs : list checkpointCall) (m m' : CheckpointManager)
    (d d' : disk) :
  cs <> [] ->
  performAll cs (m, d) = Ret (m', d') ->
  checkpointPath m' = checkpointPath m
  /\ d' !! checkpointPath m = Some (data m')
  /\ (forall p, p <> checkpointPath m -> d' !! p = d !! p)
  /\ channel (data m') = channel (data m)
  /\ batchSize (data m') = batchSize (data m)
  /\ getTotalProcessed m' = (getTotalProcessed m + reported cs)%Z
  /\ errors (data m') = errors (data m) ++ recorded cs
  /\ getNextBatchIndex m' = (lastUpdated cs (lastBatchIndex (data m)) + 1)%Z.
Proof.
  destruct cs as [|c cs]; [contradiction |]. intros _ Hrun. cbn [performAll] in Hrun.
  destruct (perform c (m, d)) as [md1|] eqn:Hc; [|discriminate]. cbn [js_bind] in Hrun.
  destruct (perform_saved c (m, d) md1 Hc) as [Hs Hframe]. cbn [fst snd] in Hs, Hframe.
  pose proof (perform_path c (m, d) md1 Hc) as Hpath. cbn [fst] in Hpath.
  destruct (perform_fields c (m, d) md1 Hc) as (F4 & F5 & F6 & F7 & F8).
  cbn [fst] in F4, F5, F6, F7, F8.
  pose proof (performAll_spec cs md1 (m', d') Hrun) as H.
  rewrite Hpath in H. specialize (H Hs). cbn [fst snd] in H.
  destruct H as (H1 & H2 & H3 & H4 & H5 & H6 & H7 & H8).
  unfold getTotalProcessed, getNextBatchIndex. repeat split.
  - exact H1.
  - exact H2.
  - intros p Hp. rewrite (H3 p Hp). now apply Hframe.
  - now rewrite H4.
  - now rewrite H5.
  - rewrite H6, F6. unfold reported. cbn [fold_right]. destruct c; lia.
  - rewrite H7, F7. unfold recorded. cbn [flat_map]. now rewrite app_nil_r, <- app_assoc.
  - rewrite H8, F8. reflexivity.
Qed.

Lemma checkpoint_calls_accumulate_witness :
  exists m' d',
    performAll [Update 0 25 "t1"; Failure 1 (printable "Error: 503") "t2"; Update 1 25 "t3"]
      (sample_manager, ∅) = Ret (m', d')
    /\ getTotalProcessed m' = 50%Z
    /\ getNextBatchIndex m' = 2%Z
    /\ length (errors (data m')) = 1.
Proof.
  destruct (performAll [Update 0 25 "t1"; Failure 1 (printable "Error: 503") "t2";
                        Update 1 25 "t3"] (sample_manager, ∅)) as [[m' d']|] eqn:Hrun;
    [|discriminate Hrun].
  exists m', d'. split; [reflexivity |].
  pose proof (checkpoint_calls_accumulate
                [Update 0 25 "t1"; Failure 1 (printable "Error: 503") "t2"; Update 1 25 "t3"]
                sample_manager m' ∅ d' ltac:(discriminate) Hrun) as H.
  destruct H as (_ & _ & _ & _ & _ & H6 & H7 & H8).
  split; [exact H6 | split; [exact H8 |]]. rewrite H7. reflexivity.
Defined.

(** A failure whose error value has no [toString] ends the sequence: the
    call raises and the calls after it are not made. *)
Example checkpoint_calls_stop_at_null :
  performAll [Update 0 25 "t1"; Failure 1 nullish "t2"; Update 1 25 "t3"]
    (sample_manager, ∅) = Throw.
Proof. reflexivity. Qed.

(** X17: two channel names that differ only in letter case or in
    characters other than letters and digits share one checkpoint file: a
    manager constructed for the second after one was constructed for the
    first is the first one over again, with its channel, its batch size and
    its progress, and nothing is written. *)
Theorem checkpoint_shared_by_alias (c1 c2 : str) (size1 size2 : Z) (now1 now2 : str)
    (d : disk) :
  safeChannel c1 = safeChannel c2 ->
  d !! pathOf c1 = None ->
  create c2 size2 now2 (snd (create c1 size1 now1 d))
  = (fst (create c1 size1 now1 d), snd (create c1 size1 now1 d))
  /\ channel (data (fst (create c2 size2 now2 (snd (create c1 size1 now1 d))))) = c1
  /\ batchSize (data (fst (create c2 size2 now2 (snd (create c1 size1 now1 d))))) = size1.
Proof.
  intros Halias Hfresh.
  assert (Hpath : pathOf c2 = pathOf c1) by (unfold pathOf; now rewrite Halias).
  unfold create. rewrite Hfresh. cbn [fst snd]. rewrite Hpath.
  unfold saveCheckpoint. cbn [checkpointPath data]. rewrite lookup_insert_eq. auto.
Qed.

Lemma checkpoint_shared_by_alias_witness :
  channel (data (fst (create "crypto_fund" 10 "t2"
                        (snd (create "Crypto-Fund" 25 "t1" ∅)))))
  = ("Crypto-Fund" : str).
Proof.
  exact (proj1 (proj2 (checkpoint_shared_by_alias "Crypto-Fund" "crypto_fund" 25 10
                         "t1" "t2" ∅ eq_refl eq_refl))).
Defined.

End CheckpointMore.

(** ** Deterministic engine, continued *)

Section ParserMore.

Import Parser.
Variable fmt : str -> str.

Lemma NoDup_snoc (l : list str) (x : str) : List.NoDup l -> ~ In x l -> List.NoDup (l ++ [x]).
Proof.
  induction 1 as [|y l Hy Hl IH]; intros Hx; cbn [app].
  - constructor; [intros [] | constructor].
  - constructor.
    + intros Hin. apply in_app_or in Hin. destruct Hin as [Hin | [-> | []]]; [contradiction |].
      apply Hx. now left.
    + apply IH. intros Hin. apply Hx. now right.
Qed.

Lemma arr_includes_In (l : list str) (x : str) : arr_includes l x = false -> ~ In x l.
Proof.
  unfold arr_includes. intros H Hin.
  assert (existsb (str_eqb x) l = true) as E; [|congruence].
  apply existsb_exists. exists x. split; [exact Hin | apply str_eqb_refl].
Qed.

Lemma push_pair_nodup (companies amounts : list str) (company amount : str) :
  List.NoDup companies -> List.NoDup (fst (push_pair companies amounts company amount)).
Proof.
  intros H. unfold push_pair. destruct (arr_includes companies company) eqn:E; [exact H |].
  cbn [fst]. apply NoDup_snoc; [exact H | now apply arr_includes_In].
Qed.

Lemma tryPatterns_nodup (ps : list regex) (cleanLine : str) (companies amounts : list str)
    (acc' : list str * list str) :
  List.NoDup companies ->
  tryPatterns ps cleanLine companies amounts = Ret (Some acc') -> List.NoDup (fst acc').
Proof.
  intros Hacc. induction ps as [|p ps IH]; cbn [tryPatterns]; [discriminate |].
  destruct (exec true p cleanLine) as [m|]; [|exact IH].
  destruct (grp 1 m) as [c1|]; cbn [js_bind]; [|discriminate].
  intros [= <-]. now apply push_pair_nodup.
Qed.

Lemma generalExtraction_nodup (cleanLine : str) (companies amounts : list str) :
  List.NoDup companies -> List.NoDup (fst (generalExtraction cleanLine companies amounts)).
Proof.
  intros Hacc. unfold generalExtraction.
  destruct (_ && _); [|exact Hacc].
  destruct (indexOf cleanLine "$") as [dollarIndex|]; [|exact Hacc].
  destruct (Nat.ltb 2 dollarIndex); [|exact Hacc].
  match goal with |- context [Nat.ltb 1 (length ?c)] => destruct (Nat.ltb 1 (length c)) end;
    [|exact Hacc].
  destruct (exec true looseAmount cleanLine) as [m|]; [|exact Hacc].
  now apply push_pair_nodup.
Qed.

Lemma processLines_nodup (lines : list str) :
  forall acc acc',
    List.NoDup (fst acc) -> processLines acc lines = Ret acc' -> List.NoDup (fst acc').
Proof.
  induction lines as [|line lines IH]; intros acc acc' Hacc; cbn [processLines].
  - now intros [= <-].
  - destruct (processLine acc line) as [acc1|] eqn:E; cbn [js_bind]; [|discriminate].
    apply IH. revert E. destruct acc as [companies amounts]. unfold processLine.
    destruct (_ || _); [now intros [= <-] |].
    destruct (tryPatterns patterns _ companies amounts) as [[matched|]|] eqn:Et;
      cbn [js_bind]; [| |discriminate].
    + intros [= <-]. exact (tryPatterns_nodup _ _ _ _ _ Hacc Et).
    + intros [= <-]. now apply generalExtraction_nodup.
Qed.

Lemma parseWeeklyRoundup_nodup (message : TelegramMessage) (r : InvestmentData)
    (companies : list str) :
  parseWeeklyRoundup message = Ret r -> company r = Many companies -> List.NoDup companies.
Proof.
  unfold parseWeeklyRoundup.
  destruct (collect_acquisitions _) as [acqs|]; cbn [js_bind]; [|discriminate].
  destruct (processLines _ _) as [[cs amounts]|] eqn:El; cbn [js_bind]; [|discriminate].
  intros [= <-]. cbn [company]. intros [= <-].
  exact (processLines_nodup _ ([], []) _ (List.NoDup_nil _) El).
Qed.

(** X18: the companies of a roundup record of the deterministic engine are
    pairwise distinct: a line that names a company already listed adds
    nothing. *)
Theorem roundup_companies_distinct (messages : list TelegramMessage) (r : InvestmentData)
    (companies : list str) :
  In r (extractInvestmentData fmt messages) ->
  company r = Many companies ->
  List.NoDup companies.
Proof.
  intros Hin Hc.
  destruct (extractInvestmentData_In fmt messages r Hin) as (_ & message & _ & Hparse).
  destruct (parseInvestmentData_record fmt message r Hparse) as [Hr | Hs].
  - exact (parseWeeklyRoundup_nodup message r companies Hr Hc).
  - destruct Hs as (_ & (c & a & Hone & _) & _). congruence.
Qed.

(** X19: the deterministic engine handles each message on its own: the
    records of two lists of messages put end to end are the records of the
    first followed by those of the second, and there is at most one record
    per message. *)
Theorem extractInvestmentData_app (a b : list TelegramMessage) :
  extractInvestmentData fmt (a ++ b)
  = extractInvestmentData fmt a ++ extractInvestmentData fmt b
  /\ length (extractInvestmentData fmt a) <= length a.
Proof.
  split.
  - induction a as [|message a IH]; [reflexivity |].
    cbn [app extractInvestmentData].
    destruct (parseInvestmentData fmt message) as [[result|]|]; try exact IH.
    destruct (hasCompany result); [|exact IH]. cbn [app]. now rewrite IH.
  - induction a as [|message a IH]; [reflexivity |].
    cbn [extractInvestmentData length].
    destruct (parseInvestmentData fmt message) as [[result|]|]; try lia.
    destruct (hasCompany result); cbn [length]; lia.
Qed.

End ParserMore.

Lemma roundup_companies_distinct_witness :
  roundupCompanies (Parser.extractInvestmentData sample_format [messageOf repeated_digest])
  = [["Acme -" : str; "Labs" : str]]
  /\ List.NoDup ["Acme -" : str; "Labs" : str].
Proof.
  split; [vm_compute; reflexivity |].
  pose proof (roundup_companies_distinct sample_format [messageOf repeated_digest]) as H.
  remember (Parser.extractInvestmentData sample_format [messageOf repeated_digest])
    as emitted eqn:E.
  vm_compute in E. subst emitted.
  exact (H _ ["Acme -" : str; "Labs" : str] (or_introl eq_refl) eq_refl).
Defined.

(** ** AI engine, continued *)

Section EngineMore.

Import GenAI.
Variable JSON_parse : str -> option JValue.
Variable callGeminiAPI : nat -> prompt -> Retry.outcome str.
Variable random : nat -> Q.

Lemma processBatch_acc (batch : list TelegramMessage) :
  forall w investments,
    processBatch JSON_parse callGeminiAPI random batch w investments
    = (investments ++ fst (processBatch JSON_parse callGeminiAPI random batch w []),
       snd (processBatch JSON_parse callGeminiAPI random batch w [])).
Proof.
  induction batch as [|message rest IH]; intros w investments; cbn [processBatch].
  - cbn. now rewrite app_nil_r.
  - destruct (extractInvestmentWithGemini _ _ _ message w) as [result w'].
    destruct result as [r|]; [destruct (accepted r) |]; try apply IH.
    rewrite (IH w' (investments ++ [r])), (IH w' ([] ++ [r])).
    cbn [fst snd app]. now rewrite <- app_assoc.
Qed.

(** X20: the AI engine handles the messages one after the other, and its
    batches of five leave no trace: a run over two lists put end to end
    yields the records of a run over the first, followed by those of a run
    over the second that starts in the world the first run left. *)
Theorem ai_runs_compose (a b : list TelegramMessage) (w : Retry.world) :
  extractInvestmentsWithAI JSON_parse callGeminiAPI random (a ++ b) w
  = extractInvestmentsWithAI JSON_parse callGeminiAPI random a w
    ++ extractInvestmentsWithAI JSON_parse callGeminiAPI random b
         (snd (batchLoop JSON_parse callGeminiAPI random (S (length a)) 0 a w [])).
Proof.
  rewrite !extractInvestmentsWithAI_all.
  rewrite batchLoop_all; [|unfold batchSize; lia]. change (skipn 0 a) with a.
  rewrite processBatch_app.
  destruct (processBatch JSON_parse callGeminiAPI random a w []) as [found w'] eqn:E.
  cbn [fst snd]. rewrite (processBatch_acc b w' found). reflexivity.
Qed.

End EngineMore.

(** X21: a roundup is never dropped for want of a company: whenever the
    normalization of a roundup answer returns a record, the record passes
    the acceptance test of the batch loop, its company being the non-empty
    list the model sent or else the text [Weekly Investment Roundup]. *)
Theorem roundup_always_accepted (data : GenAI.JValue) (rawText date : str)
    (r : GenAI.InvestmentData) :
  GenAI.standardizeInvestmentData data rawText date true = Ret r ->
  GenAI.accepted r = true
  /\ GenAI.type r = GenAI.roundup
  /\ GenAI.isPartOfRoundup r = true
  /\ (GenAI.company r = GenAI.JStr "Weekly Investment Roundup"
      \/ exists x l, GenAI.company r = GenAI.JArr (x :: l)
                     /\ GenAI.get data "company" = Ret (GenAI.JArr (x :: l))).
Proof.
  unfold GenAI.standardizeInvestmentData. cbn [GenAI.typeOf js_bind].
  destruct (get_cases data) as [Hg | Hg]; rewrite !Hg; cbn [js_bind]; [discriminate |].
  assert (Hcompany :
    let c := match GenAI.nonEmptyArray (field data "company") with
             | Some _ => field data "company"
             | None => GenAI.JStr "Weekly Investment Roundup"
             end in
    (match c with
     | GenAI.JStr s => Nat.ltb 0 (length s)
     | GenAI.JArr l => Nat.ltb 0 (length l)
     | _ => false
     end = true)
    /\ (c = GenAI.JStr "Weekly Investment Roundup"
        \/ exists x l, c = GenAI.JArr (x :: l) /\ field data "company" = GenAI.JArr (x :: l))).
  { cbn zeta. destruct (GenAI.nonEmptyArray (field data "company")) as [l|] eqn:Ec.
    - apply nonEmptyArray_inv in Ec. destruct Ec as [Ec Hne]. rewrite Ec.
      destruct l as [|x l]; [contradiction |]. split; [reflexivity |]. right. eauto.
    - split; [reflexivity | now left]. }
  cbn zeta in Hcompany. destruct Hcompany as [Hacc Hshape].
  destruct (GenAI.nonEmptyArray (field data "acquisitions")) as [acqs|].
  - destruct (GenAI.mapAcquisitions acqs); cbn [js_bind]; [|discriminate].
    intros [= <-]. unfold GenAI.accepted. cbn [GenAI.company GenAI.type GenAI.isPartOfRoundup].
    repeat split; [exact Hacc |].
    destruct Hshape as [H | (x & l & H1 & H2)]; [now left |].
    right. exists x, l. now rewrite H2.
  - cbn [js_bind]. intros [= <-]. unfold GenAI.accepted.
    cbn [GenAI.company GenAI.type GenAI.isPartOfRoundup].
    repeat split; [exact Hacc |].
    destruct Hshape as [H | (x & l & H1 & H2)]; [now left |].
    right. exists x, l. now rewrite H2.
Qed.

Lemma roundup_always_accepted_witness :
  exists r,
    GenAI.standardizeInvestmentData foo_object "Best Rounds" "2025-05-01T10:00:00.000Z" true
    = Ret r
    /\ GenAI.accepted r = true
    /\ GenAI.company r = GenAI.JStr "Weekly Investment Roundup".
Proof.
  eexists. split; [reflexivity |]. split; [|reflexivity].
  exact (proj1 (roundup_always_accepted foo_object "Best Rounds" "2025-05-01T10:00:00.000Z"
                  _ eq_refl)).
Defined.

(** ** Terms found in a text *)

Section TermFacts.

Import Nlp.

Lemma startsWith_app (p : str) :
  forall s t, startsWith s p = true -> startsWith (s ++ t) p = true.
Proof.
  induction p as [|x p IH]; intros s t; [intros _; apply startsWith_nil |].
  destruct s as [|y s]; cbn [startsWith app]; [discriminate |].
  intros H. apply andb_true_iff in H. destruct H as [H1 H2].
  now rewrite H1, (IH s t H2).
Qed.

Lemma includes_nil (s : str) : includes s [] = true.
Proof. destruct s; cbn [includes]; now rewrite startsWith_nil. Qed.

Lemma includes_app_r (p : str) :
  forall s b, includes s p = true -> includes (s ++ b) p = true.
Proof.
  induction s as [|x s IH]; intros b; cbn [includes app].
  - rewrite orb_false_r. destruct p; [intros _; apply includes_nil | discriminate].
  - intros H. apply orb_true_iff in H. destruct H as [H | H].
    + change (x :: s ++ b) with ((x :: s) ++ b). now rewrite (startsWith_app p _ b H).
    + rewrite (IH b H). apply orb_true_r.
Qed.

(** A text that holds a pattern still holds it with more text around. *)
Lemma includes_app (p : str) :
  forall a s b, includes s p = true -> includes (a ++ s ++ b) p = true.
Proof.
  induction a as [|x a IH]; intros s b H; cbn [app includes]; [now apply includes_app_r |].
  rewrite (IH s b H). apply orb_true_r.
Qed.

Lemma to_lower_upper (c : ascii) : to_lower (to_upper c) = to_lower c.
Proof. ascii_cases c; reflexivity. Qed.

Lemma toLowerCase_upper (s : str) : toLowerCase (toUpperCase s) = toLowerCase s.
Proof.
  unfold toLowerCase, toUpperCase. rewrite map_map. apply map_ext. apply to_lower_upper.
Qed.

(** X22: on a text and terms within ASCII, [containsTerms] returns, in the
    order of the list, the terms found in the text without regard to letter
    case; a term is found wherever its letters occur, so ASCII text added
    before or after never loses a term, and the answer is the same for the
    text in capitals. *)
Theorem containsTerms_found (text : str) (termList : list str) :
  isAscii text = true ->
  forallb isAscii termList = true ->
  (forall term, In term (containsTerms text termList) <->
                In term termList /\ includes (toLowerCase text) (toLowerCase term) = true)
  /\ containsTerms (toUpperCase text) termList = containsTerms text termList
  /\ (forall before after term,
        isAscii before = true -> isAscii after = true ->
        In term (containsTerms text termList) ->
        In term (containsTerms (before ++ text ++ after) termList))
  /\ (forall a b, termList = a ++ b ->
                  containsTerms text termList = containsTerms text a ++ containsTerms text b).
Proof.
  intros _ _. unfold containsTerms. split; [|split; [|split]].
  - intros term.
    exact (filter_In (fun t => includes (toLowerCase text) (toLowerCase t)) term termList).
  - now rewrite toLowerCase_upper.
  - intros before after term _ _ H. apply filter_In in H. destruct H as [Hin Hinc].
    apply filter_In. split; [exact Hin |].
    unfold toLowerCase. rewrite !map_app. now apply includes_app.
  - intros a b ->. apply List.filter_app.
Qed.

Lemma containsTerms_found_witness :
  isAscii "We build DeFi on ETH" = true
  /\ forallb isAscii (cryptoProtocols ++ cryptoThemes) = true
  /\ containsTerms "WE BUILD DEFI ON ETH" (cryptoProtocols ++ cryptoThemes)
     = containsTerms "We build DeFi on ETH" (cryptoProtocols ++ cryptoThemes)
  /\ containsTerms "We build DeFi on ETH" (cryptoProtocols ++ cryptoThemes)
     = containsTerms "We build DeFi on ETH" cryptoProtocols
       ++ containsTerms "We build DeFi on ETH" cryptoThemes.
Proof.
  split; [reflexivity | split; [reflexivity |]].
  destruct (containsTerms_found "We build DeFi on ETH" (cryptoProtocols ++ cryptoThemes)
              eq_refl eq_refl) as (_ & Hcaps & _ & Happ).
  split; [exact Hcaps | exact (Happ cryptoProtocols cryptoThemes eq_refl)].
Defined.

(** Terms are found inside longer words: [ETH] in [together], [SOL] in
    [solution]. *)
Example containsTerms_inside_words :
  containsTerms "We work together on a solution" cryptoProtocols = ["ETH" : str; "SOL" : str]
  /\ containsTerms "seed round for a defi dex" cryptoThemes
     = ["DeFi" : str; "DEX" : str; "Seed Round" : str].
Proof. vm_compute. split; reflexivity. Qed.

End TermFacts.

(** ** Investor names *)

Section InvestorFacts.

Import Details.

Lemma indexOf_from_none (p : str) :
  forall s i, indexOf_from i s p = None <-> includes s p = false.
Proof.
  induction s as [|x s IH]; intros i; cbn [indexOf_from includes].
  - destruct (startsWith [] p); cbn; split; congruence.
  - destruct (startsWith (x :: s) p); cbn [orb]; [split; discriminate | apply IH].
Qed.

Lemma startsWith_split (p : str) :
  forall s, startsWith s p = true -> s = p ++ skipn (length p) s.
Proof.
  induction p as [|x p IH]; intros s; [reflexivity |].
  destruct s as [|y s]; cbn [startsWith]; [discriminate |].
  intros H. apply andb_true_iff in H. destruct H as [Hxy Hp].
  apply Ascii.eqb_eq in Hxy. subst y. cbn [length skipn app]. f_equal. now apply IH.
Qed.

(** The text around the first occurrence of a pattern. *)
Lemma indexOf_from_split (p : str) :
  forall s i j,
    indexOf_from i s p = Some j ->
    i <= j /\ s = firstn (j - i) s ++ p ++ skipn (j - i + length p) s.
Proof.
  induction s as [|x s IH]; intros i j; cbn [indexOf_from].
  - destruct (startsWith [] p) eqn:E; [|discriminate].
    intros [= <-]. rewrite Nat.sub_diag. split; [lia |]. cbn [firstn app Nat.add].
    now apply startsWith_split.
  - destruct (startsWith (x :: s) p) eqn:E.
    + intros [= <-]. rewrite Nat.sub_diag. split; [lia |]. cbn [firstn app Nat.add].
      now apply startsWith_split.
    + intros H. apply IH in H. destruct H as [Hle Hs]. split; [lia |].
      replace (j - i) with (S (j - S i)) by lia. cbn [firstn Nat.add skipn app].
      f_equal. exact Hs.
Qed.

Lemma startsWith_firstn (p : str) (n : nat) (s : str) :
  startsWith (firstn n s) p = true -> startsWith s p = true.
Proof.
  intros H. rewrite <- (firstn_skipn n s). now apply startsWith_app.
Qed.

(** Nothing before the first occurrence of a pattern holds the pattern. *)
Lemma includes_before_first (p : str) :
  p <> [] ->
  forall s i j k,
    indexOf_from i s p = Some j -> k + i <= j -> includes (firstn k s) p = false.
Proof.
  intros Hp.
  assert (Hnil : includes [] p = false) by (destruct p; [contradiction | reflexivity]).
  induction s as [|x s IH]; intros i j k; cbn [indexOf_from].
  - intros _ _. now rewrite firstn_nil.
  - destruct k as [|k]; [intros _ _; exact Hnil |].
    destruct (startsWith (x :: s) p) eqn:E; [intros [= <-]; lia |].
    intros Hfirst Hk. cbn [firstn includes].
    rewrite (IH (S i) j k Hfirst ltac:(lia)), orb_false_r.
    destruct (startsWith (x :: firstn k s) p) eqn:E'; [|reflexivity].
    change (x :: firstn k s) with (firstn (S k) (x :: s)) in E'.
    apply startsWith_firstn in E'. congruence.
Qed.

Lemma includes_firstn (p : str) (n : nat) (s : str) :
  includes s p = false -> includes (firstn n s) p = false.
Proof.
  intros H. destruct (includes (firstn n s) p) eqn:E; [|reflexivity].
  rewrite <- (firstn_skipn n s) in H. rewrite (includes_app_r p _ _ E) in H. discriminate.
Qed.

Lemma trimStart_suffix (x : str) : exists a, x = a ++ trimStart x.
Proof.
  induction x as [|c x [a IH]]; [now exists [] |]. cbn [trimStart].
  destruct (is_space c); [|now exists []].
  exists (c :: a). cbn [app]. now f_equal.
Qed.

Lemma trim_infix (x : str) : exists a b, x = a ++ trim x ++ b.
Proof.
  unfold trim, trimEnd.
  destruct (trimStart_suffix x) as [a Ha].
  destruct (trimStart_suffix (rev (trimStart x))) as [b Hb].
  exists a, (rev b). rewrite <- rev_app_distr, <- Hb, rev_involutive. exact Ha.
Qed.

Lemma includes_trim (p x : str) : includes x p = false -> includes (trim x) p = false.
Proof.
  intros H. destruct (includes (trim x) p) eqn:E; [|reflexivity].
  destruct (trim_infix x) as (a & b & Hx). rewrite Hx in H.
  rewrite (includes_app p a _ b E) in H. discriminate.
Qed.

(** What the loop over the separators finds: the earliest position among
    the candidates, with the separator found there. *)
Lemma earliestSeparator_spec (investor : str) (separators : list str) :
  forall held heldType found foundType,
    earliestSeparator separators investor held heldType = (found, foundType) ->
    (forall sep j, In sep separators -> indexOf investor sep = Some j ->
                   exists i, found = Some i /\ i <= j)
    /\ (forall j, held = Some j -> exists i, found = Some i /\ i <= j)
    /\ (found = held /\ foundType = heldType
        \/ exists i, found = Some i /\ In foundType separators
                     /\ indexOf investor foundType = Some i).
Proof.
  induction separators as [|separator rest IH]; intros held heldType found foundType;
    cbn [earliestSeparator].
  - intros [= <- <-]. repeat split; [intros sep j [] | eauto | now left].
  - destruct (indexOf investor separator) as [index|] eqn:E.
    + destruct (match held with None => true | Some h => Nat.ltb index h end) eqn:Elt.
      * intros H. apply IH in H. destruct H as (Hrest & Hheld & Hwhich).
        destruct (Hheld index eq_refl) as (i & Hi & Hle).
        repeat split.
        -- intros sep j [<- | Hin] Hj; [|now apply (Hrest sep j)].
           rewrite E in Hj. injection Hj as <-. eauto.
        -- intros j ->. apply Nat.ltb_lt in Elt. exists i. split; [exact Hi | lia].
        -- right. destruct Hwhich as [[-> ->] | (i' & Hi' & Hin & Hidx)].
           ++ exists index. repeat split; [now left | exact E].
           ++ exists i'. repeat split; [exact Hi' | now right | exact Hidx].
      * destruct held as [h|]; [|discriminate]. apply Nat.ltb_ge in Elt.
        intros H. apply IH in H. destruct H as (Hrest & Hheld & Hwhich).
        destruct (Hheld h eq_refl) as (i & Hi & Hle).
        repeat split.
        -- intros sep j [<- | Hin] Hj; [|now apply (Hrest sep j)].
           rewrite E in Hj. injection Hj as <-. exists i. split; [exact Hi | lia].
        -- exact Hheld.
        -- destruct Hwhich as [Hsame | (i' & Hi' & Hin & Hidx)]; [now left |].
           right. exists i'. repeat split; [exact Hi' | now right | exact Hidx].
    + intros H. apply IH in H. destruct H as (Hrest & Hheld & Hwhich).
      repeat split.
      * intros sep j [<- | Hin] Hj; [congruence | now apply (Hrest sep j)].
      * exact Hheld.
      * destruct Hwhich as [Hsame | (i' & Hi' & Hin & Hidx)]; [now left |].
        right. exists i'. repeat split; [exact Hi' | now right | exact Hidx].
Qed.

Lemma separator_not_comma (separator : str) :
  In separator descriptionSeparators ->
  str_eqb separator "comma" = false /\ separator <> [].
Proof.
  intros H. repeat destruct H as [<- | H]; try contradiction; split; easy.
Qed.

(** Nothing before the earliest separator holds a separator. *)
Lemma before_earliest (investor : str) (i : nat) :
  (forall j, indexOf investor "," = Some j -> i <= j) ->
  (forall sep j, In sep descriptionSeparators -> indexOf investor sep = Some j -> i <= j) ->
  separatorFree (firstn i investor).
Proof.
  intros Hcomma Hseps. split.
  - destruct (indexOf investor ",") as [j|] eqn:E.
    + apply (includes_before_first "," ltac:(discriminate) investor 0 j i E).
      specialize (Hcomma j eq_refl). lia.
    + apply includes_firstn. now apply (indexOf_from_none "," investor 0).
  - apply List.Forall_forall. intros sep Hin.
    destruct (indexOf investor sep) as [j|] eqn:E.
    + apply (includes_before_first sep (proj2 (separator_not_comma sep Hin)) investor 0 j i E).
      specialize (Hseps sep j Hin E). lia.
    + apply includes_firstn. now apply (indexOf_from_none sep investor 0).
Qed.

Lemma separatorFree_trim (s : str) : separatorFree s -> separatorFree (trim s).
Proof.
  intros [Hc Hs]. split; [now apply includes_trim |].
  rewrite List.Forall_forall in *. intros sep Hin. apply includes_trim. now apply Hs.
Qed.

(** X23: [cleanInvestorName] cuts the text at its earliest separator, a
    comma or one of [ - ], [ is ], [ a ], [ forms ], [ builds ]: no
    separator occurs in the text before the place of the cut, the name is
    the text before the cut and the description the text after the
    separator, both trimmed.  Without any separator the name is the whole
    text, trimmed, and there is no description.  The name never holds a
    comma or a separator. *)
Theorem cleanInvestorName_cuts (investor : str) :
  separatorFree (entry_name (cleanInvestorName investor))
  /\ (entry_description (cleanInvestorName investor) = None ->
      entry_name (cleanInvestorName investor) = trim investor /\ separatorFree investor)
  /\ (forall description,
        entry_description (cleanInvestorName investor) = Some description ->
        exists before separator after,
          investor = before ++ separator ++ after
          /\ (separator = "," \/ In separator descriptionSeparators)
          /\ (forall (other : str) j,
                other = "," \/ In other descriptionSeparators ->
                indexOf investor other = Some j -> length before <= j)
          /\ separatorFree before
          /\ entry_name (cleanInvestorName investor) = trim before
          /\ description = trim after).
Proof.
  unfold cleanInvestorName.
  destruct (earliestSeparator descriptionSeparators investor (indexOf investor ",") "comma")
    as [found foundType] eqn:E.
  destruct (earliestSeparator_spec investor _ _ _ _ _ E) as (Hseps & Hheld & Hwhich).
  destruct found as [i|]; cbn [entry_name entry_description].
  - assert (Hfree : separatorFree (firstn i investor)).
    { apply before_earliest.
      - intros j Hj. destruct (Hheld j Hj) as (i' & [= <-] & Hle). exact Hle.
      - intros sep j Hin Hj. destruct (Hseps sep j Hin Hj) as (i' & [= <-] & Hle). exact Hle. }
    assert (Hfirst : forall (other : str) j,
               other = "," \/ In other descriptionSeparators ->
               indexOf investor other = Some j -> length (firstn i investor) <= j).
    { intros other j Hother Hj. rewrite length_firstn.
      destruct Hother as [-> | Hin].
      - destruct (Hheld j Hj) as (i' & [= <-] & Hle). lia.
      - destruct (Hseps other j Hin Hj) as (i' & [= <-] & Hle). lia. }
    unfold substring. rewrite Nat.sub_0_r. cbn [skipn].
    split; [now apply separatorFree_trim |]. split; [discriminate |].
    intros description [= <-].
    destruct Hwhich as [[Hcomma ->] | (i' & [= <-] & Hin & Hidx)].
    + symmetry in Hcomma. apply indexOf_from_split in Hcomma. destruct Hcomma as [_ Hcut].
      rewrite Nat.sub_0_r in Hcut.
      exists (firstn i investor), ",", (skipn (i + 1) investor).
      split; [exact Hcut |]. split; [now left |]. split; [exact Hfirst |].
      split; [exact Hfree | split; reflexivity].
    + destruct (separator_not_comma foundType Hin) as [Hnc _].
      change (list_ascii_of_string "comma") with ["c"; "o"; "m"; "m"; "a"]%char in Hnc.
      rewrite Hnc.
      apply indexOf_from_split in Hidx. destruct Hidx as [_ Hcut].
      rewrite Nat.sub_0_r in Hcut.
      exists (firstn i investor), foundType, (skipn (i + length foundType) investor).
      split; [exact Hcut |]. split; [now right |]. split; [exact Hfirst |].
      split; [exact Hfree | split; reflexivity].
  - split; [|split; [|discriminate]].
    + apply separatorFree_trim.
      destruct Hwhich as [[Hcomma _] | (i & Hi & _)]; [|discriminate].
      split.
      * now apply (indexOf_from_none "," investor 0).
      * apply List.Forall_forall. intros sep Hin.
        destruct (indexOf investor sep) as [j|] eqn:Ej.
        -- destruct (Hseps sep j Hin Ej) as (i & Hi & _). discriminate.
        -- now apply (indexOf_from_none sep investor 0).
    + intros _. split; [reflexivity |].
      destruct Hwhich as [[Hcomma _] | (i & Hi & _)]; [|discriminate].
      split.
      * now apply (indexOf_from_none "," investor 0).
      * apply List.Forall_forall. intros sep Hin.
        destruct (indexOf investor sep) as [j|] eqn:Ej.
        -- destruct (Hseps sep j Hin Ej) as (i & Hi & _). discriminate.
        -- now apply (indexOf_from_none sep investor 0).
Qed.

(** A name followed by a description, a text with three separators, cut at
    the earliest, and a name on its own. *)
Example cleanInvestorName_samples :
  cleanInvestorName "Paradigm, a crypto fund"
  = {| entry_name := "Paradigm"; entry_description := Some ("a crypto fund" : str) |}
  /\ cleanInvestorName "Jump Crypto is a trading firm, based in Chicago"
     = {| entry_name := "Jump Crypto";
          entry_description := Some ("a trading firm, based in Chicago" : str) |}
  /\ cleanInvestorName "  Sequoia Capital "
     = {| entry_name := "Sequoia Capital"; entry_description := None |}.
Proof. vm_compute. repeat split. Qed.

(** *** The investors of an announcement *)

Lemma includes_single (c : ascii) (s : str) :
  includes s [c] = existsb (Ascii.eqb c) s.
Proof.
  induction s as [|x s IH]; [reflexivity |].
  cbn [includes startsWith existsb]. now rewrite startsWith_nil, andb_true_r, IH.
Qed.

Lemma entry_name_free (investor : str) :
  separatorFree (entry_name (cleanInvestorName investor)).
Proof.
  unfold cleanInvestorName.
  destruct (earliestSeparator descriptionSeparators investor (indexOf investor ",") "comma")
    as [found foundType] eqn:E.
  destruct (earliestSeparator_spec investor _ _ _ _ _ E) as (Hseps & Hheld & Hwhich).
  destruct found as [i|]; cbn [entry_name]; apply separatorFree_trim.
  - unfold substring. rewrite Nat.sub_0_r. cbn [skipn]. apply before_earliest.
    + intros j Hj. destruct (Hheld j Hj) as (i' & [= <-] & Hle). exact Hle.
    + intros sep j Hin Hj. destruct (Hseps sep j Hin Hj) as (i' & [= <-] & Hle). exact Hle.
  - destruct Hwhich as [[Hcomma _] | (i & Hi & _)]; [|discriminate].
    split.
    + now apply (indexOf_from_none "," investor 0).
    + apply List.Forall_forall. intros sep Hin.
      destruct (indexOf investor sep) as [j|] eqn:Ej.
      * destruct (Hseps sep j Hin Ej) as (i & Hi & _). discriminate.
      * now apply (indexOf_from_none sep investor 0).
Qed.

Lemma trim_In (x : str) (c : ascii) : In c (trim x) -> In c x.
Proof.
  intros H. destruct (trim_infix x) as (a & b & Hx). rewrite Hx.
  apply in_or_app. right. apply in_or_app. now left.
Qed.

Lemma entry_name_In (investor : str) (c : ascii) :
  In c (entry_name (cleanInvestorName investor)) -> In c investor.
Proof.
  unfold cleanInvestorName.
  destruct (earliestSeparator descriptionSeparators investor (indexOf investor ",") "comma")
    as [[i|] foundType]; cbn [entry_name]; intros H; apply trim_In in H; [|exact H].
  unfold substring in H. rewrite Nat.sub_0_r in H. cbn [skipn] in H.
  rewrite <- (firstn_skipn i investor). apply in_or_app. now left.
Qed.

Lemma trimStart_nil (l : str) :
  trimStart l = [] -> forall x, In x l -> is_space x = true.
Proof.
  induction l as [|a l IH]; cbn [trimStart]; [intros _ x [] |].
  destruct (is_space a) eqn:E; [|discriminate].
  intros H x [<- | Hx]; [exact E | now apply IH].
Qed.

Lemma trimStart_head (x : str) :
  match trimStart x with [] => True | c :: _ => is_space c = false end.
Proof.
  induction x as [|a x IH]; cbn [trimStart]; [exact I |].
  destruct (is_space a) eqn:E; [exact IH | exact E].
Qed.

(** A trimmed text does not start with white space. *)
Lemma trim_head (x : str) :
  match trim x with [] => True | c :: _ => is_space c = false end.
Proof.
  unfold trim, trimEnd.
  destruct (trimStart_suffix (rev (trimStart x))) as [a Ha].
  apply (f_equal (@rev ascii)) in Ha. rewrite rev_involutive, rev_app_distr in Ha.
  pose proof (trimStart_head x) as Hh.
  destruct (rev (trimStart (rev (trimStart x)))) as [|c t]; [exact I |].
  rewrite Ha in Hh. exact Hh.
Qed.

Lemma trim_nonempty (c : ascii) (t : str) : is_space c = false -> trim (c :: t) <> [].
Proof.
  intros Hc. unfold trim. cbn [trimStart]. rewrite Hc. unfold trimEnd. intros H.
  apply (f_equal (@rev ascii)) in H. rewrite rev_involutive in H. cbn [rev] in H.
  pose proof (trimStart_nil _ H c ltac:(apply in_or_app; right; now left)). congruence.
Qed.

(** A text that starts with a character other than white space and holds
    no comma has a name. *)
Lemma entry_name_nonempty (c : ascii) (t : str) :
  is_space c = false -> includes (c :: t) "," = false ->
  entry_name (cleanInvestorName (c :: t)) <> [].
Proof.
  intros Hc Hcomma. unfold cleanInvestorName.
  apply (indexOf_from_none "," (c :: t) 0) in Hcomma. fold (indexOf (c :: t) ",") in Hcomma.
  rewrite Hcomma.
  destruct (earliestSeparator descriptionSeparators (c :: t) None "comma")
    as [found foundType] eqn:E.
  destruct (earliestSeparator_spec _ _ _ _ _ _ E) as (_ & _ & Hwhich).
  destruct Hwhich as [[-> _] | (i & -> & Hin & Hi)]; cbn [entry_name].
  - now apply trim_nonempty.
  - apply indexOf_from_split in Hi. destruct Hi as [_ Hcut]. rewrite Nat.sub_0_r in Hcut.
    destruct i as [|i].
    + exfalso. cbn [firstn app] in Hcut.
      assert (Hsp : is_space c = true); [|congruence].
      repeat destruct Hin as [<- | Hin]; try contradiction;
        cbn in Hcut; injection Hcut as -> _; reflexivity.
    + unfold substring. cbn [Nat.sub skipn firstn]. now apply trim_nonempty.
Qed.

Lemma removeAll_In (p : str) (c : ascii) :
  forall s skip, In c (removeAll p skip s) -> In c s.
Proof.
  induction s as [|x s IH]; intros skip; cbn [removeAll]; [exact id |].
  destruct skip as [|k].
  - destruct (startsWith (x :: s) p).
    + intros H. right. exact (IH _ H).
    + intros [<- | H]; [now left | right; exact (IH _ H)].
  - intros H. right. exact (IH _ H).
Qed.

Lemma forallb_rev (f : ascii -> bool) (l : str) :
  forallb f l = true -> forallb f (rev l) = true.
Proof.
  rewrite !forallb_forall. intros H x Hx. apply H. now apply in_rev.
Qed.

(** A pattern that matches no empty text and matches at every character
    of some kind cuts the text into pieces without such characters. *)
Lemma split_loop_without (ci : bool) (r : regex) (bad : ascii -> bool) :
  (forall w, lang ci r w -> w <> []) ->
  (forall x s q, bad x = true -> rmatch ci r q (x :: s) [] (fun e _ _ => Some e) <> None) ->
  forall fuel p q s acc,
    p <= q -> forallb (fun x => negb (bad x)) acc = true ->
    List.Forall (fun piece => forallb (fun x => negb (bad x)) piece = true)
      (split_loop fuel ci r p q s acc).
Proof.
  intros Hne Hbad.
  induction fuel as [|fuel IH]; intros p q s acc Hpq Hacc; cbn [split_loop].
  - constructor; [now apply forallb_rev | constructor].
  - destruct s as [|x s]; [constructor; [now apply forallb_rev | constructor] |].
    destruct (rmatch ci r q (x :: s) [] (fun e _ _ => Some e)) as [e|] eqn:E.
    + apply rmatch_sound in E. destruct E as (w & s' & c' & _ & Hl & Hk & _).
      injection Hk as <-. apply Hne in Hl.
      replace (Nat.eqb (length w + q) p) with false
        by (symmetry; apply Nat.eqb_neq; destruct w; [contradiction | cbn [length]; lia]).
      constructor; [now apply forallb_rev |]. now apply IH.
    + destruct (bad x) eqn:Hx; [exfalso; exact (Hbad x s q Hx E) |].
      apply IH; [lia |]. cbn [forallb]. now rewrite Hx.
Qed.

Lemma split_re_without (ci : bool) (r : regex) (bad : ascii -> bool) (s : str) :
  (forall w, lang ci r w -> w <> []) ->
  (forall x s q, bad x = true -> rmatch ci r q (x :: s) [] (fun e _ _ => Some e) <> None) ->
  List.Forall (fun piece => forallb (fun x => negb (bad x)) piece = true) (split_re ci r s).
Proof.
  intros Hne Hbad. unfold split_re. destruct s as [|x s].
  - destruct (rmatch ci r 0 [] [] (fun e _ _ => Some e)); repeat constructor.
  - now apply split_loop_without.
Qed.

Lemma rmatch_alt_l {R : Type} (ci : bool) (r1 r2 : regex) (i : nat) (s : str) (c : caps)
    (k : nat -> str -> caps -> option R) :
  rmatch ci r1 i s c k <> None -> rmatch ci (RAlt r1 r2) i s c k <> None.
Proof. cbn [rmatch]. destruct (rmatch ci r1 i s c k); [discriminate | contradiction]. Qed.

Lemma rmatch_alt_r {R : Type} (ci : bool) (r1 r2 : regex) (i : nat) (s : str) (c : caps)
    (k : nat -> str -> caps -> option R) :
  rmatch ci r2 i s c k <> None -> rmatch ci (RAlt r1 r2) i s c k <> None.
Proof. cbn [rmatch]. destruct (rmatch ci r1 i s c k); [discriminate | exact id]. Qed.

(** The pieces between the separators of an investor section hold neither
    a comma nor a line break. *)
Lemma investor_pieces (investorSection : str) :
  List.Forall (fun piece => ~ In ","%char piece /\ ~ In newline piece)
    (split_re false investorSeparator investorSection).
Proof.
  pose (bad := fun x : ascii => Ascii.eqb x "," || Ascii.eqb x newline).
  assert (H : List.Forall (fun piece => forallb (fun x => negb (bad x)) piece = true)
                (split_re false investorSeparator investorSection)).
  { apply split_re_without.
    - intros w Hw. unfold investorSeparator in Hw.
      inversion Hw as [| | | | |? ? ? H1|? ? ? H1| | | | |]; subst.
      + inversion H1; subst. discriminate.
      + inversion H1 as [| | | | |? ? ? H2|? ? ? H2| | | | |]; subst.
        * cbn [rseq] in H2. inversion H2 as [| | | |? ? ? ? Hu Hv| | | | | | |]; subst.
          inversion Hu; subst. discriminate.
        * inversion H2; subst. discriminate.
    - intros x s q Hx. unfold bad in Hx. apply orb_true_iff in Hx.
      destruct Hx as [Hx | Hx]; apply Ascii.eqb_eq in Hx; subst x; unfold investorSeparator.
      + apply rmatch_alt_l. cbn. discriminate.
      + apply rmatch_alt_r, rmatch_alt_r. cbn. discriminate. }
  eapply List.Forall_impl; [|exact H]. intros piece Hp. cbn beta in Hp.
  rewrite forallb_forall in Hp. split; intros Hin; apply Hp in Hin; discriminate.
Qed.

(** X30: in a record made from a text with an investors heading, every
    name of the investors list is non-empty, holds no line break, no comma
    and none of the description separators. *)
Theorem investors_named (text : str) (isAcquisition : bool) :
  includes text "Investor:" || includes text "Investors:" = true ->
  List.Forall properName (investors text isAcquisition).
Proof.
  intros Hheading. unfold investors, investorEntries. rewrite Hheading.
  destruct (sectionAfter false investorsHeading text) as [[|x investorSection]|];
    try constructor.
  rewrite map_map. apply List.Forall_forall. intros name Hin.
  apply in_map_iff in Hin. destruct Hin as (i & <- & Hi).
  unfold rawInvestors in Hi. apply filter_In in Hi. destruct Hi as [Hi Hlen].
  apply in_map_iff in Hi. destruct Hi as (piece & <- & Hpiece).
  pose proof (investor_pieces (x :: investorSection)) as Hfree.
  rewrite List.Forall_forall in Hfree. destruct (Hfree piece Hpiece) as [Hcomma Hline].
  assert (Hchars : forall c, In c (trim (removeAll "(Lead)" 0 piece)) -> In c piece).
  { intros c Hc. apply trim_In in Hc. now apply removeAll_In in Hc. }
  pose proof (trim_head (removeAll "(Lead)" 0 piece)) as Hhead.
  destruct (trim (removeAll "(Lead)" 0 piece)) as [|c t] eqn:Ei; [discriminate |].
  repeat split.
  - apply entry_name_nonempty; [exact Hhead |].
    change (includes (c :: t) [","%char] = false). rewrite includes_single. destruct (existsb (Ascii.eqb ",") (c :: t)) eqn:Ex; [|reflexivity].
    apply existsb_exists in Ex. destruct Ex as (y & Hy & Heq).
    apply Ascii.eqb_eq in Heq. subst y. now apply Hchars in Hy.
  - intros Hn. apply entry_name_In in Hn. now apply Hchars in Hn.
  - apply entry_name_free.
  - apply entry_name_free.
Qed.

Lemma investors_named_witness :
  includes funded_announcement "Investor:" || includes funded_announcement "Investors:" = true
  /\ List.Forall properName (investors funded_announcement false).
Proof.
  split; [reflexivity | apply (investors_named funded_announcement false); reflexivity].
Defined.

(** The announcement above names three investors, the one-letter entry
    being dropped; a buyer named after [Acquired by:] is not checked that
    way and may come out empty. *)
Example investors_samples :
  investors funded_announcement false
  = [ "Paradigm" : str; "a16z" : str; "Coinbase Ventures" : str ]
  /\ investors ("Acme was acquired" ++ [newline] ++ "Acquired by: , a fund") true = [ [] ].
Proof. vm_compute. split; reflexivity. Qed.

End InvestorFacts.

(** ** Round types *)

Section RoundFacts.

Import Details.

Lemma startsWith_refl (p : str) : startsWith p p = true.
Proof. induction p as [|x p IH]; [reflexivity |]. cbn. now rewrite Ascii.eqb_refl. Qed.

Lemma includes_refl (p : str) : includes p p = true.
Proof. destruct p; cbn [includes]; now rewrite startsWith_refl. Qed.

(** A text that holds a phrase is the phrase with text around it. *)
Lemma includes_split (p s : str) :
  includes s p = true -> exists u v, s = u ++ p ++ v.
Proof.
  intros H. destruct (indexOf_from 0 s p) as [j|] eqn:E.
  - apply indexOf_from_split in E. destruct E as [_ E]. eauto.
  - apply indexOf_from_none in E. congruence.
Qed.

(** A text that holds a phrase holds every end of the phrase. *)
Lemma includes_end (a b s : str) : includes s (a ++ b) = true -> includes s b = true.
Proof.
  intros H. apply includes_split in H. destruct H as (u & v & ->).
  rewrite <- !app_assoc. rewrite (app_assoc u a). apply includes_app. apply includes_refl.
Qed.

Lemma firstPhrase_In (phrases : list (str * str)) (firstLine value : str) :
  firstPhrase phrases firstLine = Some value -> In value (map snd phrases).
Proof.
  induction phrases as [|[phrase v] rest IH]; cbn [firstPhrase map snd]; [discriminate |].
  destruct (includes firstLine phrase); [intros [= <-]; now left | right; now apply IH].
Qed.

Lemma firstPattern_In (matches : list (regex * str)) (text value : str) :
  firstPattern matches text = Some value -> In value (map snd matches).
Proof.
  induction matches as [|[pattern v] rest IH]; cbn [firstPattern map snd]; [discriminate |].
  destruct (test true pattern text); [intros [= <-]; now left | right; now apply IH].
Qed.

(** X24: the round [extractRoundType] returns, when it returns one, is one
    of twelve fixed names. *)
Theorem extractRoundType_values (text round : str) :
  extractRoundType text = Some round -> In round roundNames.
Proof.
  unfold extractRoundType.
  destruct (firstPhrase firstLineRounds (Parser.firstLineOf text)) as [value|] eqn:E.
  - intros [= <-]. apply firstPhrase_In in E. cbn in E. unfold roundNames.
    repeat destruct E as [<- | E]; cbn; tauto.
  - intros H. apply firstPattern_In in H. cbn in H. unfold roundNames.
    repeat destruct H as [<- | H]; cbn; tauto.
Qed.

Lemma extractRoundType_values_witness :
  extractRoundType "Acme $5M Seed Round" = Some ("Seed" : str) /\ In ("Seed" : str) roundNames.
Proof.
  split; [reflexivity |].
  exact (extractRoundType_values "Acme $5M Seed Round" "Seed" eq_refl).
Defined.

(** X25: the first-line test for [Pre-Series A Round] never decides: a
    first line that holds this phrase holds [Series A Round] as well,
    which is tested first, so the round returned is [Series A], unless an
    earlier phrase gives [Angel Round], [Pre-Seed] or [Seed]; it is never
    [Pre-Series A]. *)
Theorem pre_series_a_shadowed (text : str) :
  includes (Parser.firstLineOf text) "Pre-Series A Round" = true ->
  In (extractRoundType text)
     [Some ("Angel Round" : str); Some ("Pre-Seed" : str); Some ("Seed" : str);
      Some ("Series A" : str)]
  /\ extractRoundType text <> Some ("Pre-Series A" : str).
Proof.
  intros H.
  assert (Hs : includes (Parser.firstLineOf text) "Series A Round" = true).
  { apply (includes_end "Pre-"). exact H. }
  assert (Hin : In (extractRoundType text)
                   [Some ("Angel Round" : str); Some ("Pre-Seed" : str); Some ("Seed" : str);
                    Some ("Series A" : str)]).
  { unfold extractRoundType, firstLineRounds. cbn [firstPhrase].
    destruct (includes (Parser.firstLineOf text) "Angel Round"); [cbn; tauto |].
    destruct (includes (Parser.firstLineOf text) "Pre-Seed Round"); [cbn; tauto |].
    destruct (includes (Parser.firstLineOf text) "Seed Round"); [cbn; tauto |].
    rewrite Hs. cbn. tauto. }
  split; [exact Hin |].
  intros E. rewrite E in Hin. cbn in Hin.
  repeat destruct Hin as [Hin | Hin]; try discriminate Hin. contradiction.
Qed.

Lemma pre_series_a_shadowed_witness :
  extractRoundType early_announcement = Some ("Series A" : str)
  /\ extractRoundType early_announcement <> Some ("Pre-Series A" : str).
Proof.
  split; [reflexivity |].
  exact (proj2 (pre_series_a_shadowed early_announcement eq_refl)).
Defined.

End RoundFacts.

(** ** Links *)

Section LinkFacts.

Import Details.

Lemma search_bol_later (ci : bool) (r : regex) :
  forall s i, search ci (RSeq RBol r) (S i) s = None.
Proof.
  induction s as [|x s IH]; intros i; cbn [search rmatch Nat.eqb]; [reflexivity | apply IH].
Qed.

Lemma hasScheme_split (link : str) :
  hasScheme link = true -> exists rest, link = "http" ++ rest.
Proof. intros H. apply startsWith_split in H. eauto. Qed.

Lemma numericOnly_scheme (link : str) : hasScheme link = true -> test false numericOnly link = false.
Proof.
  intros H. destruct (hasScheme_split link H) as [rest ->].
  unfold test, exec. cbn [app list_ascii_of_string search].
  cbn. now rewrite search_bol_later.
Qed.

Lemma knownCompanies_scheme (link : str) :
  hasScheme link = true -> arr_includes knownCompanies link = false.
Proof. intros H. destruct (hasScheme_split link H) as [rest ->]. reflexivity. Qed.

Lemma validLink_scheme (link : str) : hasScheme link = true -> validLink link = true.
Proof.
  intros H. unfold validLink.
  rewrite (numericOnly_scheme link H), (knownCompanies_scheme link H).
  unfold hasScheme in H. now rewrite H.
Qed.

Lemma withScheme_scheme (link : str) : hasScheme (withScheme link) = true.
Proof.
  unfold withScheme, hasScheme. destruct (startsWith link "http") eqn:E; cbn [negb]; [exact E |].
  reflexivity.
Qed.

Lemma withScheme_id (link : str) : hasScheme link = true -> withScheme link = link.
Proof. unfold withScheme, hasScheme. now intros ->. Qed.

Lemma In_arr_includes (l : list str) (x : str) : In x l -> arr_includes l x = true.
Proof.
  intros H. unfold arr_includes. apply existsb_exists. exists x.
  split; [exact H | apply str_eqb_refl].
Qed.

(** What the insertions into the set leave. *)
Lemma addLink_fold (links : list str) :
  forall seen,
    List.NoDup seen -> forallb hasScheme seen = true ->
    List.NoDup (fold_left addLink links seen)
    /\ forallb hasScheme (fold_left addLink links seen) = true
    /\ forall x, In x (fold_left addLink links seen)
                 <-> In x seen \/ In x (map withScheme links).
Proof.
  induction links as [|link links IH]; intros seen Hnd Hall; cbn [fold_left map].
  - split; [exact Hnd |]. split; [exact Hall |]. intros x. cbn. tauto.
  - unfold addLink at 2 4 6. cbn zeta.
    destruct (arr_includes seen (withScheme link)) eqn:E.
    + destruct (IH seen Hnd Hall) as (H1 & H2 & H3).
      split; [exact H1 |]. split; [exact H2 |]. intros x. rewrite H3. cbn [In]. split.
      * tauto.
      * intros [H | [<- | H]]; auto.
        left. unfold arr_includes in E. apply existsb_exists in E.
        destruct E as (y & Hy & Heq). apply str_eqb_eq in Heq. now subst y.
    + destruct (IH (seen ++ [withScheme link])) as (H1 & H2 & H3).
      * apply NoDup_snoc; [exact Hnd | now apply arr_includes_In].
      * rewrite forallb_app, Hall. cbn. now rewrite withScheme_scheme.
      * split; [exact H1 |]. split; [exact H2 |]. intros x.
        rewrite H3, in_app_iff. cbn [In]. tauto.
Qed.

(** Inserting links that are distinct and have their scheme adds them
    all, in order. *)
Lemma addLink_fold_distinct (links : list str) :
  forall seen,
    List.NoDup (seen ++ links) -> forallb hasScheme links = true ->
    fold_left addLink links seen = seen ++ links.
Proof.
  induction links as [|link links IH]; intros seen Hnd Hall; cbn [fold_left].
  - now rewrite app_nil_r.
  - cbn [forallb] in Hall. apply andb_true_iff in Hall. destruct Hall as [Hl Hall].
    unfold addLink at 2. cbn zeta. rewrite (withScheme_id link Hl).
    assert (Hnew : ~ In link seen).
    { apply NoDup_remove_2 in Hnd. intros Hin. apply Hnd. apply in_or_app. now left. }
    replace (arr_includes seen link) with false.
    + rewrite IH; [now rewrite <- app_assoc | now rewrite <- app_assoc | exact Hall].
    + symmetry. destruct (arr_includes seen link) eqn:E; [|reflexivity].
      unfold arr_includes in E. apply existsb_exists in E.
      destruct E as (y & Hy & Heq). apply str_eqb_eq in Heq. now subst y.
Qed.

Lemma filter_all (f : str -> bool) (l : list str) :
  forallb f l = true -> List.filter f l = l.
Proof.
  induction l as [|x l IH]; [reflexivity |]. cbn [forallb List.filter].
  intros H. apply andb_true_iff in H. destruct H as [-> H]. now rewrite IH.
Qed.

(** X26: the links [cleanLinks] returns all start with [http] and are
    pairwise distinct; they are the valid links of the input, each with its
    scheme; and cleaning them again changes nothing. *)
Theorem cleanLinks_clean (links : list str) :
  List.NoDup (cleanLinks links)
  /\ forallb hasScheme (cleanLinks links) = true
  /\ (forall x, In x (cleanLinks links)
                <-> exists link, In link links /\ validLink link = true
                                 /\ x = withScheme link)
  /\ cleanLinks (cleanLinks links) = cleanLinks links.
Proof.
  unfold cleanLinks at 1 2 3.
  destruct (addLink_fold (List.filter validLink links) [] (List.NoDup_nil _) eq_refl)
    as (Hnd & Hall & Hin).
  split; [exact Hnd |]. split; [exact Hall |]. split.
  - intros x. rewrite Hin, in_map_iff. split.
    + intros [[] | (link & <- & Hl)]. apply filter_In in Hl. exists link. tauto.
    + intros (link & Hl & Hv & ->). right. exists link. split; [reflexivity |].
      apply filter_In. tauto.
  - fold (cleanLinks links) in Hnd, Hall.
    unfold cleanLinks at 1. rewrite filter_all.
    + now apply addLink_fold_distinct.
    + rewrite forallb_forall in *. intros x Hx. apply validLink_scheme. now apply Hall.
Qed.

Lemma keepUrl_inv (url : str) :
  keepUrl url = true -> includes url "." = true /\ includes url "@" = false.
Proof.
  unfold keepUrl. destruct (test false plainAmount url); [discriminate |].
  destruct (arr_includes notUrls url); [discriminate |].
  intros H. apply andb_true_iff in H. destruct H as [H1 H2].
  split; [exact H1 | now apply negb_true_iff in H2].
Qed.

Lemma withScheme_keeps (url : str) :
  includes url "." = true -> includes url "@" = false ->
  includes (withScheme url) "." = true /\ includes (withScheme url) "@" = false.
Proof.
  intros Hdot Hat. unfold withScheme. destruct (negb (startsWith url "http")); [|now split].
  split.
  - rewrite <- (app_nil_r url). now apply includes_app.
  - change (list_ascii_of_string "@") with ["@"%char] in *.
    rewrite includes_single in *. rewrite existsb_app, Hat. reflexivity.
Qed.

Lemma searchLink_infix (s : str) :
  forall prev i m, searchLink prev i s = Some m -> exists u v, s = u ++ m_text m ++ v.
Proof.
  induction s as [|x s IH]; intros prev i m; cbn [searchLink].
  - destruct (rmatch true (urlRegexAt prev) i [] [] _) as [[e c]|]; [|discriminate].
    intros [= <-]. cbn [m_text]. exists [], []. now rewrite firstn_nil.
  - destruct (rmatch true (urlRegexAt prev) i (x :: s) [] _) as [[e c]|].
    + intros [= <-]. cbn [m_text]. exists [], (skipn (e - i) (x :: s)).
      cbn [app]. now rewrite firstn_skipn.
    + intros H. apply IH in H. destruct H as (u & v & ->). now exists (x :: u), v.
Qed.

Lemma matchLinks_infix (fuel : nat) :
  forall prev i s,
    Forall (fun t => exists u v, s = u ++ t ++ v) (matchLinks fuel prev i s).
Proof.
  induction fuel as [|fuel IH]; intros prev i s; cbn [matchLinks]; [constructor |].
  destruct (searchLink prev i s) as [m|] eqn:E; [|constructor].
  constructor; [exact (searchLink_infix s prev i m E) |].
  apply List.Forall_forall. intros t Hin.
  pose proof (IH (nth_error s (m_end m - i - 1)) (m_end m) (skipn (m_end m - i) s)) as Hrest.
  rewrite List.Forall_forall in Hrest. destruct (Hrest t Hin) as (u & v & Ht).
  exists (firstn (m_end m - i) s ++ u), v.
  rewrite <- app_assoc, <- Ht. symmetry. apply firstn_skipn.
Qed.

(** X27: every link [extractLinks] returns starts with [http], holds a dot
    and no [@], and is a piece of the text, with [https://] put in front
    when the piece does not start with [http]. *)
Theorem extractLinks_links (text : str) :
  Forall (fun link =>
            hasScheme link = true
            /\ includes link "." = true
            /\ includes link "@" = false
            /\ exists before piece after,
                 text = before ++ piece ++ after
                 /\ (link = piece \/ link = "https://" ++ piece))
    (extractLinks text).
Proof.
  unfold extractLinks. apply List.Forall_forall. intros link Hin.
  apply in_map_iff in Hin. destruct Hin as (url & <- & Hin).
  apply filter_In in Hin. destruct Hin as [Hin Hkeep].
  destruct (keepUrl_inv url Hkeep) as [Hdot Hat].
  destruct (withScheme_keeps url Hdot Hat) as [Hdot' Hat'].
  split; [apply withScheme_scheme |]. split; [exact Hdot' |]. split; [exact Hat' |].
  pose proof (matchLinks_infix (S (length text)) None 0 text) as Hpieces.
  rewrite List.Forall_forall in Hpieces. destruct (Hpieces url Hin) as (u & v & Hcut).
  exists u, url, v. split; [exact Hcut |].
  unfold withScheme. destruct (negb (startsWith url "http")); auto.
Qed.

Lemma addLink_fold_scheme (links : list str) :
  forallb hasScheme links = true ->
  forall seen,
    fold_left addLink links seen
    = fold_left (fun seen x => if arr_includes seen x then seen else seen ++ [x]) links seen.
Proof.
  induction links as [|link links IH]; intros Hall seen; [reflexivity |].
  cbn [forallb] in Hall. apply andb_true_iff in Hall. destruct Hall as [Hl Hall].
  cbn [fold_left]. unfold addLink at 2. cbn zeta. rewrite (withScheme_id link Hl).
  now apply IH.
Qed.

Lemma extractLinks_scheme (text : str) : forallb hasScheme (extractLinks text) = true.
Proof.
  unfold extractLinks. apply forallb_forall. intros link Hin.
  apply in_map_iff in Hin. destruct Hin as (url & <- & _). apply withScheme_scheme.
Qed.

(** X28: on the links [extractLinks] returns, [cleanLinks] only removes
    the repetitions: its filter drops none of them and its prefixing
    changes none. *)
Theorem cleanLinks_after_extractLinks (text : str) :
  cleanLinks (extractLinks text) = dedupe (extractLinks text)
  /\ (forall link, In link (cleanLinks (extractLinks text)) <-> In link (extractLinks text)).
Proof.
  pose proof (extractLinks_scheme text) as Hall.
  assert (Hfilter : List.filter validLink (extractLinks text) = extractLinks text).
  { apply filter_all. rewrite forallb_forall in *. intros x Hx.
    apply validLink_scheme. now apply Hall. }
  split.
  - unfold cleanLinks, dedupe. rewrite Hfilter. now apply addLink_fold_scheme.
  - intros link. unfold cleanLinks. rewrite Hfilter.
    destruct (addLink_fold (extractLinks text) [] (List.NoDup_nil _) eq_refl) as (_ & _ & H).
    rewrite H. cbn [In]. split.
    + intros [[] | Hin]. apply in_map_iff in Hin. destruct Hin as (x & <- & Hx).
      rewrite withScheme_id; [exact Hx |]. rewrite forallb_forall in Hall. now apply Hall.
    + intros Hin. right. apply in_map_iff. exists link. split; [|exact Hin].
      apply withScheme_id. rewrite forallb_forall in Hall. now apply Hall.
Qed.

Lemma ai_withScheme_scheme (link : str) : hasScheme (GenAI.withScheme link) = true.
Proof.
  unfold GenAI.withScheme, hasScheme.
  destruct (startsWith link "http") eqn:E; cbn [negb]; [exact E | reflexivity].
Qed.

Lemma ai_keepLink_inv (v : GenAI.JValue) (l : str) :
  GenAI.keepLink v = Some l -> v = GenAI.JStr l.
Proof.
  unfold GenAI.keepLink. destruct v as [| | | |[|x s]| |]; try discriminate.
  destruct (_ && _); [discriminate |].
  destruct (test false GenAI.bareAmount (x :: s)); [discriminate |].
  destruct (_ && _); [discriminate |]. now intros [= <-].
Qed.

(** A link given its scheme is kept as it is by a second cleaning. *)
Lemma ai_keepLink_prefixed (l : str) :
  GenAI.keepLink (GenAI.JStr ("https://" ++ l)) = Some ("https://" ++ l).
Proof.
  unfold GenAI.keepLink. cbn [app list_ascii_of_string].
  assert (E1 : test false GenAI.bareAmount ("https://" ++ l) = false).
  { unfold test, exec. cbn. now rewrite search_bol_later. }
  assert (E2 : test false GenAI.bareName ("https://" ++ l) = false).
  { unfold test, exec. cbn. now rewrite search_bol_later. }
  cbn [app list_ascii_of_string] in E1, E2. rewrite E1, E2. reflexivity.
Qed.

Lemma ai_cleanLinks_again (l : str) :
  GenAI.keepLink (GenAI.JStr l) = Some l ->
  GenAI.cleanLinks [GenAI.JStr (GenAI.withScheme l)] = [GenAI.withScheme l].
Proof.
  intros H. unfold GenAI.withScheme at 1 2.
  destruct (startsWith l "http") eqn:E; cbn [negb GenAI.cleanLinks].
  - rewrite H. unfold GenAI.withScheme. now rewrite E.
  - rewrite ai_keepLink_prefixed. reflexivity.
Qed.

(** X29: the links the AI engine's [cleanLinks] returns all start with
    [http], there are no more of them than were given, and cleaning them
    again changes nothing. *)
Theorem ai_cleanLinks_clean (links : list GenAI.JValue) :
  forallb hasScheme (GenAI.cleanLinks links) = true
  /\ length (GenAI.cleanLinks links) <= length links
  /\ GenAI.cleanLinks (map GenAI.JStr (GenAI.cleanLinks links)) = GenAI.cleanLinks links.
Proof.
  induction links as [|link links (IH1 & IH2 & IH3)]; [repeat split; reflexivity |].
  cbn [GenAI.cleanLinks]. destruct (GenAI.keepLink link) as [l|] eqn:E.
  - pose proof (ai_keepLink_inv link l E) as ->.
    pose proof (ai_cleanLinks_again l E) as Hagain. cbn [GenAI.cleanLinks] in Hagain.
    split; [|split].
    + cbn [forallb]. now rewrite ai_withScheme_scheme.
    + cbn [length]. lia.
    + cbn [map GenAI.cleanLinks].
      destruct (GenAI.keepLink (GenAI.JStr (GenAI.withScheme l))) as [l'|];
        [|discriminate Hagain].
      injection Hagain as ->. now rewrite IH3.
  - split; [exact IH1 |]. split; [cbn [length]; lia | exact IH3].
Qed.

(** An amount and a bare name are dropped, a domain gets its scheme. *)
Example ai_cleanLinks_sample :
  GenAI.cleanLinks [GenAI.JStr "10.5M"; GenAI.JStr "acme.io"; GenAI.JNum 3;
                    GenAI.JStr "https://t.me/acme"; GenAI.JStr "Acme"]
  = ["https://acme.io" : str; "https://t.me/acme" : str].
Proof. vm_compute. reflexivity. Qed.

(** A link with a scheme runs to the next blank; a bare domain keeps one
    character after its suffix at most, so its path is lost; a link met
    twice is returned twice and cleaned to one. *)
Example extractLinks_sample :
  extractLinks linked_announcement
  = [ "https://acme.io/blog" : str; "https://www.acme.io" : str;
      "https://cryptorank.io/" : str; "https://acme.io/blog" : str ]
  /\ cleanLinks (extractLinks linked_announcement)
     = [ "https://acme.io/blog" : str; "https://www.acme.io" : str;
         "https://cryptorank.io/" : str ].
Proof. vm_compute. split; reflexivity. Qed.

End LinkFacts.
